(** * Data converters of [music/src/core/data.ts]

    A shallow embedding of the converters between quantized note sequences
    and the tensors of the models ([MelodyConverter], [DrumsConverter],
    [DrumsOneHotConverter], [TrioConverter]), followed by the properties
    proved about them.

    Conventions of the embedding:
    - a JavaScript number holding an integer is a [Z]; a length (of an array,
      of a tensor axis) is a [nat];
    - a method that throws returns a [result]; a method that mutates an
      object it was given returns the object's new value next to its result;
    - a tensor of rank 2 is the list of its rows, a [TensorBuffer] is the flat
      list of its values. *)

From Stdlib Require Import ZArith List Lia Bool Permutation.
From stdpp Require Import base numbers list gmap.
Import ListNotations.
Open Scope Z_scope.

(** ** Errors *)

(** The [Error]s thrown in [data.ts], and the errors of the tensor library
    the converters can run into: the shape error ([tf.concat] and [tf.split]
    assert the shapes they are given) and the depth error of [tf.oneHot]. *)
Inductive error : Type :=
| NotMonophonic          (* '`NoteSequence` is not monophonic.' *)
| PitchOutOfRange        (* '`NoteSequence` has a pitch outside of the valid range' *)
| UnknownConverterType   (* 'Unknown DataConverter type' *)
| TensorShapeError
| OneHotDepthError.      (* 'Error in oneHot: depth must be >=2' *)

Inductive result (A : Type) : Type :=
| Ok (a : A)
| Err (e : error).
Arguments Ok {A} a.
Arguments Err {A} e.

#[global] Instance result_bind : MBind result :=
  fun A B (k : A -> result B) (r : result A) =>
    match r with
    | Ok a => k a
    | Err e => Err e
    end.

(** [array.forEach(f)] where [f] updates local state and may throw: the
    first exception ends the iteration. *)
Fixpoint forEach {A S} (f : S -> A -> result S) (l : list A) (s : S) : result S :=
  match l with
  | [] => Ok s
  | a :: l' => s' ← f s a; forEach f l' s'
  end.

(** ** Note sequences *)

(** Modelled from the spec: the protobuf classes [NoteSequence] and
    [NoteSequence.Note] of [../protobuf/index] (a given record type; only
    the fields the converters touch). *)
Record Note : Type := mkNote {
  pitch : Z;
  quantizedStartStep : Z;
  quantizedEndStep : Z;
  isDrum : bool;
  program : Z;
  instrument : Z
}.

Record NoteSequence : Type := mkNoteSequence {
  notes : list Note;
  totalQuantizedSteps : nat
}.

(** Modelled from the spec: [NoteSequence.create()] is the empty sequence and
    [NoteSequence.Note.create(props)] a note whose unset fields have the
    protobuf defaults (0 and false). *)
Definition NoteSequence_create : NoteSequence := mkNoteSequence [] 0.

Definition Note_create (p start end_ : Z) (drum : bool) : Note :=
  mkNote p start end_ drum 0 0.

Definition set_quantizedEndStep (n : Note) (e : Z) : Note :=
  mkNote (pitch n) (quantizedStartStep n) e (isDrum n) (program n) (instrument n).

Definition set_instrument (n : Note) (i : Z) : Note :=
  mkNote (pitch n) (quantizedStartStep n) (quantizedEndStep n) (isDrum n) (program n) i.

Definition set_program (n : Note) (p : Z) : Note :=
  mkNote (pitch n) (quantizedStartStep n) (quantizedEndStep n) (isDrum n) p (instrument n).

Definition set_notes (ns : NoteSequence) (l : list Note) : NoteSequence :=
  mkNoteSequence l (totalQuantizedSteps ns).

(** Modelled from the spec: [sequences.clone] of [./sequences], a deep copy
    of the sequence; a copy of a value is the value. *)
Definition clone (ns : NoteSequence) : NoteSequence := ns.

(** [this.numSteps || noteSequence.totalQuantizedSteps]: an absent or zero
    [numSteps] is falsy. *)
Definition numSteps_or (numSteps : option nat) (ns : NoteSequence) : nat :=
  match numSteps with
  | Some (S n) => S n
  | _ => totalQuantizedSteps ns
  end.

(** [notes.sort((n1, n2) => n1.quantizedStartStep - n2.quantizedStartStep)]:
    the stable sort by start step, notes of equal start step keeping their
    order (the array is sorted in place; the caller below returns the sorted
    array as the new value of the receiver). *)
Fixpoint insert_by_start (n : Note) (l : list Note) : list Note :=
  match l with
  | [] => [n]
  | m :: l' =>
      if quantizedStartStep n <=? quantizedStartStep m
      then n :: m :: l'
      else m :: insert_by_start n l'
  end.

Fixpoint sort_by_start (l : list Note) : list Note :=
  match l with
  | [] => []
  | n :: l' => insert_by_start n (sort_by_start l')
  end.

(** ** The tensor library, as far as the converters use it

    The values of a tensor are integers here: the converters write 0, 1 and
    labels, and read a tensor only through [argMax], which compares values.
    Allocation is not modelled: a shape is a shape that exists. *)

Module tf.

Definition Tensor1D : Type := list Z.
Definition Tensor2D : Type := list (list Z).

(** A value stored in an [Int32Array] is reduced to 32 bits. *)
Definition int32 (z : Z) : Z := (z + 2 ^ 31) mod 2 ^ 32 - 2 ^ 31.

(** [tf.buffer(shape)]: zero-filled values. *)
Definition buffer (size : nat) : list Z := replicate size 0.

(** [buf.set(value, ...locs)]: [values[locToIndex(locs)] = value] on a
    typed array; an index that is no index of the array (negative, past
    the end, or NaN: here [None]) stores nothing. *)
Definition set_index (value : Z) (index : option Z) (values : list Z) : list Z :=
  match index with
  | Some i => if 0 <=? i then <[Z.to_nat i := value]> values else values
  | None => values
  end.

(** rank 1, dtype int32: [locToIndex([i]) = i]. *)
Definition set1 (value : Z) (i : Z) (values : list Z) : list Z :=
  set_index (int32 value) (Some i) values.

(** rank 2, dtype float32, shape [[rows, width]]:
    [locToIndex([i, j]) = j + width * i]; an undefined [j] gives NaN. *)
Definition set2 (width : nat) (value : Z) (i : Z) (j : option Z)
    (values : list Z) : list Z :=
  set_index value (option_map (fun j' => j' + Z.of_nat width * i) j) values.

(** [buf.toTensor()] of a buffer of shape [[rows, width]]. *)
Fixpoint toTensor2D (rows width : nat) (values : list Z) : Tensor2D :=
  match rows with
  | O => []
  | S r => take width values :: toTensor2D r width (drop width values)
  end.

(** [tf.oneHot(indices, depth)]: the library throws for a depth below 2;
    otherwise a row per index, 1 at the index if it is in [[0, depth)],
    0 elsewhere. *)
Definition oneHot_row (depth : Z) (index : Z) : list Z :=
  map (fun j => if Z.of_nat j =? index then 1 else 0) (seq 0 (Z.to_nat depth)).

Definition oneHot_rows (indices : Tensor1D) (depth : Z) : Tensor2D :=
  map (oneHot_row depth) indices.

Definition oneHot (indices : Tensor1D) (depth : Z) : result Tensor2D :=
  if depth <? 2 then Err OneHotDepthError else Ok (oneHot_rows indices depth).

(** [t.argMax(1)]: per row, the first index of the greatest value (0 for
    an empty row). The index of a row is stored as it is: a typed array is
    shorter than [2 ^ 31]. *)
Fixpoint argMax_from (row : list Z) (j : nat) (max : Z) (maxIndex : nat) : nat :=
  match row with
  | [] => maxIndex
  | v :: row' =>
      if max <? v then argMax_from row' (S j) v j
      else argMax_from row' (S j) max maxIndex
  end.

Definition argMax_row (row : list Z) : nat :=
  match row with
  | [] => O
  | v :: row' => argMax_from row' 1 v 0
  end.

Definition argMax (t : Tensor2D) : Tensor1D :=
  map (fun row => Z.of_nat (argMax_row row)) t.

(** [tf.concat([a, b, c], -1)]: the rows side by side; the tensors must
    have as many rows each. *)
Fixpoint zip_rows (a b : Tensor2D) : Tensor2D :=
  match a, b with
  | ra :: a', rb :: b' => (ra ++ rb) :: zip_rows a' b'
  | _, _ => []
  end.

Definition concat3 (a b c : Tensor2D) : result Tensor2D :=
  if (length a =? length b)%nat && (length b =? length c)%nat
  then Ok (zip_rows (zip_rows a b) c)
  else Err TensorShapeError.

(** [tf.split(t, [d0, d1, d2], -1)]: three slices of every row; the sizes
    must be sizes and add up to the width of the tensor. *)
Definition split3 (t : Tensor2D) (d0 d1 d2 : Z)
    : result (Tensor2D * Tensor2D * Tensor2D) :=
  if (0 <=? d0) && (0 <=? d1) && (0 <=? d2)
     && forallb (fun row => Z.of_nat (length row) =? d0 + d1 + d2) t
  then Ok (map (take (Z.to_nat d0)) t,
           map (fun row => take (Z.to_nat d1) (drop (Z.to_nat d0) row)) t,
           map (drop (Z.to_nat d0 + Z.to_nat d1)) t)
  else Err TensorShapeError.

End tf.

(** ** MelodyConverter *)

Module MelodyConverterArgs.
Record t : Type := make {
  numSteps : option nat;
  numSegments : option nat;
  minPitch : Z;
  maxPitch : Z
}.
End MelodyConverterArgs.

Module MelodyConverter.

Record t : Type := make {
  numSteps : option nat;
  numSegments : option nat;
  minPitch : Z;   (* inclusive *)
  maxPitch : Z;   (* inclusive *)
  depth : Z
}.

Definition NUM_SPLITS : nat := 0.
Definition NOTE_OFF : Z := 1.
Definition FIRST_PITCH : Z := 2.

Definition new (args : MelodyConverterArgs.t) : t :=
  make (MelodyConverterArgs.numSteps args)
       (MelodyConverterArgs.numSegments args)
       (MelodyConverterArgs.minPitch args)
       (MelodyConverterArgs.maxPitch args)
       (MelodyConverterArgs.maxPitch args - MelodyConverterArgs.minPitch args
        + 1 + FIRST_PITCH).

(** The body of [sortedNotes.forEach]; the state is [(mel, lastEnd)]. *)
Definition encode_note (c : t) (st : list Z * Z) (n : Note) : result (list Z * Z) :=
  let '(mel, lastEnd) := st in
  if quantizedStartStep n <? lastEnd then Err NotMonophonic
  else if (pitch n <? minPitch c) || (maxPitch c <? pitch n) then Err PitchOutOfRange
  else
    let mel := tf.set1 (pitch n - minPitch c + FIRST_PITCH) (quantizedStartStep n) mel in
    let mel := tf.set1 NOTE_OFF (quantizedEndStep n) mel in
    Ok (mel, quantizedEndStep n).

(** [toTensor]: the sequence it was given (its notes now sorted), and the
    one-hot tensor or the error thrown. *)
Definition toTensor (c : t) (noteSequence : NoteSequence)
    : NoteSequence * result tf.Tensor2D :=
  let numSteps := numSteps_or (numSteps c) noteSequence in
  let sortedNotes := sort_by_start (notes noteSequence) in
  let noteSequence := set_notes noteSequence sortedNotes in
  (noteSequence,
   '(mel, _) ← forEach (encode_note c) sortedNotes (tf.buffer numSteps, -1);
   tf.oneHot mel (depth c)).

(** The body of the loop over the labels; the state is
    [(currNote, noteSequence.notes)]. *)
Definition decode_label (c : t) (st : option Note * list Note) (s : nat) (label : Z)
    : option Note * list Note :=
  let '(currNote, out) := st in
  if label =? 0 then st
  else if label =? 1 then
    match currNote with
    | Some n => (None, out ++ [set_quantizedEndStep n (Z.of_nat s)])
    | None => st
    end
  else
    let out :=
      match currNote with
      | Some n => out ++ [set_quantizedEndStep n (Z.of_nat s)]
      | None => out
      end in
    (Some (Note_create (label - FIRST_PITCH + minPitch c) (Z.of_nat s) 0 false), out).

Fixpoint decode_labels (c : t) (labels : list Z) (s : nat)
    (st : option Note * list Note) : nat * (option Note * list Note) :=
  match labels with
  | [] => (s, st)
  | label :: labels' => decode_labels c labels' (S s) (decode_label c st s label)
  end.

Definition toNoteSequence (c : t) (oh : tf.Tensor2D) : NoteSequence :=
  let labels := tf.argMax oh in
  let '(len, (currNote, out)) := decode_labels c labels 0 (None, []) in
  let out :=
    match currNote with
    | Some n => out ++ [set_quantizedEndStep n (Z.of_nat len)]
    | None => out
    end in
  set_notes NoteSequence_create out.

End MelodyConverter.

(** ** DrumsConverter *)

Definition DEFAULT_DRUM_PITCH_CLASSES : list (list Z) := [
  (* bass drum *)
  [36; 35];
  (* snare drum *)
  [38; 27; 28; 31; 32; 33; 34; 37; 39; 40; 56; 65; 66; 75; 85];
  (* closed hi-hat *)
  [42; 44; 54; 68; 69; 70; 71; 73; 78; 80];
  (* open hi-hat *)
  [46; 67; 72; 74; 79; 81];
  (* low tom *)
  [45; 29; 41; 61; 64; 84];
  (* mid tom *)
  [48; 47; 60; 63; 77; 86; 87];
  (* high tom *)
  [50; 30; 43; 62; 76; 83];
  (* crash cymbal *)
  [49; 55; 57; 58];
  (* ride cymbal *)
  [51; 52; 53; 59; 82]
].

Module DrumsConverterArgs.
Record t : Type := make {
  numSteps : option nat;
  numSegments : option nat;
  pitchClasses : option (list (list Z))
}.
End DrumsConverterArgs.

Module DrumsConverter.

Record t : Type := make {
  numSteps : option nat;
  numSegments : option nat;
  pitchClasses : list (list Z);
  pitchToClass : gmap Z nat;
  depth : Z
}.

Definition NUM_SPLITS : nat := 0.

(** The constructor's loop [for (c = 0; c < pitchClasses.length; ++c)],
    from class [c] on: every pitch of a class is set to the class, a later
    class overwriting an earlier one. *)
Fixpoint set_classes (c : nat) (classes : list (list Z)) (m : gmap Z nat)
    : gmap Z nat :=
  match classes with
  | [] => m
  | ps :: classes' =>
      set_classes (S c) classes' (foldl (fun m p => <[p := c]> m) m ps)
  end.

Definition new (args : DrumsConverterArgs.t) : t :=
  let pitchClasses :=
    match DrumsConverterArgs.pitchClasses args with
    | Some pcs => pcs
    | None => DEFAULT_DRUM_PITCH_CLASSES
    end in
  make (DrumsConverterArgs.numSteps args)
       (DrumsConverterArgs.numSegments args)
       pitchClasses
       (set_classes 0 pitchClasses ∅)
       (Z.of_nat (length pitchClasses)).

(** The body of [noteSequence.notes.forEach] on the drum roll of width
    [pitchClasses.length + 1]. *)
Definition encode_note (c : t) (width : nat) (drumRoll : list Z) (note : Note)
    : list Z :=
  let drumRoll :=
    tf.set2 width 1 (quantizedStartStep note)
      (option_map Z.of_nat (pitchToClass c !! pitch note)) drumRoll in
  tf.set2 width 0 (quantizedStartStep note) (Some (-1)) drumRoll.

Definition toTensor (c : t) (noteSequence : NoteSequence)
    : NoteSequence * result tf.Tensor2D :=
  let numSteps := numSteps_or (numSteps c) noteSequence in
  let width := S (length (pitchClasses c)) in
  let drumRoll := tf.buffer (numSteps * width) in
  let drumRoll :=
    foldl (fun b i => tf.set2 width 1 (Z.of_nat i) (Some (-1)) b)
          drumRoll (seq 0 numSteps) in
  let drumRoll := foldl (encode_note c width) drumRoll (notes noteSequence) in
  (noteSequence, Ok (tf.toTensor2D numSteps width drumRoll)).

(** [this.pitchClasses[p][0]]; the pitch of a created note is 0 when the
    class has no first pitch. *)
Definition firstPitch (c : t) (p : nat) : Z :=
  match pitchClasses c !! p with
  | Some (x :: _) => x
  | _ => 0
  end.

(** The inner loop over the pitch classes at step [s]:
    [labels[s] >> p & 1], the shift count taken modulo 32 as [>>] does
    (the label, an index of a row, is below [2 ^ 31]). *)
Definition decode_label (c : t) (s : nat) (label : Z) : list Note :=
  flat_map
    (fun p =>
       if Z.land (Z.shiftr label (Z.of_nat p mod 32)) 1 =? 0 then []
       else [Note_create (firstPitch c p) (Z.of_nat s) (Z.of_nat s + 1) true])
    (seq 0 (length (pitchClasses c))).

Fixpoint decode_labels (c : t) (labels : list Z) (s : nat) : list Note :=
  match labels with
  | [] => []
  | label :: labels' => decode_label c s label ++ decode_labels c labels' (S s)
  end.

Definition toNoteSequence (c : t) (oh : tf.Tensor2D) : NoteSequence :=
  set_notes NoteSequence_create (decode_labels c (tf.argMax oh) 0).

End DrumsConverter.

(** ** DrumsOneHotConverter *)

Module DrumsOneHotConverter.

(** A [DrumsConverter] whose depth is [Math.pow(2, pitchClasses.length)]. *)
Definition new (args : DrumsConverterArgs.t) : DrumsConverter.t :=
  let c := DrumsConverter.new args in
  DrumsConverter.make
    (DrumsConverter.numSteps c) (DrumsConverter.numSegments c)
    (DrumsConverter.pitchClasses c) (DrumsConverter.pitchToClass c)
    (2 ^ Z.of_nat (length (DrumsConverter.pitchClasses c))).

(** An element of the array [labels]: a number, or [None] for what is not
    one (NaN; a hole of the array reads as undefined, which [+=] turns
    into NaN and the conversion to int32 into 0, as it does NaN). *)
Definition add (x y : option Z) : option Z :=
  match x, y with
  | Some a, Some b => Some (a + b)
  | _, _ => None
  end.

(** [labels[k] += v]: inside the array the element is updated; past its
    end the array grows up to index [k]; a negative [k] names a property,
    not an element. *)
Definition add_at (labels : list (option Z)) (k : Z) (v : option Z)
    : list (option Z) :=
  if k <? 0 then labels
  else
    match labels !! Z.to_nat k with
    | Some x => <[Z.to_nat k := add x v]> labels
    | None => labels ++ replicate (Z.to_nat k - length labels)%nat None ++ [None]
    end.

(** [Math.pow(2, this.pitchToClass.get(pitch))]: NaN for a pitch that is
    not in the map. *)
Definition pow2_class (c : DrumsConverter.t) (p : Z) : option Z :=
  option_map (fun cls => 2 ^ Z.of_nat cls) (DrumsConverter.pitchToClass c !! p).

Definition encode_note (c : DrumsConverter.t) (labels : list (option Z)) (note : Note)
    : list (option Z) :=
  add_at labels (quantizedStartStep note) (pow2_class c (pitch note)).

(** [tf.tensor1d(labels, 'int32')]: the numbers as int32 values; what is
    not a number has no int32 value and is stored as 0. *)
Definition tensor1d_int32 (labels : list (option Z)) : tf.Tensor1D :=
  map (fun x => match x with Some z => tf.int32 z | None => 0 end) labels.

Definition toTensor (c : DrumsConverter.t) (noteSequence : NoteSequence)
    : NoteSequence * result tf.Tensor2D :=
  let numSteps := numSteps_or (DrumsConverter.numSteps c) noteSequence in
  let labels := replicate numSteps (Some 0) in
  let labels := foldl (encode_note c) labels (notes noteSequence) in
  (noteSequence, tf.oneHot (tensor1d_int32 labels) (DrumsConverter.depth c)).

Definition toNoteSequence := DrumsConverter.toNoteSequence.

End DrumsOneHotConverter.

(** ** TrioConverter *)

Module TrioConverterArgs.
Record t : Type := make {
  numSteps : option nat;
  numSegments : option nat;
  melArgs : MelodyConverterArgs.t;
  bassArgs : MelodyConverterArgs.t;
  drumsArgs : DrumsConverterArgs.t
}.
End TrioConverterArgs.

Module TrioConverter.

Record t : Type := make {
  numSteps : option nat;
  numSegments : option nat;
  melConverter : MelodyConverter.t;
  bassConverter : MelodyConverter.t;
  drumsConverter : DrumsConverter.t;   (* built as a DrumsOneHotConverter *)
  depth : Z
}.

Definition NUM_SPLITS : nat := 3.
Definition MEL_PROG_RANGE : Z * Z := (0, 31).     (* inclusive *)
Definition BASS_PROG_RANGE : Z * Z := (32, 39).   (* inclusive *)

(** [args.melArgs.numSteps = args.numSteps] and its two siblings: the
    assignments to the caller's objects. *)
Definition copy_numSteps_mel (numSteps : option nat) (a : MelodyConverterArgs.t)
    : MelodyConverterArgs.t :=
  MelodyConverterArgs.make numSteps (MelodyConverterArgs.numSegments a)
    (MelodyConverterArgs.minPitch a) (MelodyConverterArgs.maxPitch a).

Definition copy_numSteps_drums (numSteps : option nat) (a : DrumsConverterArgs.t)
    : DrumsConverterArgs.t :=
  DrumsConverterArgs.make numSteps (DrumsConverterArgs.numSegments a)
    (DrumsConverterArgs.pitchClasses a).

(** The constructor: the argument object as the constructor leaves it, and
    the converter. *)
Definition new (args : TrioConverterArgs.t) : TrioConverterArgs.t * t :=
  let numSteps := TrioConverterArgs.numSteps args in
  (* Copy numSteps to all converters. *)
  let melArgs := copy_numSteps_mel numSteps (TrioConverterArgs.melArgs args) in
  let bassArgs := copy_numSteps_mel numSteps (TrioConverterArgs.bassArgs args) in
  let drumsArgs := copy_numSteps_drums numSteps (TrioConverterArgs.drumsArgs args) in
  let args :=
    TrioConverterArgs.make numSteps (TrioConverterArgs.numSegments args)
      melArgs bassArgs drumsArgs in
  let melConverter := MelodyConverter.new melArgs in
  let bassConverter := MelodyConverter.new bassArgs in
  let drumsConverter := DrumsOneHotConverter.new drumsArgs in
  (args,
   make numSteps (TrioConverterArgs.numSegments args)
     melConverter bassConverter drumsConverter
     (MelodyConverter.depth melConverter + MelodyConverter.depth bassConverter
      + DrumsConverter.depth drumsConverter)).

Definition in_range (range : Z * Z) (n : Note) : bool :=
  negb (isDrum n) && (fst range <=? program n) && (program n <=? snd range).

(** [toTensor]: the three sub-converters get clones whose [notes] are
    fresh arrays ([filter]); the argument itself is left as it was. *)
Definition toTensor (c : t) (noteSequence : NoteSequence)
    : NoteSequence * result tf.Tensor2D :=
  let melSeq := clone noteSequence in
  let bassSeq := clone noteSequence in
  let drumsSeq := clone noteSequence in
  let melSeq := set_notes melSeq (List.filter (in_range MEL_PROG_RANGE) (notes noteSequence)) in
  let bassSeq := set_notes bassSeq (List.filter (in_range BASS_PROG_RANGE) (notes noteSequence)) in
  let drumsSeq := set_notes drumsSeq (List.filter isDrum (notes noteSequence)) in
  (noteSequence,
   mel ← snd (MelodyConverter.toTensor (melConverter c) melSeq);
   bass ← snd (MelodyConverter.toTensor (bassConverter c) bassSeq);
   drums ← snd (DrumsOneHotConverter.toTensor (drumsConverter c) drumsSeq);
   tf.concat3 mel bass drums).

Definition tag_mel (n : Note) : Note := set_program (set_instrument n 0) 0.
Definition tag_bass (n : Note) : Note :=
  set_program (set_instrument n 1) (fst BASS_PROG_RANGE).
Definition tag_drums (n : Note) : Note := set_instrument n 2.

Definition toNoteSequence (c : t) (th : tf.Tensor2D) : result NoteSequence :=
  '(oh0, oh1, oh2) ←
    tf.split3 th (MelodyConverter.depth (melConverter c))
      (MelodyConverter.depth (bassConverter c))
      (DrumsConverter.depth (drumsConverter c));
  let ns := MelodyConverter.toNoteSequence (melConverter c) oh0 in
  let ns := set_notes ns (map tag_mel (notes ns)) in
  let bassNs := MelodyConverter.toNoteSequence (bassConverter c) oh1 in
  let ns := set_notes ns (notes ns ++ map tag_bass (notes bassNs)) in
  let drumsNs := DrumsOneHotConverter.toNoteSequence (drumsConverter c) oh2 in
  let ns := set_notes ns (notes ns ++ map tag_drums (notes drumsNs)) in
  Ok ns.

End TrioConverter.

(** ** DrumRollConverter *)

(** What [DrumRollConverter.toNoteSequence] throws: the assertion of
    [tf.split(roll, roll.shape[0])] that the number of pieces divides the
    number of rows, which a roll of no row fails, and the TypeError of
    reading [this.pitchClasses[p][0]] where [this.pitchClasses[p]] is
    undefined. *)
Inductive roll_error : Type :=
| SplitAssertion
| UndefinedClass.

Inductive roll_result (A : Type) : Type :=
| Returned (a : A)
| Thrown (e : roll_error).
Arguments Returned {A} a.
Arguments Thrown {A} e.

Module DrumRollConverter.

(** A [DrumsConverter] with a [toNoteSequence] of its own: the constructor
    and [toTensor] are inherited. *)
Definition new (args : DrumsConverterArgs.t) : DrumsConverter.t :=
  DrumsConverter.new args.

Definition toTensor (c : DrumsConverter.t) (noteSequence : NoteSequence)
    : NoteSequence * result tf.Tensor2D :=
  DrumsConverter.toTensor c noteSequence.

(** The inner loop over the values [pitches] of the row of step [s], from
    column [p] on; [out] is [noteSequence.notes]. A value is truthy when it
    is not 0. *)
Fixpoint decode_row (c : DrumsConverter.t) (s : nat) (pitches : list Z) (p : nat)
    (out : list Note) : roll_result (list Note) :=
  match pitches with
  | [] => Returned out
  | v :: pitches' =>
      if v =? 0 then decode_row c s pitches' (S p) out
      else
        match DrumsConverter.pitchClasses c !! p with
        | Some _ =>
            decode_row c s pitches' (S p)
              (out ++ [Note_create (DrumsConverter.firstPitch c p)
                         (Z.of_nat s) (Z.of_nat s + 1) true])
        | None => Thrown UndefinedClass
        end
  end.

(** The outer loop over the rows, from step [s] on. *)
Fixpoint decode_rows (c : DrumsConverter.t) (roll : tf.Tensor2D) (s : nat)
    (out : list Note) : roll_result (list Note) :=
  match roll with
  | [] => Returned out
  | pitches :: roll' =>
      match decode_row c s pitches 0 out with
      | Returned out' => decode_rows c roll' (S s) out'
      | Thrown e => Thrown e
      end
  end.

Definition toNoteSequence (c : DrumsConverter.t) (roll : tf.Tensor2D)
    : roll_result NoteSequence :=
  match roll with
  | [] => Thrown SplitAssertion
  | _ :: _ =>
      match decode_rows c roll 0 [] with
      | Returned out => Returned (set_notes NoteSequence_create out)
      | Thrown e => Thrown e
      end
  end.

End DrumRollConverter.

(** * Properties *)

(** ** Predicates of the statements *)

(** Scanning notes in order with the end step [lastEnd] of the note before:
    some note starts strictly before the end of the note that precedes it. *)
Fixpoint overlap_from (lastEnd : Z) (l : list Note) : bool :=
  match l with
  | [] => false
  | n :: l' => (quantizedStartStep n <? lastEnd) || overlap_from (quantizedEndStep n) l'
  end.

(** In the given order, some note starts strictly before the end step of the
    note just before it. *)
Definition adjacent_overlap (l : list Note) : bool :=
  match l with
  | [] => false
  | n :: l' => overlap_from (quantizedEndStep n) l'
  end.

Definition pitch_in_range (c : MelodyConverter.t) (n : Note) : Prop :=
  MelodyConverter.minPitch c <= pitch n <= MelodyConverter.maxPitch c.

Definition start_nonneg (n : Note) : Prop := 0 <= quantizedStartStep n.

Definition pitch_out_of_range (c : MelodyConverter.t) (n : Note) : Prop :=
  pitch n < MelodyConverter.minPitch c \/ MelodyConverter.maxPitch c < pitch n.

(** What a melody keeps of a note. *)
Definition key (n : Note) : Z * Z * Z :=
  (pitch n, quantizedStartStep n, quantizedEndStep n).

(** The notes of [l] follow one another between the steps [lo] and [hi]:
    each starts before it ends, and no earlier than the one before it
    ended. *)
Fixpoint chain (lo : Z) (l : list Note) (hi : Z) : Prop :=
  match l with
  | [] => lo <= hi
  | n :: l' =>
      lo <= quantizedStartStep n < quantizedEndStep n
      /\ chain (quantizedEndStep n) l' hi
  end.

(** The invariant of the loop of [MelodyConverter.toNoteSequence] before
    step [s]: the notes pushed so far follow one another, the open note
    starts after them and before [s], and all pitches are in range. *)
Definition decode_inv (c : MelodyConverter.t) (s : nat)
    (st : option Note * list Note) : Prop :=
  Forall (pitch_in_range c) (snd st)
  /\ exists hi,
       chain 0 (snd st) hi
       /\ match fst st with
          | None => hi <= Z.of_nat s
          | Some n =>
              hi <= quantizedStartStep n < Z.of_nat s /\ pitch_in_range c n
          end.

(** The round trip of a melody, step by step. With [e] the step the last
    encoded note ended at (0 when there is none) and [k] the number of steps
    from [e] on, the buffer [mel] holds from [e] on the labels
    [closing_labels closer k]: the note-off of that note ([closer] is 1), or a
    rest where no note was encoded ([closer] is 0), then rests. Encoding a
    note that starts [a] steps after [e] and ends [b] steps after [e]
    replaces them with [segment closer a b p], [p] the label of its pitch,
    followed by the closing labels of the new note. *)
Definition closing_labels (closer : Z) (k : nat) : list Z :=
  match k with
  | O => []
  | S k' => closer :: replicate k' 0
  end.

Definition segment (closer : Z) (a b : nat) (p : Z) : list Z :=
  match a with
  | O => []
  | S a' => closer :: replicate a' 0
  end ++ p :: replicate (b - a - 1) 0.

Definition closer_of (curr : option Note) : Z :=
  match curr with
  | Some _ => 1
  | None => 0
  end.

(** The open note of the decoder, closed at step [e]. *)
Definition closed (curr : option Note) (e : nat) : list Note :=
  match curr with
  | Some m => [set_quantizedEndStep m (Z.of_nat e)]
  | None => []
  end.

(** A label that a one-hot row of the width [depth] gives back: one below
    [depth], or 0. *)
Definition valid_label (c : MelodyConverter.t) (label : Z) : Prop :=
  0 <= label < MelodyConverter.depth c \/ label = 0.

(** The notes of [toNoteSequence], from the state its loop ends in. *)
Definition decode_end (r : nat * (option Note * list Note)) : list Note :=
  snd (snd r) ++ closed (fst (snd r)) (fst r).

(** A note as the decoder creates it, before and after it is closed. *)
Definition open_note (n : Note) : Note :=
  Note_create (pitch n) (quantizedStartStep n) 0 false.

Definition melody_note (n : Note) : Note :=
  Note_create (pitch n) (quantizedStartStep n) (quantizedEndStep n) false.

(** The three partitions of [TrioConverter], as the programs and the drum
    flag of a note; and a note of none of them. *)
Definition melody_part (n : Note) : bool :=
  negb (isDrum n) && (0 <=? program n) && (program n <=? 31).

Definition bass_part (n : Note) : bool :=
  negb (isDrum n) && (32 <=? program n) && (program n <=? 39).

Definition drums_part (n : Note) : bool := isDrum n.

Definition no_part (n : Note) : Prop :=
  isDrum n = false /\ (program n < 0 \/ 39 < program n).

(** The sequence with only those of its notes that satisfy [p], in order. *)
Definition restrict (p : Note -> bool) (ns : NoteSequence) : NoteSequence :=
  mkNoteSequence (List.filter p (notes ns)) (totalQuantizedSteps ns).

(** A pitch that is in some class of the table; the class of a note as the
    map of the converter gives it; the pitch that stands for the class; and
    the label a list of notes adds up to at step [s]. *)
Definition mapped (pitchClasses : list (list Z)) (p : Z) : Prop :=
  Exists (fun cls => In p cls) pitchClasses.

Definition class_of (c : DrumsConverter.t) (n : Note) : nat :=
  default O (DrumsConverter.pitchToClass c !! pitch n).

Definition representativePitch (c : DrumsConverter.t) (n : Note) : Z :=
  DrumsConverter.firstPitch c (class_of c n).

Fixpoint hits (c : DrumsConverter.t) (l : list Note) (s : Z) : Z :=
  match l with
  | [] => 0
  | n :: l' =>
      (if quantizedStartStep n =? s then 2 ^ Z.of_nat (class_of c n) else 0)
      + hits c l' s
  end.

(** A pitch that is in no class of the table. *)
Definition unmapped (pitchClasses : list (list Z)) (p : Z) : Prop :=
  Forall (fun cls => ~ In p cls) pitchClasses.

(** ** Inputs of the examples *)

(** A melody converter over the piano range, 8 steps long. *)
Definition piano_8 : MelodyConverter.t :=
  MelodyConverter.new (MelodyConverterArgs.make (Some 8%nat) None 21 108).

(** Two notes given out of order, the later one first; the first note ends
    where the second starts, and the second ends at [numSteps]. *)
Definition legato_unsorted : NoteSequence :=
  mkNoteSequence [mkNote 62 4 8 false 0 0; mkNote 60 0 4 false 0 0] 8.

(** Two overlapping notes, the second one below [minPitch]. *)
Definition overlap_and_low : NoteSequence :=
  mkNoteSequence [mkNote 60 0 5 false 0 0; mkNote 20 3 8 false 0 0] 8.

(** One note of pitch 20, below [minPitch = 21]. *)
Definition one_low : NoteSequence :=
  mkNoteSequence [mkNote 20 0 1 false 0 0] 8.

(** The two drum converters over two classes, 2 steps long, and a hit of
    pitch 99, which is in neither class. *)
Definition two_classes : DrumsConverterArgs.t :=
  DrumsConverterArgs.make (Some 2%nat) None (Some [[36]; [38]]).

Definition hit_99 : NoteSequence :=
  mkNoteSequence [mkNote 99 0 1 true 0 0] 2.

(** A melody converter over two pitches, and a tensor of its width whose
    rows are no one-hot rows. *)
Definition two_pitches : MelodyConverterArgs.t :=
  MelodyConverterArgs.make (Some 3%nat) None 60 61.

Definition any_rows : tf.Tensor2D :=
  [[0; 0; 5; 0]; [7; 7; 7; 7]; [0; 0; 0; 9]].

(** Trio arguments with two pitches for the melody, two for the bass and
    one drum class, and a tensor of two rows of its depth, 4 + 4 + 2. *)
Definition small_trio : TrioConverterArgs.t :=
  TrioConverterArgs.make (Some 2%nat) None
    (MelodyConverterArgs.make None None 60 61)
    (MelodyConverterArgs.make None None 36 37)
    (DrumsConverterArgs.make None None (Some [[36; 35]])).

Definition small_trio_rows : tf.Tensor2D :=
  [[0; 0; 1; 0;  0; 0; 0; 1;  0; 1];
   [0; 0; 0; 1;  1; 0; 0; 0;  1; 0]].

(** A drum converter over a bass-drum class of two pitches and a snare
    class, 2 steps long, and a pattern that uses the second bass-drum
    pitch. *)
Definition kick_snare : DrumsConverterArgs.t :=
  DrumsConverterArgs.make (Some 2%nat) None (Some [[36; 35]; [38]]).

Definition pattern : NoteSequence :=
  mkNoteSequence
    [mkNote 38 0 1 true 0 0; mkNote 35 0 1 true 0 0; mkNote 36 1 2 true 0 0] 2.

(** Three notes in no order, the second following the first at once, the
    third after a rest and up to the last step. *)
Definition three_notes : NoteSequence :=
  mkNoteSequence
    [mkNote 64 6 8 false 0 0; mkNote 60 0 2 false 0 0; mkNote 62 2 5 false 0 0] 8.

(** Trio arguments whose sub-arguments carry a [numSteps] of their own. *)
Definition trio_args_16 : TrioConverterArgs.t :=
  TrioConverterArgs.make (Some 16%nat) None
    (MelodyConverterArgs.make (Some 32%nat) None 21 108)
    (MelodyConverterArgs.make None None 21 108)
    (DrumsConverterArgs.make (Some 64%nat) None None).

(** ** Predicates of the further properties *)

(** No pitch is listed twice in the table of classes. *)
Definition distinct_pitches (pitchClasses : list (list Z)) : Prop :=
  NoDup (concat pitchClasses).

(** The pitch [q] is in no class of the table after class [k]. *)
Definition in_no_later_class (pitchClasses : list (list Z)) (k : nat) (q : Z) : Prop :=
  Forall (fun cls => ~ In q cls) (drop (S k) pitchClasses).

(** A drum converter with the default table of classes. *)
Definition default_drums : DrumsConverterArgs.t :=
  DrumsConverterArgs.make (Some 4%nat) None None.

(** The writes into a buffer as a list of (value, index) pairs, applied in
    order; the writes of [DrumsConverter.toTensor], first of its loop over
    the steps, then of its loop over the notes. *)
Definition apply_writes (values : list Z) (ws : list (Z * option Z)) : list Z :=
  foldl (fun b w => tf.set_index (fst w) (snd w) b) values ws.

Definition step_writes (width : nat) (steps : list nat) : list (Z * option Z) :=
  map (fun i => (1, Some (-1 + Z.of_nat width * Z.of_nat i))) steps.

Definition note_writes (c : DrumsConverter.t) (width : nat) (l : list Note)
    : list (Z * option Z) :=
  flat_map
    (fun n =>
       [(1, option_map (fun j => j + Z.of_nat width * quantizedStartStep n)
              (option_map Z.of_nat (DrumsConverter.pitchToClass c !! pitch n)));
        (0, Some (-1 + Z.of_nat width * quantizedStartStep n))])
    l.

(** The note [n] starts at step [s] with a pitch of class [k]; the note
    starts at step [s]. *)
Definition hit_at (c : DrumsConverter.t) (s k : nat) (n : Note) : bool :=
  (quantizedStartStep n =? Z.of_nat s)
  && bool_decide (DrumsConverter.pitchToClass c !! pitch n = Some k).

Definition starts_at (s : nat) (n : Note) : bool :=
  quantizedStartStep n =? Z.of_nat s.

(** A kick on step 0 and a snare on step 2 of 4. *)
Definition kick_then_snare : NoteSequence :=
  mkNoteSequence [mkNote 36 0 1 true 0 0; mkNote 38 2 3 true 0 0] 4.

(** A value of the roll that is not 0, in the row of step [s] at column
    [p]; and such a value at a column that is no class of the converter. *)
Definition roll_hit (roll : tf.Tensor2D) (s p : nat) : Prop :=
  exists row v, roll !! s = Some row /\ row !! p = Some v /\ v <> 0.

Definition hit_outside_classes (c : DrumsConverter.t) (roll : tf.Tensor2D) : Prop :=
  exists s p, roll_hit roll s p /\ (length (DrumsConverter.pitchClasses c) <= p)%nat.

(** A drum note as the drum converters create it. *)
Definition drum_note (c : DrumsConverter.t) (s p : nat) : Note :=
  Note_create (DrumsConverter.firstPitch c p) (Z.of_nat s) (Z.of_nat s + 1) true.

(** The notes are in the order of their start steps. *)
Definition starts_ascend (l : list Note) : Prop :=
  forall i j n m, (i <= j)%nat -> l !! i = Some n -> l !! j = Some m ->
                  quantizedStartStep n <= quantizedStartStep m.

(** Two bass-drum hits on step 1 of 2, with the two pitches of the class,
    after a snare hit on step 0. *)
Definition double_kick : NoteSequence :=
  mkNoteSequence
    [mkNote 35 1 2 true 0 0; mkNote 38 0 1 true 0 0; mkNote 36 1 2 true 0 0] 2.

(** The note has a pitch the map gives a class, and starts at a step of the
    [numSteps] steps. *)
Definition encodable_hit (c : DrumsConverter.t) (numSteps : nat) (n : Note) : Prop :=
  is_Some (DrumsConverter.pitchToClass c !! pitch n)
  /\ 0 <= quantizedStartStep n < Z.of_nat numSteps.

(** The labels of the steps, as sums over the notes. *)
Definition step_labels (c : DrumsConverter.t) (numSteps : nat) (l : list Note)
    : list Z :=
  map (fun i => hits c l (Z.of_nat i)) (seq 0 numSteps).

(** The pattern of [pattern] in another order; two snare hits on step 1 of 2,
    with two pitches of the snare class. *)
Definition pattern_reordered : list Note :=
  [mkNote 36 1 2 true 0 0; mkNote 38 0 1 true 0 0; mkNote 35 0 1 true 0 0].

Definition double_snare : NoteSequence :=
  mkNoteSequence [mkNote 38 1 2 true 0 0; mkNote 40 1 2 true 0 0] 2.

(** The label [tf.oneHot] and [argMax] give back for a label. *)
Definition clamp_label (depth : Z) (label : Z) : Z :=
  if (0 <=? label) && (label <? depth) then label else 0.

(** The notes are in the order of their start steps, each starting no
    earlier than the one before it. *)
Fixpoint ascending (l : list Note) : Prop :=
  match l with
  | [] => True
  | n :: l' =>
      match l' with
      | [] => True
      | m :: _ => quantizedStartStep n <= quantizedStartStep m /\ ascending l'
      end
  end.

(** The two writes per note of the loop of [MelodyConverter.toTensor],
    without its checks. *)
Definition melody_writes (c : MelodyConverter.t) (l : list Note) (mel : list Z)
    : list Z :=
  foldl
    (fun mel n =>
       tf.set1 MelodyConverter.NOTE_OFF (quantizedEndStep n)
         (tf.set1 (pitch n - MelodyConverter.minPitch c + MelodyConverter.FIRST_PITCH)
            (quantizedStartStep n) mel))
    mel l.

(** The notes that start before step [numSteps], each ending at step
    [numSteps] at the latest. *)
Definition clip_to (numSteps : nat) (l : list Note) : list Note :=
  map (fun n => set_quantizedEndStep n (Z.min (quantizedEndStep n) (Z.of_nat numSteps)))
    (List.filter (fun n => quantizedStartStep n <? Z.of_nat numSteps) l).

(** The note has a start step from 0 on and ends after it starts. *)
Definition well_timed (n : Note) : Prop :=
  0 <= quantizedStartStep n < quantizedEndStep n.

(** A melody that runs past the 8 steps of the converter: the second note
    ends at step 11, the third starts at step 12. *)
Definition long_melody : NoteSequence :=
  mkNoteSequence
    [mkNote 64 12 14 false 0 0; mkNote 60 0 3 false 0 0; mkNote 62 5 11 false 0 0] 16.

(** A sequence for the trio over two steps whose drum note starts at step
    3, after the last step. *)
Definition trio_late_drum : NoteSequence :=
  mkNoteSequence [mkNote 60 0 1 false 0 0; mkNote 36 3 4 true 0 0] 2.

(** A sequence for the trio over two steps: two melody notes, a bass note
    of program 33, two drum notes, and a note of program 50 that is no part
    of the trio. *)
Definition trio_notes : NoteSequence :=
  mkNoteSequence
    [mkNote 35 1 2 true 0 9; mkNote 61 1 2 false 7 0; mkNote 36 0 2 false 33 0;
     mkNote 60 0 1 false 0 0; mkNote 36 0 1 true 0 9; mkNote 72 0 2 false 50 0] 2.

(** What [DrumsOneHotConverter] can encode without loss: drum notes of
    known pitches within the steps, no two in one class at one step. *)
Definition encodable_drums (c : DrumsConverter.t) (numSteps : nat) (l : list Note)
    : Prop :=
  NoDup (map (fun n => (class_of c n, quantizedStartStep n)) l)
  /\ Forall (fun n => mapped (DrumsConverter.pitchClasses c) (pitch n)) l
  /\ Forall (fun n => 0 <= quantizedStartStep n < Z.of_nat numSteps) l.

(** What a melody note, a bass note and a drum note come back as from the
    trio. *)
Definition trio_melody_note (n : Note) : Note :=
  mkNote (pitch n) (quantizedStartStep n) (quantizedEndStep n) false 0 0.

Definition trio_bass_note (n : Note) : Note :=
  mkNote (pitch n) (quantizedStartStep n) (quantizedEndStep n) false 32 1.

Definition trio_drum_note (c : DrumsConverter.t) (n : Note) : Note :=
  mkNote (representativePitch c n) (quantizedStartStep n) (quantizedStartStep n + 1)
    true 0 2.

(** ** The order of the notes, stated without the sort of the embedding *)

(** The note starts at step [s]. *)
Definition starts_at_step (s : Z) (n : Note) : bool := quantizedStartStep n =? s.

(** [l'] holds the notes of [l] as a stable sort by start step leaves them:
    the start steps ascend along [l'], and the notes of any one start step
    are those of [l], in the order they have in [l]. *)
Definition sorted_by_start (l l' : list Note) : Prop :=
  ascending l'
  /\ forall s, List.filter (starts_at_step s) l' = List.filter (starts_at_step s) l.

(** No two notes of the list overlap: of any two of them, one ends no later
    than the other starts. *)
Definition monophonic (l : list Note) : Prop :=
  forall i j n m, i <> j -> l !! i = Some n -> l !! j = Some m ->
    quantizedEndStep n <= quantizedStartStep m
    \/ quantizedEndStep m <= quantizedStartStep n.

(** Some note of the list starts strictly before the end step of the note
    just before it in the list. *)
Definition starts_before_previous_end (l : list Note) : Prop :=
  exists i n m,
    l !! i = Some n /\ l !! S i = Some m /\ quantizedStartStep m < quantizedEndStep n.

(** What [MelodyConverter] can encode without loss: notes of which no two
    overlap, in the pitch range and within the steps. *)
Definition encodable_melody (c : MelodyConverter.t) (numSteps : nat) (l : list Note)
    : Prop :=
  monophonic l
  /\ Forall (pitch_in_range c) l
  /\ Forall (fun n => 0 <= quantizedStartStep n < quantizedEndStep n
                      /\ quantizedEndStep n <= Z.of_nat numSteps) l.

(** The first note of the list starts before the step [lastEnd]. *)
Definition first_starts_before (l : list Note) (lastEnd : Z) : Prop :=
  exists n, l !! O = Some n /\ quantizedStartStep n < lastEnd.

(** The end step of the last note of the list, [lastEnd] for no note. *)
Definition end_of_last (l : list Note) (lastEnd : Z) : Z :=
  List.last (map quantizedEndStep l) lastEnd.

(** Two overlapping notes given out of order; and a single note that starts
    at step -2. *)
Definition overlap_unsorted : NoteSequence :=
  mkNoteSequence [mkNote 62 3 8 false 0 0; mkNote 60 0 5 false 0 0] 8.

Definition early_note : NoteSequence :=
  mkNoteSequence [mkNote 60 (-2) 1 false 0 0] 8.

(** A note below [minPitch] that starts first, and a note in range that
    starts before the first one ends. *)
Definition low_then_overlap : NoteSequence :=
  mkNoteSequence [mkNote 60 1 3 false 0 0; mkNote 20 0 2 false 0 0] 8.

(** The drum notes of the steps and classes at which notes of [l] start:
    step by step and, within a step, class by class, one note for a class
    and step however many notes of [l] start there. *)
Definition hit_notes (c : DrumsConverter.t) (numSteps : nat) (l : list Note)
    : list Note :=
  flat_map
    (fun s =>
       flat_map
         (fun k => if existsb (hit_at c s k) l then [drum_note c s k] else [])
         (seq 0 (length (DrumsConverter.pitchClasses c))))
    (seq 0 numSteps).

(** The drum notes of the values of a roll that are not 0: row by row and,
    within a row, column by column, one note for each such value. *)
Definition row_notes (c : DrumsConverter.t) (s : nat) (row : list Z) : list Note :=
  flat_map (fun p => if default 0 (row !! p) =? 0 then [] else [drum_note c s p])
    (seq 0 (length row)).

Definition roll_notes (c : DrumsConverter.t) (roll : tf.Tensor2D) : list Note :=
  flat_map (fun s => row_notes c s (default [] (roll !! s))) (seq 0 (length roll)).

(** ** The sort *)

Lemma insert_by_start_perm n l : Permutation (insert_by_start n l) (n :: l).
Proof.
  induction l as [|m l IH]; simpl; [reflexivity|].
  destruct (quantizedStartStep n <=? quantizedStartStep m); [reflexivity|].
  rewrite IH. apply perm_swap.
Qed.

Lemma sort_by_start_perm l : Permutation (sort_by_start l) l.
Proof.
  induction l as [|n l IH]; simpl; [reflexivity|].
  rewrite insert_by_start_perm. by constructor.
Qed.

Lemma sort_by_start_Forall (P : Note -> Prop) l :
  Forall P l -> Forall P (sort_by_start l).
Proof.
  intros H. eapply Permutation_Forall; [|exact H].
  symmetry. apply sort_by_start_perm.
Qed.

Lemma sort_by_start_Exists (P : Note -> Prop) l :
  Exists P l -> Exists P (sort_by_start l).
Proof.
  rewrite !Exists_exists. intros (n & Hin & HP). exists n. split; [|done].
  by rewrite sort_by_start_perm.
Qed.

Lemma insert_by_start_ascending n l : ascending l -> ascending (insert_by_start n l).
Proof.
  induction l as [|m l IH]; intros H; [done|]. cbn [insert_by_start].
  destruct (Z.leb_spec (quantizedStartStep n) (quantizedStartStep m)) as [Hle|Hgt].
  - by split.
  - destruct l as [|m' l].
    + simpl. split; [lia|done].
    + destruct H as [Hm H]. specialize (IH H). cbn [insert_by_start] in *.
      destruct (quantizedStartStep n <=? quantizedStartStep m') eqn:E.
      * split; [lia|]. exact IH.
      * split; [done|]. exact IH.
Qed.

Lemma sort_by_start_ascending l : ascending (sort_by_start l).
Proof.
  induction l as [|n l IH]; [done|]. simpl. by apply insert_by_start_ascending.
Qed.

Lemma sort_by_start_sorted l : ascending l -> sort_by_start l = l.
Proof.
  induction l as [|n l IH]; intros H; [done|]. cbn [sort_by_start].
  destruct l as [|m l]; [done|]. destruct H as [Hn H]. rewrite (IH H).
  cbn [insert_by_start]. by replace (quantizedStartStep n <=? quantizedStartStep m)
    with true by lia.
Qed.

Lemma ascending_head n l :
  ascending (n :: l) -> Forall (fun m => quantizedStartStep n <= quantizedStartStep m) l.
Proof.
  revert n. induction l as [|m l IH]; intros n H; [constructor|].
  destruct H as [Hn H]. constructor; [done|].
  eapply Forall_impl; [exact (IH m H)|]. simpl. intros x ?. lia.
Qed.

Lemma ascending_tail n l : ascending (n :: l) -> ascending l.
Proof. destruct l as [|m l]; [done|]. by intros [_ H]. Qed.

Lemma filter_insert_by_start s n l :
  List.filter (starts_at_step s) (insert_by_start n l)
  = List.filter (starts_at_step s) (n :: l).
Proof.
  induction l as [|m l IH]; [done|]. cbn [insert_by_start].
  destruct (Z.leb_spec (quantizedStartStep n) (quantizedStartStep m)) as [Hle|Hgt];
    [done|].
  cbn [List.filter] in *. rewrite IH. unfold starts_at_step.
  destruct (Z.eqb_spec (quantizedStartStep n) s) as [Hn|Hn];
    destruct (Z.eqb_spec (quantizedStartStep m) s) as [Hm|Hm]; try done. lia.
Qed.

Lemma filter_sort_by_start s l :
  List.filter (starts_at_step s) (sort_by_start l) = List.filter (starts_at_step s) l.
Proof.
  induction l as [|n l IH]; [done|]. cbn [sort_by_start].
  rewrite filter_insert_by_start. cbn [List.filter]. by rewrite IH.
Qed.

Lemma sort_by_start_sorted_by l : sorted_by_start l (sort_by_start l).
Proof. split; [apply sort_by_start_ascending|]. intros s. apply filter_sort_by_start. Qed.

(** Two lists in ascending order of start steps that hold the same notes at
    every start step, in the same order, are the same list. *)
Lemma ascending_filter_eq l1 : forall l2,
  ascending l1 -> ascending l2 ->
  (forall s, List.filter (starts_at_step s) l1 = List.filter (starts_at_step s) l2) ->
  l1 = l2.
Proof.
  assert (Hnil : forall x l, ~ (forall s, List.filter (starts_at_step s) (x :: l) = [])).
  { intros x l H. specialize (H (quantizedStartStep x)). cbn [List.filter] in H.
    unfold starts_at_step in H. by rewrite Z.eqb_refl in H. }
  assert (Hle : forall x l y l',
    ascending (y :: l') ->
    (forall s, List.filter (starts_at_step s) (x :: l)
               = List.filter (starts_at_step s) (y :: l')) ->
    quantizedStartStep y <= quantizedStartStep x).
  { intros x l y l' Hasc H. specialize (H (quantizedStartStep x)).
    assert (Hin : In x (List.filter (starts_at_step (quantizedStartStep x)) (y :: l'))).
    { rewrite <- H. cbn [List.filter]. unfold starts_at_step at 1.
      rewrite Z.eqb_refl. by left. }
    apply filter_In in Hin as [[->|Hin] _]; [lia|].
    apply ascending_head in Hasc. rewrite List.Forall_forall in Hasc.
    by apply Hasc. }
  induction l1 as [|x l1 IH]; intros [|y l2] H1 H2 H.
  - done.
  - exfalso. apply (Hnil y l2). intros s. by rewrite <- H.
  - exfalso. by apply (Hnil x l1).
  - assert (Hxy : quantizedStartStep x = quantizedStartStep y).
    { apply Z.le_antisymm; [eapply (Hle y l2 x l1); [done|]|by eapply (Hle x l1 y l2)].
      intros s. by rewrite H. }
    assert (Hhead : x = y).
    { specialize (H (quantizedStartStep x)). cbn [List.filter] in H.
      replace (starts_at_step (quantizedStartStep x) x) with true in H
        by (unfold starts_at_step; lia).
      replace (starts_at_step (quantizedStartStep x) y) with true in H
        by (unfold starts_at_step; lia).
      by injection H. }
    subst y. f_equal. apply IH; [by eapply ascending_tail..|].
    intros s. specialize (H s). cbn [List.filter] in H.
    destruct (starts_at_step s x); [by injection H|done].
Qed.

Lemma sorted_by_start_unique l l' : sorted_by_start l l' -> l' = sort_by_start l.
Proof.
  intros [Hasc Hfilter]. apply ascending_filter_eq; [done|apply sort_by_start_ascending|].
  intros s. by rewrite Hfilter, filter_sort_by_start.
Qed.

Lemma overlap_from_iff l : forall lastEnd,
  overlap_from lastEnd l = true
  <-> first_starts_before l lastEnd \/ starts_before_previous_end l.
Proof.
  induction l as [|n l IH]; intros lastEnd.
  - split; [done|]. intros [(n & H & _)|(i & n & m & H & _)]; done.
  - cbn [overlap_from]. rewrite orb_true_iff, IH, Z.ltb_lt. split.
    + intros [H|[(m & Hm & Hlt)|(i & a & b & Ha & Hb & Hlt)]].
      * left. by exists n.
      * right. by exists O, n, m.
      * right. by exists (S i), a, b.
    + intros [(m & [= <-] & Hlt)|([|i] & a & b & Ha & Hb & Hlt)].
      * by left.
      * right. left. injection Ha as <-. by exists b.
      * right. right. by exists i, a, b.
Qed.

Lemma ascending_lookup l : forall i n m,
  ascending l -> l !! i = Some n -> l !! S i = Some m ->
  quantizedStartStep n <= quantizedStartStep m.
Proof.
  induction l as [|x l IH]; intros i n m Hasc Hn Hm; [done|].
  destruct l as [|y l]; [done|]. destruct Hasc as [Hxy Hasc].
  destruct i as [|i].
  - injection Hn as <-. by injection Hm as <-.
  - by apply (IH i).
Qed.

Lemma ascending_map (f : Note -> Note) l :
  (forall n, quantizedStartStep (f n) = quantizedStartStep n) ->
  ascending l -> ascending (map f l).
Proof.
  intros Hf. induction l as [|x l IH]; [done|]. destruct l as [|y l]; [done|].
  intros [Hxy H]. split; [by rewrite !Hf|]. by apply IH.
Qed.

(** Notes of which no two overlap, each ending after it starts, follow one
    another without overlap in the order of their start steps. *)
Lemma monophonic_sorted l :
  monophonic l ->
  Forall (fun n => quantizedStartStep n < quantizedEndStep n) l ->
  ~ starts_before_previous_end (sort_by_start l).
Proof.
  intros Hmono Hlen (i & n & m & Hn & Hm & Hlt).
  pose proof (ascending_lookup _ _ _ _ (sort_by_start_ascending l) Hn Hm) as Hle.
  destruct (proj1 (Permutation_inj _ _) (sort_by_start_perm l)) as [_ (f & Hinj & Hf)].
  rewrite Hf in Hn, Hm.
  assert (Hm' : quantizedStartStep m < quantizedEndStep m).
  { rewrite Forall_lookup in Hlen. exact (Hlen _ _ Hm). }
  destruct (Hmono (f i) (f (S i)) n m) as [H|H]; [|done|done|lia|lia].
  intros Heq. apply Hinj in Heq. lia.
Qed.

Lemma monophonic_no_overlap l :
  monophonic l ->
  Forall (fun n => 0 <= quantizedStartStep n < quantizedEndStep n) l ->
  overlap_from (-1) (sort_by_start l) = false.
Proof.
  intros Hmono Hl. destruct (overlap_from (-1) (sort_by_start l)) eqn:E; [|done].
  exfalso. apply overlap_from_iff in E as [(n & Hn & Hlt)|E].
  - apply (sort_by_start_Forall _ _) in Hl. rewrite Forall_lookup in Hl.
    specialize (Hl _ _ Hn). simpl in Hl. lia.
  - revert E. apply monophonic_sorted; [done|].
    eapply Forall_impl; [exact Hl|]. simpl. intros n ?. lia.
Qed.

Lemma last_cons_default {A} (x : A) l d : List.last (x :: l) d = List.last l x.
Proof.
  revert x d. induction l as [|y l IH]; intros x d; [done|].
  change (List.last (y :: l) d = List.last (y :: l) x). by rewrite !IH.
Qed.

(** ** MelodyConverter.toTensor: which error *)

Section melody_errors.
Variable c : MelodyConverter.t.

Lemma encode_note_eq mel lastEnd n :
  MelodyConverter.encode_note c (mel, lastEnd) n
  = if quantizedStartStep n <? lastEnd then Err NotMonophonic
    else if (pitch n <? MelodyConverter.minPitch c)
            || (MelodyConverter.maxPitch c <? pitch n)
    then Err PitchOutOfRange
    else Ok (tf.set1 MelodyConverter.NOTE_OFF (quantizedEndStep n)
               (tf.set1 (pitch n - MelodyConverter.minPitch c
                         + MelodyConverter.FIRST_PITCH)
                  (quantizedStartStep n) mel),
             quantizedEndStep n).
Proof. reflexivity. Qed.

Lemma forEach_cons {A S} (f : S -> A -> result S) a l s :
  forEach f (a :: l) s = (s' ← f s a; forEach f l s').
Proof. reflexivity. Qed.

Lemma forEach_encode_in_range l : forall mel lastEnd,
  Forall (pitch_in_range c) l ->
  if overlap_from lastEnd l
  then forEach (MelodyConverter.encode_note c) l (mel, lastEnd) = Err NotMonophonic
  else exists mel',
    forEach (MelodyConverter.encode_note c) l (mel, lastEnd)
    = Ok (mel', List.last (map quantizedEndStep l) lastEnd).
Proof.
  induction l as [|n l IH]; intros mel lastEnd Hr.
  - by exists mel.
  - inversion Hr as [|? ? Hn Hl]; subst. unfold pitch_in_range in Hn.
    rewrite forEach_cons, encode_note_eq. cbn [overlap_from].
    destruct (quantizedStartStep n <? lastEnd) eqn:E; [done|].
    replace (pitch n <? MelodyConverter.minPitch c) with false by lia.
    replace (MelodyConverter.maxPitch c <? pitch n) with false by lia.
    cbn [orb mbind result_bind].
    match goal with |- context [forEach _ l (?m, _)] =>
      specialize (IH m (quantizedEndStep n) Hl) end.
    destruct (overlap_from (quantizedEndStep n) l); [done|].
    destruct IH as [mel' IH]. exists mel'. rewrite IH. f_equal. f_equal.
    cbn [map]. by rewrite last_cons_default.
Qed.

Lemma forEach_encode_out_of_range l : forall mel lastEnd,
  Exists (fun n => ~ pitch_in_range c n) l ->
  (forEach (MelodyConverter.encode_note c) l (mel, lastEnd) = Err PitchOutOfRange
   \/ forEach (MelodyConverter.encode_note c) l (mel, lastEnd) = Err NotMonophonic)
  /\ (overlap_from lastEnd l = false ->
      forEach (MelodyConverter.encode_note c) l (mel, lastEnd) = Err PitchOutOfRange).
Proof.
  induction l as [|n l IH]; intros mel lastEnd Hex; [by inversion Hex|].
  rewrite forEach_cons, encode_note_eq. cbn [overlap_from].
  destruct (quantizedStartStep n <? lastEnd) eqn:E; [split; [by right|done]|].
  destruct ((pitch n <? MelodyConverter.minPitch c)
            || (MelodyConverter.maxPitch c <? pitch n)) eqn:Ep;
    [split; [by left|done]|].
  cbn [orb mbind result_bind]. apply IH.
  inversion Hex as [? ? Hn|? ? Hl]; subst; [|done].
  exfalso. apply Hn. unfold pitch_in_range. lia.
Qed.

End melody_errors.

Lemma overlap_from_first lastEnd l :
  Forall start_nonneg l -> lastEnd <= 0 ->
  overlap_from lastEnd l = adjacent_overlap l.
Proof.
  intros Hl He. destruct l as [|n l]; simpl; [done|].
  inversion Hl as [|? ? Hn _]; subst. unfold start_nonneg in Hn.
  by replace (quantizedStartStep n <? lastEnd) with false by lia.
Qed.

Lemma oneHot_ok indices depth :
  2 <= depth -> tf.oneHot indices depth = Ok (tf.oneHot_rows indices depth).
Proof. intros H. unfold tf.oneHot. by replace (depth <? 2) with false by lia. Qed.

Lemma oneHot_err indices depth :
  depth < 2 -> tf.oneHot indices depth = Err OneHotDepthError.
Proof. intros H. unfold tf.oneHot. by replace (depth <? 2) with true by lia. Qed.

Lemma oneHot_inv indices depth t :
  tf.oneHot indices depth = Ok t -> 2 <= depth /\ t = tf.oneHot_rows indices depth.
Proof.
  unfold tf.oneHot. destruct (Z.ltb_spec depth 2); [done|]. by intros [= <-].
Qed.

Lemma new_depth_ge args n :
  pitch_in_range (MelodyConverter.new args) n ->
  3 <= MelodyConverter.depth (MelodyConverter.new args).
Proof. unfold pitch_in_range, MelodyConverter.FIRST_PITCH. simpl.
  unfold MelodyConverter.FIRST_PITCH. lia. Qed.

Lemma melody_toTensor_snd c ns :
  snd (MelodyConverter.toTensor c ns)
  = ('(mel, _) ← forEach (MelodyConverter.encode_note c) (sort_by_start (notes ns))
                   (tf.buffer (numSteps_or (MelodyConverter.numSteps c) ns), -1);
     tf.oneHot mel (MelodyConverter.depth c)).
Proof. reflexivity. Qed.

Lemma forEach_app {A S} (f : S -> A -> result S) l1 l2 s :
  forEach f (l1 ++ l2) s = (s' ← forEach f l1 s; forEach f l2 s').
Proof.
  revert s. induction l1 as [|a l1 IH]; intros s; [done|].
  rewrite <- app_comm_cons, !forEach_cons. destruct (f s a) as [s'|e]; [|done].
  cbn [mbind result_bind]. apply IH.
Qed.

(** With pitches in range, the loop of [toTensor] throws the not-monophonic
    error when a note starts before the end of the one before it (or the
    first one before step -1), and reaches [tf.oneHot] otherwise. *)
Lemma melody_toTensor_in_range c ns :
  Forall (pitch_in_range c) (notes ns) ->
  if overlap_from (-1) (sort_by_start (notes ns))
  then snd (MelodyConverter.toTensor c ns) = Err NotMonophonic
  else exists mel,
         snd (MelodyConverter.toTensor c ns) = tf.oneHot mel (MelodyConverter.depth c).
Proof.
  intros Hr. rewrite melody_toTensor_snd.
  pose proof (forEach_encode_in_range c (sort_by_start (notes ns))
    (tf.buffer (numSteps_or (MelodyConverter.numSteps c) ns)) (-1)
    (sort_by_start_Forall _ _ Hr)) as H.
  destruct (overlap_from (-1) (sort_by_start (notes ns))).
  - by rewrite H.
  - destruct H as [mel' H]. rewrite H. by exists mel'.
Qed.

Lemma melody_toTensor_cases c ns :
  Forall (pitch_in_range c) (notes ns) ->
  Forall start_nonneg (notes ns) ->
  2 <= MelodyConverter.depth c ->
  if adjacent_overlap (sort_by_start (notes ns))
  then snd (MelodyConverter.toTensor c ns) = Err NotMonophonic
  else exists t, snd (MelodyConverter.toTensor c ns) = Ok t.
Proof.
  intros Hr Hs Hd. pose proof (melody_toTensor_in_range c ns Hr) as H.
  rewrite (overlap_from_first (-1)) in H by (by apply sort_by_start_Forall || lia).
  destruct (adjacent_overlap (sort_by_start (notes ns))); [done|].
  destruct H as [mel H]. rewrite H, oneHot_ok by done. by eexists.
Qed.

(** C4, as stated, fails: a single note in range that starts at step -2 has
    no note before it, and [toTensor] throws the not-monophonic error, the
    end step of "the note before" being -1 at the first note. *)
Lemma C4_counterexample :
  Forall (pitch_in_range piano_8) (notes early_note)
  /\ sorted_by_start (notes early_note) (notes early_note)
  /\ ~ starts_before_previous_end (notes early_note)
  /\ snd (MelodyConverter.toTensor piano_8 early_note) = Err NotMonophonic.
Proof.
  split; [|split; [|split]].
  - apply List.Forall_cons; [|apply List.Forall_nil]. unfold pitch_in_range. simpl. lia.
  - by split.
  - intros ([|i] & n & m & _ & Hm & _); discriminate Hm.
  - reflexivity.
Qed.

(** C4, amended. For a sequence whose pitches are all within
    [minPitch, maxPitch], and [l'] its notes in the order of the stable sort
    by start step: [MelodyConverter.toTensor] throws the not-monophonic error
    if and only if some note of [l'] starts strictly before the end step of
    the note just before it, or the first note of [l'] starts before step -1.
    When no start step is negative the second case cannot occur, and the
    condition is that of the claim. With no such note, a converter of depth
    2 or more returns a tensor: a note that starts exactly where the
    preceding one ends, or that spans step 0 to [numSteps], is accepted. *)
Theorem C4_not_monophonic_iff (c : MelodyConverter.t) (ns : NoteSequence)
    (l' : list Note) :
  Forall (pitch_in_range c) (notes ns) ->
  sorted_by_start (notes ns) l' ->
  (snd (MelodyConverter.toTensor c ns) = Err NotMonophonic
   <-> starts_before_previous_end l' \/ first_starts_before l' (-1))
  /\ (Forall start_nonneg (notes ns) ->
      (snd (MelodyConverter.toTensor c ns) = Err NotMonophonic
       <-> starts_before_previous_end l'))
  /\ (~ starts_before_previous_end l' -> ~ first_starts_before l' (-1) ->
      2 <= MelodyConverter.depth c ->
      exists t, snd (MelodyConverter.toTensor c ns) = Ok t).
Proof.
  intros Hr Hsorted. apply sorted_by_start_unique in Hsorted as ->.
  pose proof (melody_toTensor_in_range c ns Hr) as H.
  pose proof (overlap_from_iff (sort_by_start (notes ns)) (-1)) as Hiff.
  assert (Hmain : snd (MelodyConverter.toTensor c ns) = Err NotMonophonic
                  <-> starts_before_previous_end (sort_by_start (notes ns))
                      \/ first_starts_before (sort_by_start (notes ns)) (-1)).
  { destruct (overlap_from (-1) (sort_by_start (notes ns))).
    - split; [|done]. intros _. destruct (proj1 Hiff eq_refl); [by right|by left].
    - destruct H as [mel H]. rewrite H. split.
      + unfold tf.oneHot. by destruct (_ <? 2).
      + intros Hov. assert (false = true); [|done]. apply Hiff. tauto. }
  split; [exact Hmain|]. split.
  - intros Hs. rewrite Hmain. split; [|by left].
    intros [Hprev|(n & Hn & Hlt)]; [done|]. exfalso.
    apply (sort_by_start_Forall _ _) in Hs. rewrite Forall_lookup in Hs.
    specialize (Hs _ _ Hn). unfold start_nonneg in Hs. lia.
  - intros Hprev Hfirst Hd.
    destruct (overlap_from (-1) (sort_by_start (notes ns))).
    + exfalso. destruct (proj1 Hiff eq_refl); done.
    + destruct H as [mel H]. rewrite H, oneHot_ok by done. by eexists.
Qed.

(** Closes [sorted_by_start l l'] for explicit lists of notes. *)
Ltac sorted_notes :=
  split; [simpl; lia|];
  intros s;
  repeat match goal with
         | |- context [List.filter _ ?l] =>
             let l' := eval cbv in l in progress change l with l'
         end;
  cbn [List.filter]; unfold starts_at_step; cbn [quantizedStartStep];
  repeat match goal with
         | |- context [?a =? s] => destruct (Z.eqb_spec a s)
         end;
  first [reflexivity | lia].

(** Closes [Forall P l] for an explicit list [l] and an arithmetic [P]. *)
Ltac forall_notes :=
  simpl;
  repeat (apply List.Forall_cons;
          [unfold pitch_in_range, start_nonneg; simpl; lia|]);
  apply List.Forall_nil.

Lemma C4_not_monophonic_iff_witness :
  snd (MelodyConverter.toTensor piano_8 overlap_unsorted) = Err NotMonophonic
  /\ exists t, snd (MelodyConverter.toTensor piano_8 legato_unsorted) = Ok t.
Proof.
  split.
  - refine (proj2 (proj1 (C4_not_monophonic_iff piano_8 overlap_unsorted
                            [mkNote 60 0 5 false 0 0; mkNote 62 3 8 false 0 0] _ _)) _).
    + forall_notes.
    + sorted_notes.
    + left. exists O, (mkNote 60 0 5 false 0 0), (mkNote 62 3 8 false 0 0).
      split; [reflexivity|]. split; [reflexivity|]. simpl. lia.
  - refine (proj2 (proj2 (C4_not_monophonic_iff piano_8 legato_unsorted
                            [mkNote 60 0 4 false 0 0; mkNote 62 4 8 false 0 0] _ _))
              _ _ _).
    + forall_notes.
    + sorted_notes.
    + intros ([|[|i]] & n & m & Hn & Hm & Hlt); simpl in Hn, Hm; try discriminate.
      injection Hn as <-. injection Hm as <-. simpl in Hlt. lia.
    + intros (n & Hn & Hlt). injection Hn as <-. simpl in Hlt. lia.
    + by vm_compute.
Defined.

(** The two boundary cases of C4, for any converter the constructor builds:
    a note that starts where the preceding one ends is accepted, in either
    order of the array. *)
Lemma melody_accepts_adjacent_notes args ns n1 n2 :
  let c := MelodyConverter.new args in
  pitch_in_range c n1 -> pitch_in_range c n2 ->
  0 <= quantizedStartStep n1 < quantizedEndStep n1 ->
  quantizedStartStep n2 = quantizedEndStep n1 ->
  notes ns = [n1; n2] \/ notes ns = [n2; n1] ->
  exists t, snd (MelodyConverter.toTensor c ns) = Ok t.
Proof.
  intros c H1 H2 Hs He Hns.
  assert (Hsort : sort_by_start (notes ns) = [n1; n2]).
  { destruct Hns as [-> | ->]; simpl.
    - by replace (quantizedStartStep n1 <=? quantizedStartStep n2) with true by lia.
    - by replace (quantizedStartStep n2 <=? quantizedStartStep n1) with false by lia. }
  pose proof (melody_toTensor_cases c ns) as H. rewrite Hsort in H.
  cbn [adjacent_overlap overlap_from] in H.
  replace (quantizedStartStep n2 <? quantizedEndStep n1) with false in H by lia.
  pose proof (new_depth_ge args n1 H1) as Hd. fold c in Hd.
  apply H; [| |lia]; destruct Hns as [-> | ->];
    repeat (apply List.Forall_cons; [done || (unfold start_nonneg; lia)|]);
    apply List.Forall_nil.
Qed.

(** A single note from step 0 to [numSteps] is accepted. *)
Lemma melody_accepts_full_length_note args ns n :
  let c := MelodyConverter.new args in
  pitch_in_range c n ->
  quantizedStartStep n = 0 ->
  quantizedEndStep n = Z.of_nat (numSteps_or (MelodyConverter.numSteps c) ns) ->
  notes ns = [n] ->
  exists t, snd (MelodyConverter.toTensor c ns) = Ok t.
Proof.
  intros c Hp Hs _ Hns.
  pose proof (melody_toTensor_cases c ns) as H. rewrite Hns in H.
  cbn [sort_by_start insert_by_start adjacent_overlap overlap_from] in H.
  pose proof (new_depth_ge args n Hp) as Hd. fold c in Hd.
  apply H; [| |lia];
    (apply List.Forall_cons; [done || (unfold start_nonneg; lia)|]); apply List.Forall_nil.
Qed.

(** C8, as stated, fails: of two overlapping notes the second of which is
    below [minPitch], the overlap is what is reported. *)
Lemma C8_counterexample :
  Exists (pitch_out_of_range piano_8) (notes overlap_and_low)
  /\ snd (MelodyConverter.toTensor piano_8 overlap_and_low) = Err NotMonophonic
  /\ snd (MelodyConverter.toTensor piano_8 overlap_and_low) <> Err PitchOutOfRange.
Proof.
  split; [|split; [reflexivity|discriminate]].
  apply Exists_cons_tl, Exists_cons_hd. left. simpl. lia.
Qed.

(** C8, amended. A sequence with a note whose pitch is below [minPitch] or
    above [maxPitch] is never encoded: [MelodyConverter.toTensor] throws the
    pitch error or the not-monophonic error, and which one is decided by the
    first check that fails, the notes being taken in the order [l'] of the
    stable sort by start step and, on each note, the overlap check before
    the pitch check. With [n] a note of [l'] before which every note starts
    no earlier than the one before it ended (the first at step -1 or later)
    and has its pitch in range: when [n] starts before the end step of the
    note before it, the error is the not-monophonic one, whatever the pitch
    of [n]; otherwise, when the pitch of [n] is out of range, it is the pitch
    error, whatever the notes after [n]. *)
Theorem C8_out_of_range_fails (c : MelodyConverter.t) (ns : NoteSequence) :
  Exists (pitch_out_of_range c) (notes ns) ->
  (snd (MelodyConverter.toTensor c ns) = Err PitchOutOfRange
   \/ snd (MelodyConverter.toTensor c ns) = Err NotMonophonic)
  /\ (forall l1 n l2,
        sorted_by_start (notes ns) (l1 ++ n :: l2) ->
        ~ starts_before_previous_end l1 -> ~ first_starts_before l1 (-1) ->
        Forall (pitch_in_range c) l1 ->
        (quantizedStartStep n < end_of_last l1 (-1) ->
         snd (MelodyConverter.toTensor c ns) = Err NotMonophonic)
        /\ (end_of_last l1 (-1) <= quantizedStartStep n ->
            pitch_out_of_range c n ->
            snd (MelodyConverter.toTensor c ns) = Err PitchOutOfRange)).
Proof.
  intros Hex. rewrite melody_toTensor_snd. split.
  - assert (Hex' : Exists (fun n => ~ pitch_in_range c n) (sort_by_start (notes ns))).
    { apply sort_by_start_Exists. eapply Exists_impl; [exact Hex|].
      unfold pitch_out_of_range, pitch_in_range. intros n ?. lia. }
    destruct (forEach_encode_out_of_range c _
      (tf.buffer (numSteps_or (MelodyConverter.numSteps c) ns)) (-1) Hex') as [H1 _].
    destruct H1 as [-> | ->]; [by left|by right].
  - intros l1 n l2 Hsorted Hprev Hfirst Hrange.
    apply sorted_by_start_unique in Hsorted as <-.
    rewrite forEach_app.
    pose proof (forEach_encode_in_range c l1
      (tf.buffer (numSteps_or (MelodyConverter.numSteps c) ns)) (-1) Hrange) as H.
    destruct (overlap_from (-1) l1) eqn:Hov.
    { exfalso. apply overlap_from_iff in Hov. tauto. }
    destruct H as [mel' ->]. cbn [mbind result_bind].
    rewrite forEach_cons, encode_note_eq. fold (end_of_last l1 (-1)).
    unfold pitch_out_of_range. split.
    + intros Hlt. by replace (quantizedStartStep n <? end_of_last l1 (-1)) with true by lia.
    + intros Hge Hp.
      replace (quantizedStartStep n <? end_of_last l1 (-1)) with false by lia.
      by replace ((pitch n <? MelodyConverter.minPitch c)
                  || (MelodyConverter.maxPitch c <? pitch n)) with true
        by (symmetry; apply orb_true_iff; lia).
Qed.

Lemma C8_out_of_range_fails_witness :
  snd (MelodyConverter.toTensor piano_8 one_low) = Err PitchOutOfRange
  /\ snd (MelodyConverter.toTensor piano_8 low_then_overlap) = Err PitchOutOfRange.
Proof.
  split.
  - assert (H : Exists (pitch_out_of_range piano_8) (notes one_low)).
    { apply Exists_cons_hd. left. simpl. lia. }
    apply (proj2 (C8_out_of_range_fails piano_8 one_low H) [] (mkNote 20 0 1 false 0 0) []).
    + by split.
    + intros (i & n & m & Hn & _); discriminate Hn.
    + intros (n & Hn & _); discriminate Hn.
    + apply List.Forall_nil.
    + unfold end_of_last. simpl. lia.
    + left. simpl. lia.
  - assert (H : Exists (pitch_out_of_range piano_8) (notes low_then_overlap)).
    { apply Exists_cons_tl, Exists_cons_hd. left. simpl. lia. }
    apply (proj2 (C8_out_of_range_fails piano_8 low_then_overlap H)
             [] (mkNote 20 0 2 false 0 0) [mkNote 60 1 3 false 0 0]).
    + sorted_notes.
    + intros (i & n & m & Hn & _); discriminate Hn.
    + intros (n & Hn & _); discriminate Hn.
    + apply List.Forall_nil.
    + unfold end_of_last. simpl. lia.
    + left. simpl. lia.
Defined.

(** ** What [toTensor] does to its argument *)

Lemma melody_toTensor_fst c ns :
  fst (MelodyConverter.toTensor c ns) = set_notes ns (sort_by_start (notes ns)).
Proof. reflexivity. Qed.

(** The notes of the argument are the same notes after the call, fields
    untouched; only their order in the array may differ. *)
Lemma melody_toTensor_keeps_notes c ns :
  Permutation (notes (fst (MelodyConverter.toTensor c ns))) (notes ns)
  /\ totalQuantizedSteps (fst (MelodyConverter.toTensor c ns)) = totalQuantizedSteps ns.
Proof. split; [apply sort_by_start_perm|reflexivity]. Qed.

Lemma drums_toTensor_fst c ns : fst (DrumsConverter.toTensor c ns) = ns.
Proof. reflexivity. Qed.

Lemma drumsOneHot_toTensor_fst c ns : fst (DrumsOneHotConverter.toTensor c ns) = ns.
Proof. reflexivity. Qed.

Lemma trio_toTensor_fst c ns : fst (TrioConverter.toTensor c ns) = ns.
Proof. reflexivity. Qed.

(** C2. [MelodyConverter.toTensor] sorts the [notes] array of its argument in
    place: given two notes with the later one first, the argument holds them
    in the other order after the call. *)
Theorem C2_melody_toTensor_reorders_argument :
  notes legato_unsorted = [mkNote 62 4 8 false 0 0; mkNote 60 0 4 false 0 0]
  /\ notes (fst (MelodyConverter.toTensor piano_8 legato_unsorted))
     = [mkNote 60 0 4 false 0 0; mkNote 62 4 8 false 0 0]
  /\ fst (MelodyConverter.toTensor piano_8 legato_unsorted) <> legato_unsorted.
Proof. split; [reflexivity|split; [reflexivity|discriminate]]. Qed.

(** ** The constructor of TrioConverter *)

(** C10. The constructor of [TrioConverter] writes [args.numSteps] into the
    [numSteps] of the three sub-arguments before it builds the sub-converters
    from them: whatever [numSteps] they carried is lost, to the converters
    and to the caller, whose argument object is changed unless the three
    already agreed with [args.numSteps]. *)
Theorem C10_constructor_overwrites_numSteps (args : TrioConverterArgs.t) :
  let args' := fst (TrioConverter.new args) in
  let conv := snd (TrioConverter.new args) in
  let numSteps := TrioConverterArgs.numSteps args in
  (MelodyConverterArgs.numSteps (TrioConverterArgs.melArgs args') = numSteps
   /\ MelodyConverterArgs.numSteps (TrioConverterArgs.bassArgs args') = numSteps
   /\ DrumsConverterArgs.numSteps (TrioConverterArgs.drumsArgs args') = numSteps)
  /\ (conv = snd (TrioConverter.new args')
      /\ TrioConverter.melConverter conv
         = MelodyConverter.new (TrioConverterArgs.melArgs args')
      /\ TrioConverter.bassConverter conv
         = MelodyConverter.new (TrioConverterArgs.bassArgs args')
      /\ TrioConverter.drumsConverter conv
         = DrumsOneHotConverter.new (TrioConverterArgs.drumsArgs args')
      /\ MelodyConverter.numSteps (TrioConverter.melConverter conv) = numSteps
      /\ MelodyConverter.numSteps (TrioConverter.bassConverter conv) = numSteps
      /\ DrumsConverter.numSteps (TrioConverter.drumsConverter conv) = numSteps)
  /\ (args' = args
      <-> MelodyConverterArgs.numSteps (TrioConverterArgs.melArgs args) = numSteps
          /\ MelodyConverterArgs.numSteps (TrioConverterArgs.bassArgs args) = numSteps
          /\ DrumsConverterArgs.numSteps (TrioConverterArgs.drumsArgs args) = numSteps)
  /\ fst (TrioConverter.new trio_args_16) <> trio_args_16.
Proof.
  destruct args as [n g [mn mg mlo mhi] [bn bg blo bhi] [dn dg dpc]]. simpl.
  split; [done|]. split; [done|]. split; [|discriminate]. split.
  - intros H. by inversion H.
  - intros (-> & -> & ->). reflexivity.
Qed.

(** ** TrioConverter.toTensor *)

Lemma in_range_mel n : TrioConverter.in_range TrioConverter.MEL_PROG_RANGE n = melody_part n.
Proof. reflexivity. Qed.

Lemma in_range_bass n : TrioConverter.in_range TrioConverter.BASS_PROG_RANGE n = bass_part n.
Proof. reflexivity. Qed.

Lemma no_part_false n :
  no_part n -> melody_part n = false /\ bass_part n = false /\ drums_part n = false.
Proof.
  unfold no_part, melody_part, bass_part, drums_part. intros [-> H]. simpl.
  repeat split; apply andb_false_iff; lia.
Qed.

Lemma filter_drop_false {A} (p : A -> bool) l1 x l2 :
  p x = false -> List.filter p (l1 ++ x :: l2) = List.filter p (l1 ++ l2).
Proof. intros H. rewrite !List.filter_app. simpl. by rewrite H. Qed.

Lemma trio_toTensor_snd c ns :
  snd (TrioConverter.toTensor c ns)
  = (mel ← snd (MelodyConverter.toTensor (TrioConverter.melConverter c)
                  (restrict melody_part ns));
     bass ← snd (MelodyConverter.toTensor (TrioConverter.bassConverter c)
                   (restrict bass_part ns));
     drums ← snd (DrumsOneHotConverter.toTensor (TrioConverter.drumsConverter c)
                    (restrict drums_part ns));
     tf.concat3 mel bass drums).
Proof. reflexivity. Qed.

Lemma zip_rows_length (a b : tf.Tensor2D) :
  length a = length b -> length (tf.zip_rows a b) = length a.
Proof.
  revert b. induction a as [|x a IH]; intros [|y b]; simpl; try done.
  intros [= H]. by rewrite IH.
Qed.

Lemma zip_rows_lookup (a b : tf.Tensor2D) i ra rb :
  a !! i = Some ra -> b !! i = Some rb -> tf.zip_rows a b !! i = Some (ra ++ rb).
Proof.
  revert b i. induction a as [|x a IH]; intros [|y b] [|i]; simpl; try done.
  - by intros [= ->] [= ->].
  - apply IH.
Qed.

(** C7. [TrioConverter.toTensor] is the concatenation along the feature axis,
    in the order melody, bass, drums, of what the three sub-converters make
    of the argument restricted to the non-drum notes of program 0 to 31, to
    the non-drum notes of program 32 to 39, and to the drum notes. When the
    three return tensors with as many rows each, the result has that many
    rows and each of its rows is the three rows side by side; when their
    numbers of rows differ, [tf.concat] throws; when a sub-converter throws,
    the first to do so in the order melody, bass, drums decides the error.
    A note of none of the three parts (a non-drum note of program 40 or
    more, say) changes nothing, wherever it stands in the array. *)
Theorem C7_trio_toTensor_concat (c : TrioConverter.t) (ns : NoteSequence) :
  let r_mel := snd (MelodyConverter.toTensor (TrioConverter.melConverter c)
                      (restrict melody_part ns)) in
  let r_bass := snd (MelodyConverter.toTensor (TrioConverter.bassConverter c)
                       (restrict bass_part ns)) in
  let r_drums := snd (DrumsOneHotConverter.toTensor (TrioConverter.drumsConverter c)
                        (restrict drums_part ns)) in
  (forall mel bass drums,
     r_mel = Ok mel -> r_bass = Ok bass -> r_drums = Ok drums ->
     (length mel = length bass /\ length bass = length drums ->
      exists t,
        snd (TrioConverter.toTensor c ns) = Ok t
        /\ length t = length mel
        /\ forall i rm rb rd,
             mel !! i = Some rm -> bass !! i = Some rb -> drums !! i = Some rd ->
             t !! i = Some (rm ++ rb ++ rd))
     /\ (~ (length mel = length bass /\ length bass = length drums) ->
         snd (TrioConverter.toTensor c ns) = Err TensorShapeError))
  /\ (forall e, r_mel = Err e -> snd (TrioConverter.toTensor c ns) = Err e)
  /\ (forall mel e, r_mel = Ok mel -> r_bass = Err e ->
                    snd (TrioConverter.toTensor c ns) = Err e)
  /\ (forall mel bass e, r_mel = Ok mel -> r_bass = Ok bass -> r_drums = Err e ->
                         snd (TrioConverter.toTensor c ns) = Err e)
  /\ (forall l1 n l2,
        notes ns = l1 ++ n :: l2 -> no_part n ->
        TrioConverter.toTensor c ns
        = (ns, snd (TrioConverter.toTensor c
                      (mkNoteSequence (l1 ++ l2) (totalQuantizedSteps ns))))).
Proof.
  cbv zeta. rewrite trio_toTensor_snd. split; [|split; [|split; [|split]]].
  - intros mel bass drums -> -> ->. cbn [mbind result_bind]. unfold tf.concat3. split.
    + intros [E1 E2]. rewrite E1, E2, !Nat.eqb_refl. cbn [andb]. eexists.
      split; [reflexivity|]. split.
      * rewrite zip_rows_length; rewrite zip_rows_length; congruence.
      * intros i rm rb rd Hm Hb Hd. rewrite app_assoc.
        apply zip_rows_lookup; [|done]. by apply zip_rows_lookup.
    + intros Hne.
      destruct (Nat.eqb_spec (length mel) (length bass)) as [E1|E1]; [|done].
      destruct (Nat.eqb_spec (length bass) (length drums)) as [E2|E2]; [|done].
      by destruct Hne.
  - by intros e ->.
  - by intros mel e -> ->.
  - by intros mel bass e -> -> ->.
  - intros l1 n l2 Hns Hn. apply no_part_false in Hn as (Hm & Hb & Hd).
    unfold TrioConverter.toTensor, clone, set_notes. simpl. rewrite Hns.
    rewrite (filter_drop_false melody_part), (filter_drop_false bass_part),
      (filter_drop_false isDrum); done.
Qed.

Lemma C7_trio_toTensor_concat_witness :
  exists t,
    snd (TrioConverter.toTensor (snd (TrioConverter.new small_trio)) trio_notes) = Ok t
    /\ length t = 2%nat
    /\ t !! 0%nat = Some ([0; 0; 1; 0] ++ [0; 0; 1; 0] ++ [0; 1])
    /\ t !! 1%nat = Some ([0; 0; 0; 1] ++ [1; 0; 0; 0] ++ [0; 1]).
Proof.
  destruct (proj1 (C7_trio_toTensor_concat (snd (TrioConverter.new small_trio)) trio_notes)
              [[0; 0; 1; 0]; [0; 0; 0; 1]] [[0; 0; 1; 0]; [1; 0; 0; 0]] [[0; 1]; [0; 1]]
              eq_refl eq_refl eq_refl) as [H _].
  destruct H as (t & Ht & Hlen & Hrows); [by split|].
  exists t. split; [exact Ht|]. split; [exact Hlen|]. split.
  - by apply (Hrows 0%nat).
  - by apply (Hrows 1%nat).
Defined.

(** ** Shapes of the drum tensors *)

Lemma set_index_length v i values : length (tf.set_index v i values) = length values.
Proof.
  unfold tf.set_index. destruct i as [i|]; [|done].
  destruct (0 <=? i); [apply length_insert|done].
Qed.

Lemma foldl_length_inv {A B} (f : list A -> B -> list A) (l : list B) (a : list A) :
  (forall a b, length (f a b) = length a) -> length (foldl f a l) = length a.
Proof.
  intros Hf. revert a. induction l as [|b l IH]; intros a; simpl; [done|].
  by rewrite IH, Hf.
Qed.

Lemma toTensor2D_shape rows width values :
  length values = (rows * width)%nat ->
  length (tf.toTensor2D rows width values) = rows
  /\ Forall (fun row => length row = width) (tf.toTensor2D rows width values).
Proof.
  revert values. induction rows as [|r IH]; intros values Hlen; simpl.
  - split; [done|constructor].
  - destruct (IH (drop width values)) as [IH1 IH2].
    { rewrite length_drop. lia. }
    split; [by rewrite IH1|]. constructor; [|done]. rewrite length_take. lia.
Qed.

Lemma add_at_length labels k v :
  (length labels <= length (DrumsOneHotConverter.add_at labels k v))%nat.
Proof.
  unfold DrumsOneHotConverter.add_at. destruct (k <? 0); [done|].
  destruct (labels !! Z.to_nat k); [by rewrite length_insert|].
  rewrite length_app. lia.
Qed.

Lemma oneHot_shape indices depth :
  length (tf.oneHot_rows indices depth) = length indices
  /\ Forall (fun row => length row = Z.to_nat depth) (tf.oneHot_rows indices depth).
Proof.
  unfold tf.oneHot_rows. split; [apply length_map|].
  apply List.Forall_forall. intros row Hin. apply in_map_iff in Hin as (i & <- & _).
  unfold tf.oneHot_row. by rewrite length_map, length_seq.
Qed.

Lemma foldl_encode_length_le c l : forall labels,
  (length labels <= length (foldl (DrumsOneHotConverter.encode_note c) labels l))%nat.
Proof.
  induction l as [|n l IH]; intros labels; simpl; [done|].
  etrans; [|apply IH]. apply add_at_length.
Qed.

Lemma drumsOneHot_toTensor_snd c ns :
  snd (DrumsOneHotConverter.toTensor c ns)
  = tf.oneHot
      (DrumsOneHotConverter.tensor1d_int32
         (foldl (DrumsOneHotConverter.encode_note c)
            (replicate (numSteps_or (DrumsConverter.numSteps c) ns) (Some 0))
            (notes ns)))
      (DrumsConverter.depth c).
Proof. reflexivity. Qed.

Lemma pow2_ge_2 (n : nat) : 2 <= 2 ^ Z.of_nat n <-> n <> O.
Proof.
  destruct n as [|n]; [by split|]. split; [done|]. intros _.
  rewrite Nat2Z.inj_succ, Z.pow_succ_r by lia.
  pose proof (Z.pow_pos_nonneg 2 (Z.of_nat n)). lia.
Qed.

(** C3, as stated, fails: a hit of pitch 99, in neither of the classes
    [[36]] and [[38]], is encoded by both drum converters. *)
Lemma C3_counterexample :
  Exists (fun n => unmapped [[36]; [38]] (pitch n)) (notes hit_99)
  /\ (exists t,
        snd (DrumsConverter.toTensor (DrumsConverter.new two_classes) hit_99) = Ok t)
  /\ (exists t,
        snd (DrumsOneHotConverter.toTensor (DrumsOneHotConverter.new two_classes) hit_99)
        = Ok t).
Proof.
  split; [|split; eexists; reflexivity].
  apply Exists_cons_hd. unfold unmapped. simpl.
  repeat (apply List.Forall_cons; [intros [H|[]]; discriminate H|]). apply List.Forall_nil.
Qed.

(** C3, amended. The drum converters have no error for a pitch that is in no
    pitch class, and what they do does not depend on whether the pitches are
    in a class. Whatever the notes of the sequence,
    [DrumsConverter.toTensor] returns a tensor of [numSteps] rows, one column
    per class and one more; [DrumsOneHotConverter.toTensor] returns a tensor
    of at least [numSteps] rows and [depth] columns when [depth] is 2 or
    more, and throws the depth error of [tf.oneHot] when [depth] is below 2.
    The depth the constructor sets is 2 or more exactly when the table of
    classes is not empty. *)
Theorem C3_drum_toTensor_no_pitch_error (c : DrumsConverter.t) (ns : NoteSequence) :
  let numSteps := numSteps_or (DrumsConverter.numSteps c) ns in
  (exists t,
     snd (DrumsConverter.toTensor c ns) = Ok t
     /\ length t = numSteps
     /\ Forall (fun row => length row = S (length (DrumsConverter.pitchClasses c))) t)
  /\ (2 <= DrumsConverter.depth c ->
      exists t,
        snd (DrumsOneHotConverter.toTensor c ns) = Ok t
        /\ (numSteps <= length t)%nat
        /\ Forall (fun row => length row = Z.to_nat (DrumsConverter.depth c)) t)
  /\ (DrumsConverter.depth c < 2 ->
      snd (DrumsOneHotConverter.toTensor c ns) = Err OneHotDepthError)
  /\ (forall args,
        2 <= DrumsConverter.depth (DrumsOneHotConverter.new args)
        <-> DrumsConverter.pitchClasses (DrumsOneHotConverter.new args) <> []).
Proof.
  cbv zeta. split; [|split; [|split]].
  - eexists. split; [reflexivity|].
    apply toTensor2D_shape.
    rewrite foldl_length_inv; [rewrite foldl_length_inv|].
    + unfold tf.buffer. by rewrite length_replicate.
    + intros a b. apply set_index_length.
    + intros a b. unfold DrumsConverter.encode_note, tf.set2.
      by rewrite !set_index_length.
  - intros Hd. rewrite drumsOneHot_toTensor_snd, oneHot_ok by done.
    destruct (oneHot_shape
      (DrumsOneHotConverter.tensor1d_int32
         (foldl (DrumsOneHotConverter.encode_note c)
            (replicate (numSteps_or (DrumsConverter.numSteps c) ns) (Some 0))
            (notes ns)))
      (DrumsConverter.depth c)) as [Hlen Hrows].
    eexists. split; [reflexivity|].
    split; [|exact Hrows]. rewrite Hlen.
    unfold DrumsOneHotConverter.tensor1d_int32. rewrite length_map.
    etrans; [|apply foldl_encode_length_le]. by rewrite length_replicate.
  - intros Hd. by rewrite drumsOneHot_toTensor_snd, oneHot_err.
  - intros args. cbn [DrumsOneHotConverter.new DrumsConverter.depth
                      DrumsConverter.pitchClasses].
    rewrite pow2_ge_2. by destruct (DrumsConverter.pitchClasses _).
Qed.

(** ** MelodyConverter.toNoteSequence: what it returns is a melody *)

Lemma chain_snoc lo l mid n hi :
  chain lo l mid ->
  mid <= quantizedStartStep n < quantizedEndStep n -> quantizedEndStep n <= hi ->
  chain lo (l ++ [n]) hi.
Proof.
  revert lo. induction l as [|m l IH]; simpl; intros lo H Hn Hhi; [lia|].
  destruct H as [H1 H2]. split; [done|]. by apply IH.
Qed.

Lemma chain_le lo l hi : chain lo l hi -> lo <= hi.
Proof.
  revert lo. induction l as [|n l IH]; simpl; intros lo H; [done|].
  destruct H as [H1 H2]. apply IH in H2. lia.
Qed.

Lemma chain_bounds lo l hi :
  chain lo l hi ->
  Forall (fun n => lo <= quantizedStartStep n < quantizedEndStep n
                   /\ quantizedEndStep n <= hi) l.
Proof.
  revert lo. induction l as [|n l IH]; simpl; intros lo H; [constructor|].
  destruct H as [H1 H2]. constructor.
  - split; [done|]. by apply chain_le in H2.
  - eapply Forall_impl; [by apply IH|]. simpl. intros m ?. lia.
Qed.

Lemma chain_adjacent lo l hi i n m :
  chain lo l hi -> l !! i = Some n -> l !! S i = Some m ->
  quantizedEndStep n <= quantizedStartStep m.
Proof.
  revert lo i. induction l as [|x l IH]; intros lo i H Hn Hm; [done|].
  destruct H as [H1 H2]. destruct i as [|i]; simpl in *.
  - injection Hn as ->. destruct l as [|y l]; [done|]. simpl in *.
    injection Hm as ->. lia.
  - by eapply IH.
Qed.

Lemma argMax_from_lt row : forall j max maxIndex,
  (maxIndex < j)%nat -> (tf.argMax_from row j max maxIndex < j + length row)%nat.
Proof.
  induction row as [|v row IH]; intros j max maxIndex Hlt; simpl; [lia|].
  destruct (max <? v).
  - specialize (IH (S j) v j). lia.
  - specialize (IH (S j) max maxIndex). lia.
Qed.

Lemma argMax_row_lt row : row <> [] -> (tf.argMax_row row < length row)%nat.
Proof.
  destruct row as [|v row]; [done|]. intros _. simpl.
  pose proof (argMax_from_lt row 1 v 0). lia.
Qed.

(** A label read off a row of the width of the converter is 0 or below
    [depth]. *)
Lemma argMax_label depth oh :
  Forall (fun row => Z.of_nat (length row) = depth) oh ->
  Forall (fun label => 0 <= label < depth \/ label = 0) (tf.argMax oh).
Proof.
  intros H. unfold tf.argMax. apply List.Forall_forall. intros label Hin.
  apply in_map_iff in Hin as (row & <- & Hin).
  rewrite List.Forall_forall in H. specialize (H row Hin).
  destruct row as [|v row]; [by right|]. left.
  pose proof (argMax_row_lt (v :: row) ltac:(done)). lia.
Qed.

Lemma decode_label_inv c s st label :
  MelodyConverter.depth c
  = MelodyConverter.maxPitch c - MelodyConverter.minPitch c + 3 ->
  0 <= label < MelodyConverter.depth c \/ label = 0 ->
  decode_inv c s st -> decode_inv c (S s) (MelodyConverter.decode_label c st s label).
Proof.
  intros Hd Hlabel. destruct st as [curr out]. unfold decode_inv. simpl.
  intros (Hp & hi & Hch & Hcurr).
  destruct (label =? 0) eqn:E0; simpl.
  { split; [done|]. exists hi. split; [done|].
    destruct curr; [destruct Hcurr; split; [lia|done]|lia]. }
  destruct (label =? 1) eqn:E1.
  { destruct curr as [n|]; simpl.
    - destruct Hcurr as [Hn Hpn]. split.
      + apply Forall_app. split; [done|]. by constructor.
      + exists (Z.of_nat s). split; [|lia].
        eapply chain_snoc; [exact Hch| |]; simpl; lia.
    - split; [done|]. exists hi. split; [done|lia]. }
  assert (Hnew : pitch_in_range c
    (Note_create (label - MelodyConverter.FIRST_PITCH + MelodyConverter.minPitch c)
       (Z.of_nat s) 0 false)).
  { unfold pitch_in_range, MelodyConverter.FIRST_PITCH. simpl. lia. }
  destruct curr as [n|]; simpl.
  - destruct Hcurr as [Hn Hpn]. split.
    + apply Forall_app. split; [done|]. by constructor.
    + exists (Z.of_nat s). split; [|split; [lia|done]].
      eapply chain_snoc; [exact Hch| |]; simpl; lia.
  - split; [done|]. exists hi. split; [done|]. split; [lia|done].
Qed.

Lemma decode_labels_inv c labels : forall s st,
  MelodyConverter.depth c
  = MelodyConverter.maxPitch c - MelodyConverter.minPitch c + 3 ->
  Forall (fun label => 0 <= label < MelodyConverter.depth c \/ label = 0) labels ->
  decode_inv c s st ->
  fst (MelodyConverter.decode_labels c labels s st) = (s + length labels)%nat
  /\ decode_inv c (s + length labels) (snd (MelodyConverter.decode_labels c labels s st)).
Proof.
  induction labels as [|label labels IH]; intros s st Hd Hl Hinv; simpl.
  - rewrite Nat.add_0_r. by split.
  - inversion Hl as [|? ? Hlabel Hl']; subst.
    replace (s + S (length labels))%nat with (S s + length labels)%nat by lia.
    apply IH; [done|done|]. by apply decode_label_inv.
Qed.

(** C9. Whatever the values of a tensor whose rows have the width [depth] of
    the converter, the notes [MelodyConverter.toNoteSequence] returns for it
    form a melody: every note starts at a step from 0 on, ends after it
    started and no later than the number of rows, has a pitch from [minPitch]
    to [maxPitch], and ends no later than the note after it starts. *)
Theorem C9_toNoteSequence_well_formed (args : MelodyConverterArgs.t) (oh : tf.Tensor2D) :
  let c := MelodyConverter.new args in
  Forall (fun row => Z.of_nat (length row) = MelodyConverter.depth c) oh ->
  let out := notes (MelodyConverter.toNoteSequence c oh) in
  Forall (fun n => 0 <= quantizedStartStep n < quantizedEndStep n
                   /\ quantizedEndStep n <= Z.of_nat (length oh)) out
  /\ Forall (pitch_in_range c) out
  /\ (forall i n m, out !! i = Some n -> out !! S i = Some m ->
                    quantizedEndStep n <= quantizedStartStep m).
Proof.
  intros c Hrows out.
  assert (Hd : MelodyConverter.depth c
               = MelodyConverter.maxPitch c - MelodyConverter.minPitch c + 3).
  { unfold c, MelodyConverter.new, MelodyConverter.FIRST_PITCH. simpl. lia. }
  pose proof (argMax_label _ _ Hrows) as Hlabels.
  assert (Hinit : decode_inv c 0 (None, [])).
  { split; [constructor|]. exists 0. simpl. lia. }
  destruct (decode_labels_inv c (tf.argMax oh) 0 (None, []) Hd Hlabels Hinit)
    as [Hlen Hinv].
  assert (Hlen' : length (tf.argMax oh) = length oh) by apply length_map.
  subst out. unfold MelodyConverter.toNoteSequence.
  destruct (MelodyConverter.decode_labels c (tf.argMax oh) 0 (None, []))
    as [len [curr notes_]]. simpl in Hlen, Hinv. subst len.
  destruct Hinv as (Hp & hi & Hch & Hcurr). simpl in Hp, Hch, Hcurr.
  rewrite Hlen' in *. simpl.
  assert (Hfinal : exists hi', chain 0
    match curr with
    | Some n => notes_ ++ [set_quantizedEndStep n (Z.of_nat (length oh))]
    | None => notes_
    end hi' /\ hi' <= Z.of_nat (length oh)).
  { destruct curr as [n|].
    - exists (Z.of_nat (length oh)). split; [|lia].
      eapply chain_snoc; [exact Hch| |]; simpl; lia.
    - by exists hi. }
  destruct Hfinal as (hi' & Hch' & Hhi'). split; [|split].
  - eapply Forall_impl; [by apply chain_bounds in Hch'|]. simpl. intros n ?. lia.
  - destruct curr as [n|]; [|done]. apply Forall_app. split; [done|].
    constructor; [|constructor]. by destruct Hcurr.
  - intros i n m. by apply chain_adjacent with (lo := 0) (hi := hi').
Qed.

Lemma C9_toNoteSequence_well_formed_witness :
  let c := MelodyConverter.new two_pitches in
  let out := notes (MelodyConverter.toNoteSequence c any_rows) in
  out = [mkNote 60 0 2 false 0 0; mkNote 61 2 3 false 0 0]
  /\ Forall (fun n => 0 <= quantizedStartStep n < quantizedEndStep n
                      /\ quantizedEndStep n <= Z.of_nat (length any_rows)) out
  /\ Forall (pitch_in_range c) out
  /\ (forall i n m, out !! i = Some n -> out !! S i = Some m ->
                    quantizedEndStep n <= quantizedStartStep m).
Proof.
  split; [reflexivity|].
  apply (C9_toNoteSequence_well_formed two_pitches any_rows).
  repeat (apply List.Forall_cons; [reflexivity|]). apply List.Forall_nil.
Defined.

(** ** DrumsConverter.toNoteSequence *)

Lemma drums_decode_label_In c s label n :
  In n (DrumsConverter.decode_label c s label)
  <-> exists p, (p < length (DrumsConverter.pitchClasses c))%nat
        /\ Z.land (Z.shiftr label (Z.of_nat p mod 32)) 1 <> 0
        /\ n = Note_create (DrumsConverter.firstPitch c p)
                 (Z.of_nat s) (Z.of_nat s + 1) true.
Proof.
  unfold DrumsConverter.decode_label. rewrite in_flat_map. split.
  - intros (p & Hp & Hn). apply in_seq in Hp. exists p.
    destruct (Z.land (Z.shiftr label (Z.of_nat p mod 32)) 1 =? 0) eqn:E; [done|].
    destruct Hn as [<-|[]]. repeat split; lia.
  - intros (p & Hp & Hbit & ->). exists p. split; [apply in_seq; lia|].
    destruct (Z.land (Z.shiftr label (Z.of_nat p mod 32)) 1 =? 0) eqn:E; [lia|].
    by left.
Qed.

Lemma drums_decode_labels_In c labels : forall s n,
  In n (DrumsConverter.decode_labels c labels s)
  <-> exists i label, labels !! i = Some label
        /\ In n (DrumsConverter.decode_label c (s + i) label).
Proof.
  induction labels as [|l labels IH]; intros s n; simpl.
  - split; [done|]. by intros (i & label & H & _).
  - rewrite in_app_iff, IH. split.
    + intros [H|(i & label & Hl & H)].
      * exists O, l. by rewrite Nat.add_0_r.
      * exists (S i), label. split; [done|]. by rewrite Nat.add_succ_r.
    + intros ([|i] & label & Hl & H); simpl in Hl.
      * left. injection Hl as ->. by rewrite Nat.add_0_r in H.
      * right. exists i, label. split; [done|]. by rewrite Nat.add_succ_r in H.
Qed.

Lemma drums_decoded_note c oh n :
  In n (notes (DrumsConverter.toNoteSequence c oh)) ->
  isDrum n = true /\ quantizedEndStep n = quantizedStartStep n + 1
  /\ program n = 0 /\ instrument n = 0.
Proof.
  unfold DrumsConverter.toNoteSequence. simpl.
  rewrite drums_decode_labels_In. intros (i & label & _ & H).
  apply drums_decode_label_In in H as (p & _ & _ & ->). done.
Qed.

(** ** TrioConverter.toNoteSequence *)

Lemma forallb_width (t : tf.Tensor2D) d :
  Forall (fun row => Z.of_nat (length row) = d) t ->
  forallb (fun row => Z.of_nat (length row) =? d) t = true.
Proof.
  intros H. apply forallb_forall. rewrite List.Forall_forall in H.
  intros row Hin. apply Z.eqb_eq. by apply H.
Qed.

(** C6. On a tensor whose rows have the width [depth] of the converter (the
    depths of the two melody converters being sizes), [toNoteSequence] cuts
    every row into a first slice of the depth of the melody converter, a
    second of the depth of the bass converter and a third of the depth of the
    drums converter, has each converter decode its slice, and returns the
    melody notes with instrument 0 and program 0, then the bass notes with
    instrument 1 and program 32, then the drum notes with instrument 2 and
    their drum flag, in this order and otherwise as they were decoded. *)
Theorem C6_trio_toNoteSequence (args : TrioConverterArgs.t) (th : tf.Tensor2D) :
  let c := snd (TrioConverter.new args) in
  let d0 := MelodyConverter.depth (TrioConverter.melConverter c) in
  let d1 := MelodyConverter.depth (TrioConverter.bassConverter c) in
  let d2 := DrumsConverter.depth (TrioConverter.drumsConverter c) in
  let mel := notes (MelodyConverter.toNoteSequence (TrioConverter.melConverter c)
                      (map (take (Z.to_nat d0)) th)) in
  let bass := notes (MelodyConverter.toNoteSequence (TrioConverter.bassConverter c)
                       (map (fun row => take (Z.to_nat d1) (drop (Z.to_nat d0) row)) th)) in
  let drums := notes (DrumsOneHotConverter.toNoteSequence (TrioConverter.drumsConverter c)
                        (map (drop (Z.to_nat d0 + Z.to_nat d1)) th)) in
  0 <= d0 -> 0 <= d1 ->
  Forall (fun row => Z.of_nat (length row) = TrioConverter.depth c) th ->
  TrioConverter.depth c = d0 + d1 + d2
  /\ (exists ns,
        TrioConverter.toNoteSequence c th = Ok ns
        /\ notes ns = map TrioConverter.tag_mel mel
                      ++ map TrioConverter.tag_bass bass
                      ++ map TrioConverter.tag_drums drums)
  /\ Forall (fun n => instrument n = 0 /\ program n = 0)
        (map TrioConverter.tag_mel mel)
  /\ Forall (fun n => instrument n = 1 /\ program n = 32)
        (map TrioConverter.tag_bass bass)
  /\ Forall (fun n => instrument n = 2 /\ isDrum n = true)
        (map TrioConverter.tag_drums drums)
  /\ map key (map TrioConverter.tag_mel mel) = map key mel
  /\ map key (map TrioConverter.tag_bass bass) = map key bass
  /\ map key (map TrioConverter.tag_drums drums) = map key drums.
Proof.
  intros c d0 d1 d2 mel bass drums H0 H1 Hrows.
  assert (Hd : TrioConverter.depth c = d0 + d1 + d2) by reflexivity.
  assert (H2 : 0 <= d2).
  { unfold d2, c. simpl. apply Z.pow_nonneg. lia. }
  split; [exact Hd|]. split.
  - unfold TrioConverter.toNoteSequence, tf.split3.
    fold d0 d1 d2. rewrite Hd in Hrows. rewrite (forallb_width _ _ Hrows).
    replace (0 <=? d0) with true by lia. replace (0 <=? d1) with true by lia.
    replace (0 <=? d2) with true by lia. cbn [andb mbind result_bind].
    eexists. split; [reflexivity|]. simpl. by rewrite <- app_assoc.
  - repeat split.
    + apply List.Forall_forall. intros n Hin. by apply in_map_iff in Hin as (m & <- & _).
    + apply List.Forall_forall. intros n Hin. by apply in_map_iff in Hin as (m & <- & _).
    + apply List.Forall_forall. intros n Hin. apply in_map_iff in Hin as (m & <- & Hm).
      split; [done|]. simpl. by apply drums_decoded_note in Hm as (? & _).
    + rewrite map_map. by apply map_ext.
    + rewrite map_map. by apply map_ext.
    + rewrite map_map. by apply map_ext.
Qed.

Lemma C6_trio_toNoteSequence_witness :
  exists ns,
    TrioConverter.toNoteSequence (snd (TrioConverter.new small_trio)) small_trio_rows
    = Ok ns
    /\ notes ns = [mkNote 60 0 1 false 0 0; mkNote 61 1 2 false 0 0;
                   mkNote 37 0 2 false 32 1;
                   mkNote 36 0 1 true 0 2].
Proof.
  destruct (C6_trio_toNoteSequence small_trio small_trio_rows)
    as (_ & (ns & Hns & Hnotes) & _).
  - by vm_compute.
  - by vm_compute.
  - repeat (apply List.Forall_cons; [reflexivity|]). apply List.Forall_nil.
  - exists ns. split; [exact Hns|]. rewrite Hnotes. reflexivity.
Defined.

(** ** Bits of a label *)

Lemma land_shiftr_1 x p : 0 <= p -> Z.land (Z.shiftr x p) 1 = Z.b2z (Z.testbit x p).
Proof.
  intros Hp. change 1 with (Z.ones 1) at 1. rewrite Z.land_ones by lia.
  by rewrite Z.pow_1_r, <- Z.bit0_mod, Z.shiftr_spec by lia.
Qed.

Lemma add_pow2_testbit x k j :
  0 <= k -> Z.testbit x k = false ->
  Z.testbit (2 ^ k + x) j = (k =? j) || Z.testbit x j.
Proof.
  intros Hk Hx.
  assert (Hland : Z.land (2 ^ k) x = 0).
  { apply Z.bits_inj'. intros n Hn.
    rewrite Z.land_spec, Z.bits_0, Z.pow2_bits_eqb by lia.
    destruct (k =? n) eqn:E; [|done]. apply Z.eqb_eq in E. subst n. by rewrite Hx. }
  by rewrite Z.add_nocarry_lxor, Z.lxor_lor, Z.lor_spec, Z.pow2_bits_eqb.
Qed.

Lemma bits_bound x len :
  0 <= x -> 0 <= len -> (forall j, len <= j -> Z.testbit x j = false) -> x < 2 ^ len.
Proof.
  intros Hx Hlen Hbits. destruct (Z.eq_dec x 0) as [->|Hne].
  - apply Z.pow_pos_nonneg; lia.
  - apply Z.log2_lt_pow2; [lia|].
    destruct (Z.lt_ge_cases (Z.log2 x) len) as [|Hge]; [done|].
    pose proof (Z.bit_log2 x ltac:(lia)) as Hbit.
    rewrite Hbits in Hbit; [done|lia].
Qed.

Lemma int32_small z : - 2 ^ 31 <= z < 2 ^ 31 -> tf.int32 z = z.
Proof. intros H. unfold tf.int32. rewrite Z.mod_small; lia. Qed.

(** ** One-hot rows and their arg-max *)

(** Decides the integer comparisons of the goal and leaves the arithmetic to
    [lia]. *)
Ltac case_cmp :=
  repeat match goal with
  | |- context [?a <=? ?b] => destruct (Z.leb_spec a b)
  | |- context [?a <? ?b] => destruct (Z.ltb_spec a b)
  | |- context [?a =? ?b] => destruct (Z.eqb_spec a b)
  end; simpl; try done; try lia.

Lemma argMax_from_max_1 (f : nat -> Z) n : forall j maxIndex,
  (forall i, f i <= 1) ->
  tf.argMax_from (map f (seq j n)) j 1 maxIndex = maxIndex.
Proof.
  induction n as [|n IH]; intros j maxIndex Hf; simpl; [done|].
  replace (1 <? f j) with false by (specialize (Hf j); lia). by apply IH.
Qed.

Lemma argMax_from_oneHot index n : forall j maxIndex,
  tf.argMax_from
    (map (fun i => if Z.of_nat i =? index then 1 else 0) (seq j n)) j 0 maxIndex
  = if (Z.of_nat j <=? index) && (index <? Z.of_nat (j + n))
    then Z.to_nat index else maxIndex.
Proof.
  induction n as [|n IH]; intros j maxIndex; simpl.
  - case_cmp.
  - destruct (Z.eqb_spec (Z.of_nat j) index) as [E|E]; simpl.
    + rewrite argMax_from_max_1 by (intros i; case_cmp). case_cmp.
    + rewrite IH. case_cmp.
Qed.

Lemma argMax_oneHot_row depth index :
  Z.of_nat (tf.argMax_row (tf.oneHot_row depth index))
  = if (0 <=? index) && (index <? depth) then index else 0.
Proof.
  unfold tf.oneHot_row. destruct (Z.to_nat depth) as [|n] eqn:En.
  - simpl. case_cmp.
  - cbn [seq map tf.argMax_row]. change (Z.of_nat 0) with 0.
    destruct (Z.eqb_spec 0 index) as [E|E].
    + rewrite argMax_from_max_1 by (intros i; case_cmp). case_cmp.
    + rewrite argMax_from_oneHot. case_cmp.
Qed.

Lemma argMax_oneHot labels depth :
  Forall (fun label => 0 <= label < depth \/ label = 0) labels ->
  tf.argMax (tf.oneHot_rows labels depth) = labels.
Proof.
  intros H. unfold tf.argMax, tf.oneHot_rows. rewrite map_map.
  induction H as [|label labels Hl _ IH]; simpl; [done|].
  rewrite IH, argMax_oneHot_row. f_equal. case_cmp.
Qed.

(** ** The map from pitches to classes *)

Lemma foldl_insert_notin (k : nat) (ps : list Z) (q : Z) : forall m : gmap Z nat,
  ~ In q ps -> foldl (fun m p => <[p := k]> m) m ps !! q = m !! q.
Proof.
  induction ps as [|p ps IH]; intros m Hq; simpl; [done|].
  rewrite IH by (intros ?; apply Hq; by right).
  apply lookup_insert_ne. intros ->. apply Hq. by left.
Qed.

Lemma foldl_insert_in (k : nat) (ps : list Z) (q : Z) : forall m : gmap Z nat,
  In q ps -> foldl (fun m p => <[p := k]> m) m ps !! q = Some k.
Proof.
  induction ps as [|p ps IH]; intros m Hq; simpl; [done|].
  destruct (in_dec Z.eq_dec q ps) as [Hin|Hnin]; [by apply IH|].
  rewrite foldl_insert_notin by done.
  destruct Hq as [->|]; [apply lookup_insert_eq|done].
Qed.

Lemma set_classes_bound classes : forall k0 (m : gmap Z nat) q k,
  DrumsConverter.set_classes k0 classes m !! q = Some k ->
  m !! q = Some k \/ (k0 <= k < k0 + length classes)%nat.
Proof.
  induction classes as [|ps classes IH]; intros k0 m q k H; simpl in *; [by left|].
  apply IH in H as [H|H]; [|right; lia].
  destruct (in_dec Z.eq_dec q ps) as [Hin|Hnin].
  - rewrite foldl_insert_in in H by done. injection H as <-. right. lia.
  - rewrite foldl_insert_notin in H by done. by left.
Qed.

Lemma set_classes_mapped classes : forall k0 (m : gmap Z nat) q,
  mapped classes q \/ is_Some (m !! q) ->
  is_Some (DrumsConverter.set_classes k0 classes m !! q).
Proof.
  induction classes as [|ps classes IH]; intros k0 m q H; simpl.
  - destruct H as [H|H]; [by inversion H|done].
  - apply IH. destruct (in_dec Z.eq_dec q ps) as [Hin|Hnin].
    + right. by rewrite foldl_insert_in.
    + rewrite foldl_insert_notin by done.
      destruct H as [H|H]; [|by right]. inversion H; subst; [done|by left].
Qed.

Lemma new_class_of args n :
  let c := DrumsOneHotConverter.new args in
  mapped (DrumsConverter.pitchClasses c) (pitch n) ->
  DrumsConverter.pitchToClass c !! pitch n = Some (class_of c n)
  /\ (class_of c n < length (DrumsConverter.pitchClasses c))%nat.
Proof.
  intros c Hm. unfold class_of.
  assert (Hsome : is_Some (DrumsConverter.pitchToClass c !! pitch n)).
  { apply set_classes_mapped. by left. }
  destruct Hsome as [k Hk]. rewrite Hk. simpl. split; [done|].
  apply set_classes_bound in Hk as [Hk|Hk]; [done|]. simpl in Hk. lia.
Qed.

(** ** DrumsOneHotConverter.toTensor: the labels *)

Lemma map_Some_lookup (xs : list Z) i :
  map Some xs !! i = option_map Some (xs !! i).
Proof. revert i. induction xs as [|x xs IH]; intros [|i]; simpl; done. Qed.

Lemma map_Some_insert (xs : list Z) i x :
  <[i := Some x]> (map Some xs) = map Some (<[i := x]> xs).
Proof.
  revert i. induction xs as [|y xs IH]; intros [|i]; simpl; try done.
  by rewrite <- IH.
Qed.

Lemma drums_encode_note_mapped c xs n k x :
  DrumsConverter.pitchToClass c !! pitch n = Some k ->
  0 <= quantizedStartStep n ->
  xs !! Z.to_nat (quantizedStartStep n) = Some x ->
  DrumsOneHotConverter.encode_note c (map Some xs) n
  = map Some (<[Z.to_nat (quantizedStartStep n) := x + 2 ^ Z.of_nat k]> xs).
Proof.
  intros Hk Hs Hx.
  unfold DrumsOneHotConverter.encode_note, DrumsOneHotConverter.add_at,
    DrumsOneHotConverter.pow2_class.
  replace (quantizedStartStep n <? 0) with false by lia.
  rewrite map_Some_lookup, Hx, Hk. simpl. apply map_Some_insert.
Qed.

Lemma foldl_encode_labels c l : forall xs,
  Forall (fun n => is_Some (DrumsConverter.pitchToClass c !! pitch n)
                   /\ 0 <= quantizedStartStep n < Z.of_nat (length xs)) l ->
  exists ys,
    foldl (DrumsOneHotConverter.encode_note c) (map Some xs) l = map Some ys
    /\ length ys = length xs
    /\ forall i x, xs !! i = Some x -> ys !! i = Some (x + hits c l (Z.of_nat i)).
Proof.
  induction l as [|n l IH]; intros xs H.
  - exists xs. split; [done|]. split; [done|]. intros i x Hx. simpl.
    by rewrite Z.add_0_r.
  - inversion H as [|? ? [[k Hk] Hs] Hl]; subst.
    destruct (lookup_lt_is_Some_2 xs (Z.to_nat (quantizedStartStep n)) ltac:(lia))
      as [x0 Hx0].
    cbn [foldl]. rewrite (drums_encode_note_mapped c xs n k x0) by (done || lia).
    destruct (IH (<[Z.to_nat (quantizedStartStep n) := x0 + 2 ^ Z.of_nat k]> xs))
      as (ys & Hys & Hlen & Hlook).
    { eapply Forall_impl; [exact Hl|]. simpl. intros m. by rewrite length_insert. }
    exists ys. split; [done|]. split; [by rewrite Hlen, length_insert|].
    intros i x Hx. cbn [hits].
    assert (Hcls : class_of c n = k) by (unfold class_of; by rewrite Hk).
    rewrite Hcls.
    destruct (Z.eqb_spec (quantizedStartStep n) (Z.of_nat i)) as [E|E].
    + assert (Hi : Z.to_nat (quantizedStartStep n) = i) by lia. subst i.
      rewrite Hx0 in Hx. injection Hx as <-.
      rewrite (Hlook _ (x0 + 2 ^ Z.of_nat k)).
      * f_equal. lia.
      * apply list_lookup_insert_eq. by eapply lookup_lt_Some.
    + rewrite (Hlook i x); [done|].
      rewrite list_lookup_insert_ne; [done|lia].
Qed.

Lemma hits_bits c l s :
  NoDup (map (fun n => (class_of c n, quantizedStartStep n)) l) ->
  0 <= hits c l s
  /\ forall j, 0 <= j ->
       (Z.testbit (hits c l s) j = true
        <-> exists n, In n l /\ quantizedStartStep n = s /\ Z.of_nat (class_of c n) = j).
Proof.
  induction l as [|n l IH]; intros Hnd.
  - split; [done|]. intros j Hj. simpl. rewrite Z.bits_0. split; [done|].
    by intros (n & [] & _).
  - cbn [map] in Hnd. inversion Hnd as [|? ? Hnotin Hnd']; subst.
    destruct (IH Hnd') as [Hnn Hbits]. cbn [hits].
    destruct (Z.eqb_spec (quantizedStartStep n) s) as [E|E].
    + assert (Hclear : Z.testbit (hits c l s) (Z.of_nat (class_of c n)) = false).
      { destruct (Z.testbit (hits c l s) (Z.of_nat (class_of c n))) eqn:Hb; [|done].
        apply Hbits in Hb as (m & Hm & Hs & Hc); [|lia]. exfalso. apply Hnotin.
        apply list_elem_of_In, in_map_iff. exists m. split; [|done].
        f_equal; [lia|congruence]. }
      split; [pose proof (Z.pow_nonneg 2 (Z.of_nat (class_of c n))); lia|].
      intros j Hj. rewrite add_pow2_testbit by (done || lia).
      rewrite orb_true_iff, Z.eqb_eq, Hbits by done. split.
      * intros [Hk|(m & Hm & Hs & Hc)]; [by exists n; repeat split; [left| |]|].
        exists m. by repeat split; [right| |].
      * intros (m & [<-|Hm] & Hs & Hc); [by left|]. right. by exists m.
    + rewrite Z.add_0_l. split; [done|]. intros j Hj. rewrite Hbits by done. split.
      * intros (m & Hm & Hs & Hc). exists m. by repeat split; [right| |].
      * intros (m & [<-|Hm] & Hs & Hc); [done|]. by exists m.
Qed.

Lemma existsb_hit_at c s k l :
  existsb (hit_at c s k) l = true
  <-> exists n, In n l /\ quantizedStartStep n = Z.of_nat s
                /\ DrumsConverter.pitchToClass c !! pitch n = Some k.
Proof.
  rewrite existsb_exists. unfold hit_at. split.
  - intros (n & Hn & H). apply andb_true_iff in H as [Hs Hk].
    exists n. split; [done|]. split; [lia|]. by apply bool_decide_eq_true in Hk.
  - intros (n & Hn & Hs & Hk). exists n. split; [done|].
    apply andb_true_iff. split; [lia|]. by apply bool_decide_eq_true.
Qed.

Lemma flat_map_ext_in {A B} (f g : A -> list B) l :
  (forall a, In a l -> f a = g a) -> flat_map f l = flat_map g l.
Proof.
  induction l as [|a l IH]; intros H; simpl; [done|].
  rewrite H, IH; [done| |by left]. intros a' Ha'. apply H. by right.
Qed.

Lemma drums_decode_labels_steps c (f : nat -> Z) n : forall a,
  DrumsConverter.decode_labels c (map f (seq a n)) a
  = flat_map (fun s => DrumsConverter.decode_label c s (f s)) (seq a n).
Proof. induction n as [|n IH]; intros a; simpl; [done|]. by rewrite IH. Qed.

Lemma list_eq_map_seq {A} (ys : list A) n f :
  length ys = n -> (forall i, (i < n)%nat -> ys !! i = Some (f i)) ->
  ys = map f (seq 0 n).
Proof.
  intros Hlen H. apply list_eq. intros i.
  destruct (decide (i < n)%nat) as [Hi|Hi].
  - rewrite H by done. change (map f (seq 0 n)) with (f <$> seq 0 n).
    by rewrite list_lookup_fmap, lookup_seq_lt.
  - rewrite !lookup_ge_None_2; [done| |lia]. rewrite length_map, length_seq. lia.
Qed.

Lemma hit_notes_In c numSteps l n :
  In n (hit_notes c numSteps l)
  <-> exists s k, (s < numSteps)%nat
        /\ (k < length (DrumsConverter.pitchClasses c))%nat
        /\ existsb (hit_at c s k) l = true
        /\ n = drum_note c s k.
Proof.
  unfold hit_notes. rewrite in_flat_map. split.
  - intros (s & Hs & Hn). apply in_flat_map in Hn as (k & Hk & Hn).
    apply in_seq in Hs, Hk. exists s, k.
    destruct (existsb (hit_at c s k) l); [|done]. destruct Hn as [<-|[]].
    repeat split; lia.
  - intros (s & k & Hs & Hk & Hhit & ->). exists s. split; [apply in_seq; lia|].
    apply in_flat_map. exists k. split; [apply in_seq; lia|]. rewrite Hhit. by left.
Qed.

(** The label of a step decodes to the notes of the classes hit at the
    step. *)
Lemma drums_decode_label_hits args l s :
  let c := DrumsOneHotConverter.new args in
  (length (DrumsConverter.pitchClasses c) <= 31)%nat ->
  NoDup (map (fun n => (class_of c n, quantizedStartStep n)) l) ->
  Forall (fun n => mapped (DrumsConverter.pitchClasses c) (pitch n)) l ->
  DrumsConverter.decode_label c s (hits c l (Z.of_nat s))
  = flat_map (fun k => if existsb (hit_at c s k) l then [drum_note c s k] else [])
      (seq 0 (length (DrumsConverter.pitchClasses c))).
Proof.
  intros c Hlen Hnd Hmapped. unfold DrumsConverter.decode_label.
  apply flat_map_ext_in. intros k Hk. apply in_seq in Hk.
  rewrite Z.mod_small, land_shiftr_1 by lia.
  destruct (hits_bits c l (Z.of_nat s) Hnd) as [_ Hbits].
  rewrite List.Forall_forall in Hmapped.
  destruct (Z.testbit (hits c l (Z.of_nat s)) (Z.of_nat k)) eqn:Hb;
    destruct (existsb (hit_at c s k) l) eqn:Hhit; try done.
  - exfalso. apply Hbits in Hb as (m & Hm & Hs & Hc); [|lia].
    assert (existsb (hit_at c s k) l = true); [|congruence].
    apply existsb_hit_at. exists m. split; [done|]. split; [done|].
    destruct (new_class_of args m (Hmapped m Hm)) as [Hcls _]. fold c in Hcls.
    rewrite Hcls. f_equal. lia.
  - exfalso. apply existsb_hit_at in Hhit as (m & Hm & Hs & Hc).
    assert (Z.testbit (hits c l (Z.of_nat s)) (Z.of_nat k) = true); [|congruence].
    apply Hbits; [lia|]. exists m. split; [done|]. split; [done|].
    unfold class_of. by rewrite Hc.
Qed.

(** The round trip of a drum pattern, as the list of the decoded notes. *)
Lemma drumsOneHot_round_trip_exact (args : DrumsConverterArgs.t) (ns : NoteSequence) :
  let c := DrumsOneHotConverter.new args in
  let numSteps := numSteps_or (DrumsConverter.numSteps c) ns in
  (0 < length (DrumsConverter.pitchClasses c) <= 31)%nat ->
  encodable_drums c numSteps (notes ns) ->
  exists t,
    snd (DrumsOneHotConverter.toTensor c ns) = Ok t
    /\ length t = numSteps
    /\ notes (DrumsOneHotConverter.toNoteSequence c t) = hit_notes c numSteps (notes ns).
Proof.
  intros c numSteps Hclasses (Hnd & Hmapped & Hsteps).
  set (len := length (DrumsConverter.pitchClasses c)) in *.
  assert (Hdepth : DrumsConverter.depth c = 2 ^ Z.of_nat len) by reflexivity.
  destruct (foldl_encode_labels c (notes ns) (replicate numSteps 0))
    as (ys & Hys & Hlen & Hlook).
  { apply List.Forall_forall. intros n Hn.
    rewrite List.Forall_forall in Hmapped, Hsteps. split.
    - destruct (new_class_of args n (Hmapped n Hn)) as [Hk _]. by eexists.
    - rewrite length_replicate. by apply Hsteps. }
  rewrite length_replicate in Hlen.
  assert (Hy : forall i, (i < numSteps)%nat -> ys !! i = Some (hits c (notes ns) (Z.of_nat i))).
  { intros i Hi. rewrite (Hlook i 0); [done|]. by apply lookup_replicate_2. }
  assert (Hrange : forall s, 0 <= hits c (notes ns) s < 2 ^ Z.of_nat len).
  { intros s. destruct (hits_bits c (notes ns) s Hnd) as [Hnn Hbits].
    split; [done|]. apply bits_bound; [done|lia|].
    intros j Hj. destruct (Z.testbit (hits c (notes ns) s) j) eqn:Hb; [|done].
    apply Hbits in Hb as (n & Hn & _ & Hc); [|lia].
    rewrite List.Forall_forall in Hmapped.
    destruct (new_class_of args n (Hmapped n Hn)) as [_ Hlt]. fold c len in Hlt. lia. }
  assert (Hys_range : Forall (fun y => 0 <= y < 2 ^ Z.of_nat len) ys).
  { apply Forall_lookup. intros i y Hi.
    rewrite Hy in Hi by (apply lookup_lt_Some in Hi; lia). injection Hi as <-.
    apply Hrange. }
  assert (Hpow : 2 ^ Z.of_nat len <= 2 ^ 31) by (apply Z.pow_le_mono_r; lia).
  assert (Hint : DrumsOneHotConverter.tensor1d_int32 (map Some ys) = ys).
  { unfold DrumsOneHotConverter.tensor1d_int32. rewrite map_map.
    clear Hys Hlen Hlook Hy. induction Hys_range as [|y ys Hy0 _ IH]; simpl; [done|].
    rewrite IH, int32_small; [done|lia]. }
  assert (Hd2 : 2 <= DrumsConverter.depth c).
  { rewrite Hdepth. apply pow2_ge_2. lia. }
  exists (tf.oneHot_rows ys (DrumsConverter.depth c)). split; [|split].
  { assert (Hrep : forall n, map Some (replicate n 0) = replicate n (Some 0)).
    { induction n as [|n IH]; simpl; [done|]. by rewrite IH. }
    rewrite Hrep in Hys.
    rewrite drumsOneHot_toTensor_snd. fold numSteps.
    by rewrite Hys, Hint, oneHot_ok. }
  { destruct (oneHot_shape ys (DrumsConverter.depth c)) as [-> _]. exact Hlen. }
  unfold DrumsOneHotConverter.toNoteSequence, DrumsConverter.toNoteSequence.
  rewrite argMax_oneHot
    by (rewrite Hdepth; eapply Forall_impl; [exact Hys_range|]; simpl; intros; by left).
  cbn [notes set_notes].
  rewrite (list_eq_map_seq ys numSteps (fun i => hits c (notes ns) (Z.of_nat i)) Hlen Hy).
  rewrite drums_decode_labels_steps. unfold hit_notes.
  apply flat_map_ext_in. intros s _.
  apply (drums_decode_label_hits args); [fold c len; lia|done|done].
Qed.

(** C5. For a [DrumsOneHotConverter] (of at least one and at most 31
    classes: [tf.oneHot] needs a depth of 2 or more, and a label is an
    int32) and a drum sequence with at most one note per class and step,
    whose pitches are all in the table of classes and whose start steps are
    from 0 to below [numSteps], decoding the encoding returns notes whose
    (pitch, start step) pairs are those of the argument with every pitch
    replaced by the first pitch of its class; every returned note lasts one
    step and is a drum note. *)
Theorem C5_drumsOneHot_round_trip (args : DrumsConverterArgs.t) (ns : NoteSequence) :
  let c := DrumsOneHotConverter.new args in
  let numSteps := numSteps_or (DrumsConverter.numSteps c) ns in
  (0 < length (DrumsConverter.pitchClasses c) <= 31)%nat ->
  NoDup (map (fun n => (class_of c n, quantizedStartStep n)) (notes ns)) ->
  Forall (fun n => mapped (DrumsConverter.pitchClasses c) (pitch n)) (notes ns) ->
  Forall (fun n => 0 <= quantizedStartStep n < Z.of_nat numSteps) (notes ns) ->
  exists t,
    snd (DrumsOneHotConverter.toTensor c ns) = Ok t
    /\ let out := notes (DrumsOneHotConverter.toNoteSequence c t) in
       (forall p s,
          In (p, s) (map (fun n => (pitch n, quantizedStartStep n)) out)
          <-> In (p, s) (map (fun n => (representativePitch c n, quantizedStartStep n))
                          (notes ns)))
       /\ Forall (fun n => quantizedEndStep n = quantizedStartStep n + 1
                           /\ isDrum n = true) out.
Proof.
  intros c numSteps Hclasses Hnd Hmapped Hsteps.
  destruct (drumsOneHot_round_trip_exact args ns Hclasses)
    as (t & Ht & _ & Hout); [by split|].
  fold c numSteps in Ht, Hout. exists t. split; [exact Ht|]. cbv zeta. rewrite Hout.
  rewrite List.Forall_forall in Hmapped, Hsteps. split.
  - intros p s. rewrite !in_map_iff. split.
    + intros (n & Hpair & Hn). injection Hpair as <- <-.
      apply hit_notes_In in Hn as (s & k & Hs & Hk & Hhit & ->).
      apply existsb_hit_at in Hhit as (m & Hm & Hstart & Hcls).
      exists m. split; [|done]. unfold representativePitch, class_of.
      rewrite Hcls. simpl. by rewrite Hstart.
    + intros (m & Hpair & Hm). injection Hpair as <- <-.
      destruct (new_class_of args m (Hmapped m Hm)) as [Hcls Hlt]. fold c in Hcls, Hlt.
      specialize (Hsteps m Hm).
      exists (drum_note c (Z.to_nat (quantizedStartStep m)) (class_of c m)).
      split; [simpl; unfold representativePitch; f_equal; lia|].
      apply hit_notes_In. exists (Z.to_nat (quantizedStartStep m)), (class_of c m).
      split; [lia|]. split; [done|]. split; [|done].
      apply existsb_hit_at. exists m. split; [done|]. split; [lia|done].
  - apply List.Forall_forall. intros n Hn.
    by apply hit_notes_In in Hn as (s & k & _ & _ & _ & ->).
Qed.

Lemma C5_drumsOneHot_round_trip_witness :
  exists t,
    snd (DrumsOneHotConverter.toTensor (DrumsOneHotConverter.new kick_snare) pattern)
    = Ok t
    /\ let out := notes (DrumsOneHotConverter.toNoteSequence
                           (DrumsOneHotConverter.new kick_snare) t) in
       (forall p s,
          In (p, s) (map (fun n => (pitch n, quantizedStartStep n)) out)
          <-> In (p, s) [(38, 0); (36, 0); (36, 1)])
       /\ Forall (fun n => quantizedEndStep n = quantizedStartStep n + 1
                           /\ isDrum n = true) out.
Proof.
  apply (C5_drumsOneHot_round_trip kick_snare pattern).
  - simpl. lia.
  - apply (bool_decide_unpack _). by vm_compute.
  - simpl. repeat (apply List.Forall_cons; [unfold mapped; simpl|]);
      [ apply Exists_cons_tl, Exists_cons_hd; simpl; tauto
      | apply Exists_cons_hd; simpl; tauto
      | apply Exists_cons_hd; simpl; tauto
      | apply List.Forall_nil ].
  - simpl. repeat (apply List.Forall_cons; [simpl; lia|]). apply List.Forall_nil.
Defined.

(** ** The round trip of a melody *)

Lemma melody_toNoteSequence_notes c oh :
  notes (MelodyConverter.toNoteSequence c oh)
  = decode_end (MelodyConverter.decode_labels c (tf.argMax oh) 0 (None, [])).
Proof.
  unfold MelodyConverter.toNoteSequence, decode_end.
  destruct (MelodyConverter.decode_labels c (tf.argMax oh) 0 (None, []))
    as [len [[n|] out]]; simpl; [done|]. by rewrite app_nil_r.
Qed.

Lemma decode_labels_app c l1 : forall l2 s st,
  MelodyConverter.decode_labels c (l1 ++ l2) s st
  = MelodyConverter.decode_labels c l2
      (fst (MelodyConverter.decode_labels c l1 s st))
      (snd (MelodyConverter.decode_labels c l1 s st)).
Proof. induction l1 as [|x l1 IH]; intros l2 s st; simpl; [done|]. apply IH. Qed.

Lemma decode_rests c k : forall s st,
  MelodyConverter.decode_labels c (replicate k 0) s st = ((s + k)%nat, st).
Proof.
  induction k as [|k IH]; intros s [curr out]; simpl.
  - by rewrite Nat.add_0_r.
  - rewrite IH. f_equal. lia.
Qed.

(** The closing label at step [e]: it closes the open note, if any. *)
Lemma decode_closer c curr out e :
  MelodyConverter.decode_label c (curr, out) e (closer_of curr)
  = (None, out ++ closed curr e).
Proof. destruct curr; simpl; [done|]. by rewrite app_nil_r. Qed.

Lemma decode_closing c curr out e k :
  decode_end (MelodyConverter.decode_labels c (closing_labels (closer_of curr) k) e (curr, out))
  = out ++ closed curr e.
Proof.
  destruct k as [|k]; [done|]. cbn [closing_labels MelodyConverter.decode_labels].
  rewrite decode_closer, decode_rests. unfold decode_end. simpl. by rewrite app_nil_r.
Qed.

Lemma decode_segment c curr out e a b p :
  (a < b)%nat -> 2 <= p ->
  MelodyConverter.decode_labels c (segment (closer_of curr) a b p) e (curr, out)
  = ((e + b)%nat,
     (Some (Note_create (p - MelodyConverter.FIRST_PITCH + MelodyConverter.minPitch c)
              (Z.of_nat (e + a)) 0 false),
      out ++ closed curr e)).
Proof.
  intros Hab Hp. unfold segment.
  assert (Hpitch : forall st s,
    MelodyConverter.decode_label c st s p
    = (Some (Note_create (p - MelodyConverter.FIRST_PITCH + MelodyConverter.minPitch c)
               (Z.of_nat s) 0 false),
       snd st ++ closed (fst st) s)).
  { intros [curr' out'] s. unfold MelodyConverter.decode_label.
    replace (p =? 0) with false by lia. replace (p =? 1) with false by lia.
    destruct curr'; simpl; [done|]. by rewrite app_nil_r. }
  destruct a as [|a].
  - cbn [app MelodyConverter.decode_labels]. rewrite Hpitch, decode_rests. simpl.
    repeat f_equal; lia.
  - rewrite decode_labels_app. cbn [MelodyConverter.decode_labels].
    rewrite decode_closer, decode_rests. cbn [fst snd MelodyConverter.decode_labels].
    rewrite Hpitch, decode_rests. simpl. rewrite app_nil_r.
    repeat f_equal; lia.
Qed.

Lemma insert_rests j m :
  (j <= m)%nat ->
  <[j := 1]> (replicate m 0) = replicate j 0 ++ closing_labels 1 (m - j).
Proof.
  intros Hj. destruct (decide (j = m)) as [->|Hne].
  - rewrite list_insert_ge by (by rewrite length_replicate).
    rewrite Nat.sub_diag. simpl. by rewrite app_nil_r.
  - rewrite insert_replicate_lt by lia.
    by replace (m - j)%nat with (S (m - S j)) by lia.
Qed.

Lemma set_closing closer k a b p :
  (a < b)%nat -> (b <= k)%nat ->
  <[b := 1]> (<[a := p]> (closing_labels closer k))
  = segment closer a b p ++ closing_labels 1 (k - b).
Proof.
  intros Hab Hbk. destruct k as [|k]; [lia|]. destruct b as [|b]; [lia|].
  unfold segment. destruct a as [|a]; cbn [closing_labels].
  - simpl. rewrite insert_rests by lia. by rewrite Nat.sub_0_r.
  - simpl. rewrite insert_replicate_lt by lia.
    rewrite insert_app_r_alt by (rewrite length_replicate; lia).
    rewrite length_replicate. replace (b - a)%nat with (S (b - a - 1)) by lia.
    simpl. rewrite insert_rests by lia. rewrite <- app_assoc. simpl.
    replace (b - a - 1 - 0)%nat with (b - a - 1)%nat by lia.
    by replace (k - S a - (b - a - 1))%nat with (k - b)%nat by lia.
Qed.

Lemma set1_app Q X v i :
  - 2 ^ 31 <= v < 2 ^ 31 -> (length Q <= Z.to_nat i)%nat -> 0 <= i ->
  tf.set1 v i (Q ++ X) = Q ++ <[(Z.to_nat i - length Q)%nat := v]> X.
Proof.
  intros Hv Hi H0. unfold tf.set1, tf.set_index. rewrite int32_small by done.
  replace (0 <=? i) with true by lia. by apply insert_app_r_alt.
Qed.

Section melody_round_trip.
Variable c : MelodyConverter.t.
Variable N : nat.
Hypothesis depth_eq :
  MelodyConverter.depth c
  = MelodyConverter.maxPitch c - MelodyConverter.minPitch c + 3.
Hypothesis depth_int32 : MelodyConverter.depth c <= 2 ^ 31.

Lemma valid_rests k : Forall (valid_label c) (replicate k 0).
Proof. apply Forall_replicate. by right. Qed.

Lemma encode_then_decode l : forall Q e curr lastEnd,
  Forall (pitch_in_range c) l ->
  Forall (fun n => 0 <= quantizedStartStep n < quantizedEndStep n
                   /\ quantizedEndStep n <= Z.of_nat N) l ->
  overlap_from lastEnd l = false ->
  length Q = e -> (e <= N)%nat ->
  match curr with
  | Some _ => lastEnd = Z.of_nat e /\ 3 <= MelodyConverter.depth c
  | None => lastEnd = -1 /\ e = O
  end ->
  exists T' lastEnd',
    forEach (MelodyConverter.encode_note c) l
      (Q ++ closing_labels (closer_of curr) (N - e), lastEnd)
    = Ok (Q ++ T', lastEnd')
    /\ Forall (valid_label c) T'
    /\ forall out,
         decode_end (MelodyConverter.decode_labels c T' e (curr, out))
         = out ++ closed curr e ++ map melody_note l.
Proof.
  induction l as [|n l IH]; intros Q e curr lastEnd Hr Hb Hov HQ He Hcurr.
  - exists (closing_labels (closer_of curr) (N - e)), lastEnd.
    split; [done|]. split.
    + destruct (N - e)%nat as [|k]; [constructor|]. simpl.
      constructor; [|apply valid_rests].
      destruct curr; simpl; [left; lia|by right].
    + intros out. rewrite decode_closing. simpl. by rewrite app_nil_r.
  - apply Forall_cons in Hr as [Hn Hr']. apply Forall_cons in Hb as [Hnb Hb'].
    unfold pitch_in_range in Hn. cbn [overlap_from] in Hov.
    apply orb_false_iff in Hov as [Hstart Hov'].
    subst e.
    assert (Hse : (length Q <= Z.to_nat (quantizedStartStep n))%nat).
    { destruct curr; destruct Hcurr; lia. }
    remember (Z.to_nat (quantizedStartStep n) - length Q)%nat as a eqn:Ha.
    remember (Z.to_nat (quantizedEndStep n) - length Q)%nat as b eqn:Hb.
    remember (pitch n - MelodyConverter.minPitch c + MelodyConverter.FIRST_PITCH)
      as p eqn:Hp.
    assert (Hp' : 2 <= p < MelodyConverter.depth c).
    { unfold MelodyConverter.FIRST_PITCH in Hp. lia. }
    rewrite forEach_cons, encode_note_eq. rewrite Hstart.
    replace (pitch n <? MelodyConverter.minPitch c) with false by lia.
    replace (MelodyConverter.maxPitch c <? pitch n) with false by lia.
    cbn [orb mbind result_bind]. rewrite <- Hp.
    rewrite (set1_app Q _ p) by lia. rewrite <- Ha.
    rewrite (set1_app Q _ MelodyConverter.NOTE_OFF)
      by (unfold MelodyConverter.NOTE_OFF; lia).
    rewrite <- Hb. unfold MelodyConverter.NOTE_OFF.
    rewrite set_closing by lia. rewrite app_assoc.
    replace (N - length Q - b)%nat with (N - (length Q + b))%nat by lia.
    assert (Hseg : length (segment (closer_of curr) a b p) = b).
    { unfold segment. rewrite length_app.
      destruct a as [|a']; simpl; rewrite ?length_replicate; lia. }
    destruct (IH (Q ++ segment (closer_of curr) a b p) (length Q + b)%nat
                (Some (open_note n)) (quantizedEndStep n))
      as (T2 & lastEnd' & Henc & Hvalid & Hdec).
    { exact Hr'. }
    { exact Hb'. }
    { exact Hov'. }
    { rewrite length_app. by rewrite Hseg. }
    { lia. }
    { split; lia. }
    exists (segment (closer_of curr) a b p ++ T2), lastEnd'. split; [|split].
    + cbn [closer_of] in Henc. rewrite Henc. by rewrite <- app_assoc.
    + apply Forall_app. split; [|done]. unfold segment. apply Forall_app. split.
      * destruct a as [|a']; [constructor|]. constructor; [|apply valid_rests].
        destruct curr; simpl; [left; lia|by right].
      * constructor; [left; lia|apply valid_rests].
    + intros out. rewrite decode_labels_app, decode_segment by lia.
      cbn [fst snd].
      replace (Note_create (p - MelodyConverter.FIRST_PITCH + MelodyConverter.minPitch c)
                 (Z.of_nat (length Q + a)) 0 false) with (open_note n).
      2:{ unfold open_note. f_equal; lia. }
      rewrite Hdec. rewrite <- app_assoc. f_equal. f_equal. simpl. f_equal.
      unfold melody_note, set_quantizedEndStep, open_note, Note_create. simpl.
      f_equal. lia.
Qed.

End melody_round_trip.

Lemma closing_rests k : closing_labels 0 k = replicate k 0.
Proof. by destruct k. Qed.

(** The round trip of a melody, as the list of the decoded notes. *)
Lemma melody_round_trip_notes (args : MelodyConverterArgs.t) (ns : NoteSequence) :
  let c := MelodyConverter.new args in
  2 <= MelodyConverter.depth c <= 2 ^ 31 ->
  encodable_melody c (numSteps_or (MelodyConverter.numSteps c) ns) (notes ns) ->
  exists t,
    snd (MelodyConverter.toTensor c ns) = Ok t
    /\ notes (MelodyConverter.toNoteSequence c t)
       = map melody_note (sort_by_start (notes ns)).
Proof.
  intros c [Hd2 Hd32] (Hmono & Hrange & Hbounds).
  set (numSteps := numSteps_or (MelodyConverter.numSteps c) ns) in *.
  assert (Hd : MelodyConverter.depth c
               = MelodyConverter.maxPitch c - MelodyConverter.minPitch c + 3).
  { unfold c, MelodyConverter.new, MelodyConverter.FIRST_PITCH. simpl. lia. }
  destruct (encode_then_decode c numSteps Hd Hd32 (sort_by_start (notes ns))
              [] O None (-1))
    as (T' & lastEnd' & Henc & Hvalid & Hdec).
  { by apply sort_by_start_Forall. }
  { by apply sort_by_start_Forall. }
  { apply monophonic_no_overlap; [done|].
    eapply Forall_impl; [exact Hbounds|]. simpl. intros n ?. lia. }
  { done. }
  { lia. }
  { done. }
  cbn [closer_of app] in Henc. rewrite Nat.sub_0_r, closing_rests in Henc.
  exists (tf.oneHot_rows T' (MelodyConverter.depth c)). split.
  { rewrite melody_toTensor_snd. fold numSteps. unfold tf.buffer. rewrite Henc.
    cbn [mbind result_bind]. by apply oneHot_ok. }
  rewrite melody_toNoteSequence_notes, argMax_oneHot by exact Hvalid.
  by rewrite Hdec.
Qed.

Lemma map_key_melody_note l : map key (map melody_note l) = map key l.
Proof. rewrite map_map. by apply map_ext. Qed.

(** C1. For a [MelodyConverter] (of a depth from 2, which [tf.oneHot] needs,
    to 2^31, its labels being int32 values) and a sequence that is
    monophonic (no two of its notes overlap), whose pitches are all from
    [minPitch] to [maxPitch] and whose notes all have
    [0 <= quantizedStartStep < quantizedEndStep <= numSteps], [toTensor]
    returns a tensor and [toNoteSequence] makes of it the notes of the
    sequence, each with its pitch, its start step and its end step: no note
    more, none less. They come in the order of their start steps, which is
    the order a stable sort by start step gives the notes of the
    sequence. *)
Theorem C1_melody_round_trip (args : MelodyConverterArgs.t) (ns : NoteSequence) :
  let c := MelodyConverter.new args in
  let numSteps := numSteps_or (MelodyConverter.numSteps c) ns in
  2 <= MelodyConverter.depth c <= 2 ^ 31 ->
  monophonic (notes ns) ->
  Forall (pitch_in_range c) (notes ns) ->
  Forall (fun n => 0 <= quantizedStartStep n < quantizedEndStep n
                   /\ quantizedEndStep n <= Z.of_nat numSteps) (notes ns) ->
  exists t,
    snd (MelodyConverter.toTensor c ns) = Ok t
    /\ let out := notes (MelodyConverter.toNoteSequence c t) in
       Permutation (map key out) (map key (notes ns))
       /\ ascending out
       /\ forall l', sorted_by_start (notes ns) l' -> map key out = map key l'.
Proof.
  intros c numSteps Hd Hmono Hrange Hbounds.
  destruct (melody_round_trip_notes args ns Hd) as (t & Ht & Hout); [by split|].
  exists t. split; [exact Ht|]. cbv zeta. fold c in Hout. rewrite Hout.
  rewrite map_key_melody_note. split; [|split].
  - apply Permutation_map, sort_by_start_perm.
  - apply ascending_map; [done|]. apply sort_by_start_ascending.
  - intros l' Hsorted. by apply sorted_by_start_unique in Hsorted as ->.
Qed.

(** Closes [monophonic l] for an explicit list [l] of at most four notes. *)
Ltac monophonic_notes :=
  intros i j n m Hij Hn Hm;
  do 5 (try (destruct i as [|i])); try discriminate Hn;
  do 5 (try (destruct j as [|j])); try discriminate Hm; try done;
  injection Hn as <-; injection Hm as <-; simpl; lia.

Lemma C1_melody_round_trip_witness :
  exists t,
    snd (MelodyConverter.toTensor piano_8 three_notes) = Ok t
    /\ let out := notes (MelodyConverter.toNoteSequence piano_8 t) in
       Permutation (map key out) [(64, 6, 8); (60, 0, 2); (62, 2, 5)]
       /\ ascending out
       /\ forall l', sorted_by_start (notes three_notes) l' -> map key out = map key l'.
Proof.
  apply (C1_melody_round_trip
           (MelodyConverterArgs.make (Some 8%nat) None 21 108) three_notes).
  - by vm_compute.
  - monophonic_notes.
  - forall_notes.
  - simpl. repeat (apply List.Forall_cons; [simpl; lia|]). apply List.Forall_nil.
Defined.

(** * Further properties *)

(** ** The map from pitches to classes, exactly *)

Lemma unmapped_not_mapped classes q : unmapped classes q <-> ~ mapped classes q.
Proof. unfold unmapped, mapped. apply Forall_Exists_neg. Qed.

Lemma set_classes_lookup_Some classes : forall k0 (m : gmap Z nat) q k,
  DrumsConverter.set_classes k0 classes m !! q = Some k
  <-> (exists j cls, k = (k0 + j)%nat /\ classes !! j = Some cls /\ In q cls
                     /\ in_no_later_class classes j q)
      \/ (m !! q = Some k /\ unmapped classes q).
Proof.
  induction classes as [|ps classes IH]; intros k0 m q k.
  - simpl. split.
    + intros H. right. split; [done|constructor].
    + intros [(j & cls & _ & H & _)|[H _]]; done.
  - cbn [DrumsConverter.set_classes]. rewrite IH. split.
    + intros [(j & cls & -> & Hj & Hq & Hlater)|[Hm Hun]].
      * left. exists (S j), cls. repeat split; [lia|done..].
      * destruct (in_dec Z.eq_dec q ps) as [Hin|Hnin].
        -- rewrite foldl_insert_in in Hm by done. injection Hm as <-.
           left. exists O, ps. repeat split; [lia|done..].
        -- rewrite foldl_insert_notin in Hm by done. right. split; [done|].
           by constructor.
    + intros [(j & cls & -> & Hj & Hq & Hlater)|[Hm Hun]].
      * destruct j as [|j]; simpl in Hj.
        -- injection Hj as ->. right. split; [|exact Hlater].
           rewrite foldl_insert_in by done. f_equal. lia.
        -- left. exists j, cls. repeat split; [lia|done..].
      * apply Forall_cons in Hun as [Hnin Hun]. right. split; [|done].
        by rewrite foldl_insert_notin.
Qed.

Lemma pitchToClass_Some args q k :
  let c := DrumsConverter.new args in
  DrumsConverter.pitchToClass c !! q = Some k
  <-> exists cls, DrumsConverter.pitchClasses c !! k = Some cls /\ In q cls
                  /\ in_no_later_class (DrumsConverter.pitchClasses c) k q.
Proof.
  intros c. unfold c, DrumsConverter.new. cbn [DrumsConverter.pitchToClass
    DrumsConverter.pitchClasses]. rewrite set_classes_lookup_Some. split.
  - intros [(j & cls & -> & H)|[H _]]; [by exists cls|done].
  - intros (cls & H). left. by exists k, cls.
Qed.

Lemma pitchToClass_None args q :
  let c := DrumsConverter.new args in
  DrumsConverter.pitchToClass c !! q = None
  <-> unmapped (DrumsConverter.pitchClasses c) q.
Proof.
  intros c. split.
  - intros Hnone. apply unmapped_not_mapped. intros Hm.
    assert (Hsome : is_Some (DrumsConverter.pitchToClass c !! q)).
    { apply set_classes_mapped. by left. }
    rewrite Hnone in Hsome. by destruct Hsome.
  - intros Hun. destruct (DrumsConverter.pitchToClass c !! q) as [k|] eqn:E; [|done].
    apply pitchToClass_Some in E as (cls & Hcls & Hq & _). exfalso.
    unfold unmapped in Hun. rewrite List.Forall_forall in Hun.
    apply (Hun cls); [|done]. apply list_elem_of_In. by eapply list_elem_of_lookup_2.
Qed.

(** X1. The map the constructor of [DrumsConverter] builds gives a pitch the
    last class of the table that lists it, and nothing to a pitch that no
    class lists. *)
Theorem X1_pitchToClass_last_class (args : DrumsConverterArgs.t) (q : Z) :
  let c := DrumsConverter.new args in
  (forall k,
     DrumsConverter.pitchToClass c !! q = Some k
     <-> exists cls, DrumsConverter.pitchClasses c !! k = Some cls /\ In q cls
                     /\ in_no_later_class (DrumsConverter.pitchClasses c) k q)
  /\ (DrumsConverter.pitchToClass c !! q = None
      <-> unmapped (DrumsConverter.pitchClasses c) q)
  /\ DrumsConverter.depth c = Z.of_nat (length (DrumsConverter.pitchClasses c)).
Proof.
  intros c. split; [|split].
  - intros k. apply pitchToClass_Some.
  - apply pitchToClass_None.
  - reflexivity.
Qed.

Lemma distinct_no_later_class classes : forall k cls q,
  distinct_pitches classes -> classes !! k = Some cls -> In q cls ->
  in_no_later_class classes k q.
Proof.
  unfold distinct_pitches, in_no_later_class.
  induction classes as [|ps classes IH]; intros k cls q Hnd Hk Hq; [done|].
  simpl in Hnd. apply NoDup_app in Hnd as (_ & Hdisj & Hnd).
  destruct k as [|k]; simpl in *.
  - injection Hk as ->. apply List.Forall_forall. intros cls' Hcls' Hq'.
    apply (Hdisj q); [by apply list_elem_of_In|].
    apply list_elem_of_In, in_concat. by exists cls'.
  - by eapply IH.
Qed.

(** X2. When no pitch is listed twice in the table, the map of the
    converter gives every listed pitch the class that lists it; the first
    pitch of a class, which decoding puts in a note for the class, is given
    the class back. *)
Theorem X2_class_of_listed_pitch (args : DrumsConverterArgs.t) (k : nat)
    (cls : list Z) (q : Z) :
  let c := DrumsConverter.new args in
  distinct_pitches (DrumsConverter.pitchClasses c) ->
  DrumsConverter.pitchClasses c !! k = Some cls ->
  (In q cls -> DrumsConverter.pitchToClass c !! q = Some k)
  /\ (cls <> [] ->
      DrumsConverter.pitchToClass c !! DrumsConverter.firstPitch c k = Some k).
Proof.
  intros c Hnd Hk.
  assert (H : forall q, In q cls -> DrumsConverter.pitchToClass c !! q = Some k).
  { intros q' Hq. apply pitchToClass_Some. exists cls. split; [done|]. split; [done|].
    by eapply distinct_no_later_class. }
  split; [apply H|]. intros Hne. apply H. unfold DrumsConverter.firstPitch.
  rewrite Hk. destruct cls as [|x cls]; [done|]. by left.
Qed.

Lemma X2_class_of_listed_pitch_witness :
  DrumsConverter.pitchToClass (DrumsConverter.new default_drums) !! 40 = Some 1%nat
  /\ DrumsConverter.pitchToClass (DrumsConverter.new default_drums) !! 38 = Some 1%nat.
Proof.
  destruct (X2_class_of_listed_pitch default_drums 1
              [38; 27; 28; 31; 32; 33; 34; 37; 39; 40; 56; 65; 66; 75; 85] 40)
    as [H1 H2].
  - apply (bool_decide_unpack _). by vm_compute.
  - reflexivity.
  - split; [apply H1; simpl; tauto|]. by apply H2.
Defined.

(** ** DrumsConverter.toTensor: the drum roll, column by column *)

Lemma set_index_lookup v i values j :
  tf.set_index v i values !! j
  = if decide (i = Some (Z.of_nat j) /\ (j < length values)%nat)
    then Some v else values !! j.
Proof.
  unfold tf.set_index. destruct i as [i|]; [|by rewrite decide_False by (by intros [? _])].
  destruct (Z.leb_spec 0 i).
  - rewrite list_lookup_insert.
    destruct (decide (Some i = Some (Z.of_nat j) /\ (j < length values)%nat))
      as [[[= ->] Hlt]|Hn].
    + by rewrite decide_True by (split; lia).
    + rewrite decide_False; [done|]. intros [E Hlt]. apply Hn.
      split; [f_equal; lia|lia].
  - rewrite decide_False; [done|]. intros [[= ->] _]. lia.
Qed.

Lemma apply_writes_length ws : forall values,
  length (apply_writes values ws) = length values.
Proof.
  induction ws as [|w ws IH]; intros values; simpl; [done|].
  unfold apply_writes in *. simpl. by rewrite IH, set_index_length.
Qed.

Lemma apply_writes_app values ws1 ws2 :
  apply_writes values (ws1 ++ ws2) = apply_writes (apply_writes values ws1) ws2.
Proof. unfold apply_writes. apply foldl_app. Qed.

(** A buffer element that no write addresses keeps its value. *)
Lemma apply_writes_miss ws j : forall values,
  Forall (fun w => snd w <> Some (Z.of_nat j)) ws ->
  apply_writes values ws !! j = values !! j.
Proof.
  induction ws as [|w ws IH]; intros values H; [done|].
  apply Forall_cons in H as [Hw H]. unfold apply_writes in *. cbn [foldl].
  rewrite IH by done. rewrite set_index_lookup.
  rewrite decide_False; [done|]. by intros [? _].
Qed.

(** A buffer element that some write addresses, all writes that address it
    writing [v], holds [v]. *)
Lemma apply_writes_hit ws j v : forall values,
  (j < length values)%nat ->
  Exists (fun w => snd w = Some (Z.of_nat j)) ws ->
  Forall (fun w => snd w = Some (Z.of_nat j) -> fst w = v) ws ->
  apply_writes values ws !! j = Some v.
Proof.
  induction ws as [|w ws IH]; intros values Hj Hex Hall; [by inversion Hex|].
  apply Forall_cons in Hall as [Hw Hall].
  change (apply_writes values (w :: ws))
    with (apply_writes (tf.set_index (fst w) (snd w) values) ws).
  destruct (Exists_dec (fun w => snd w = Some (Z.of_nat j)) ws) as [Hex'|Hnex].
  - apply IH; [by rewrite set_index_length|done|done].
  - rewrite apply_writes_miss by (by apply Forall_Exists_neg).
    apply Exists_cons in Hex as [Hhit|]; [|done].
    rewrite set_index_lookup, decide_True by done. f_equal. by apply Hw.
Qed.

Lemma drums_steps_fold width steps values :
  foldl (fun b i => tf.set2 width 1 (Z.of_nat i) (Some (-1)) b) values steps
  = apply_writes values (step_writes width steps).
Proof.
  revert values. induction steps as [|i steps IH]; intros values; [done|].
  simpl. rewrite IH. done.
Qed.

Lemma drums_notes_fold c width l values :
  foldl (DrumsConverter.encode_note c width) values l
  = apply_writes values (note_writes c width l).
Proof.
  revert values. induction l as [|n l IH]; intros values; [done|].
  simpl. rewrite IH. done.
Qed.

Lemma toTensor2D_lookup rows width : forall values s,
  length values = (rows * width)%nat -> (s < rows)%nat ->
  exists row,
    tf.toTensor2D rows width values !! s = Some row
    /\ length row = width
    /\ forall j, (j < width)%nat -> row !! j = values !! (s * width + j)%nat.
Proof.
  induction rows as [|r IH]; intros values s Hlen Hs; [lia|].
  destruct s as [|s]; cbn [tf.toTensor2D].
  - exists (take width values). split; [done|]. split; [rewrite length_take; lia|].
    intros j Hj. by rewrite lookup_take_lt.
  - destruct (IH (drop width values) s) as (row & Hrow & Hw & Hlook).
    { rewrite length_drop. lia. }
    { lia. }
    exists row. split; [done|]. split; [done|]. intros j Hj.
    rewrite Hlook by done. rewrite lookup_drop. f_equal. lia.
Qed.

Lemma drums_toTensor_snd c ns :
  snd (DrumsConverter.toTensor c ns)
  = Ok (tf.toTensor2D (numSteps_or (DrumsConverter.numSteps c) ns)
          (S (length (DrumsConverter.pitchClasses c)))
          (apply_writes
             (tf.buffer (numSteps_or (DrumsConverter.numSteps c) ns
                         * S (length (DrumsConverter.pitchClasses c))))
             (step_writes (S (length (DrumsConverter.pitchClasses c)))
                (seq 0 (numSteps_or (DrumsConverter.numSteps c) ns))
              ++ note_writes c (S (length (DrumsConverter.pitchClasses c)))
                   (notes ns)))).
Proof.
  unfold DrumsConverter.toTensor. cbn [snd].
  by rewrite drums_steps_fold, drums_notes_fold, apply_writes_app.
Qed.

Lemma new_class_bound args q k :
  DrumsConverter.pitchToClass (DrumsConverter.new args) !! q = Some k ->
  (k < length (DrumsConverter.pitchClasses (DrumsConverter.new args)))%nat.
Proof.
  intros H. apply pitchToClass_Some in H as (cls & Hk & _).
  by eapply lookup_lt_Some.
Qed.

(** The element of the roll at row [s] and column [j]. *)
Lemma drums_roll_element args ns s j :
  let c := DrumsConverter.new args in
  let numSteps := numSteps_or (DrumsConverter.numSteps c) ns in
  let width := S (length (DrumsConverter.pitchClasses c)) in
  (s < numSteps)%nat -> (j < width)%nat ->
  exists t row,
    snd (DrumsConverter.toTensor c ns) = Ok t
    /\ t !! s = Some row
    /\ length row = width
    /\ row !! j
       = apply_writes (tf.buffer (numSteps * width))
           (step_writes width (seq 0 numSteps) ++ note_writes c width (notes ns))
         !! (s * width + j)%nat.
Proof.
  intros c numSteps width Hs Hj.
  destruct (toTensor2D_lookup numSteps width
    (apply_writes (tf.buffer (numSteps * width))
       (step_writes width (seq 0 numSteps) ++ note_writes c width (notes ns))) s)
    as (row & Hrow & Hwidth & Hlook); [|done|].
  { rewrite apply_writes_length. unfold tf.buffer. by rewrite length_replicate. }
  eexists _, row. split; [apply drums_toTensor_snd|]. split; [exact Hrow|].
  split; [exact Hwidth|]. by apply Hlook.
Qed.

Lemma index_unique W a b x y :
  0 <= x < W -> 0 <= y < W -> x + W * a = y + W * b -> a = b /\ x = y.
Proof. intros Hx Hy H. assert (a = b) by nia. subst. lia. Qed.

Lemma existsb_starts_at s l :
  existsb (starts_at s) l = true
  <-> exists n, In n l /\ quantizedStartStep n = Z.of_nat s.
Proof.
  rewrite existsb_exists. unfold starts_at. split.
  - intros (n & Hn & H). exists n. split; [done|lia].
  - intros (n & Hn & H). exists n. split; [done|lia].
Qed.

Section drum_roll.
Variable args : DrumsConverterArgs.t.
Variable ns : NoteSequence.
Let c := DrumsConverter.new args.
Let numSteps := numSteps_or (DrumsConverter.numSteps c) ns.
Let len := length (DrumsConverter.pitchClasses c).
Let width := S len.

(** Which writes address the element at row [s] and column [j]. *)
Lemma step_write_hits steps s j w :
  (j < width)%nat -> In w (step_writes width steps) ->
  snd w = Some (Z.of_nat (s * width + j)) ->
  fst w = 1 /\ j = len /\ In (S s) steps.
Proof.
  intros Hj Hin Hw. apply in_map_iff in Hin as (i & <- & Hi).
  cbn [fst snd] in Hw |- *. injection Hw as Hw.
  destruct (index_unique (Z.of_nat width) (Z.of_nat i - 1) (Z.of_nat s)
              (Z.of_nat width - 1) (Z.of_nat j)) as [H1 H2]; [lia|lia|nia|].
  split; [done|]. split; [unfold width in *; lia|].
  by replace (S s) with i by lia.
Qed.

Lemma note_write_hits l s j w :
  (j < width)%nat -> In w (note_writes c width l) ->
  snd w = Some (Z.of_nat (s * width + j)) ->
  (fst w = 1 /\ (j < len)%nat
   /\ exists n, In n l /\ quantizedStartStep n = Z.of_nat s
                /\ DrumsConverter.pitchToClass c !! pitch n = Some j)
  \/ (fst w = 0 /\ j = len
      /\ exists n, In n l /\ quantizedStartStep n = Z.of_nat (S s)).
Proof.
  intros Hj Hin Hw.
  apply in_flat_map in Hin as (n & Hn & [<-|[<-|[]]]); cbn [fst snd] in Hw |- *.
  - left. destruct (DrumsConverter.pitchToClass c !! pitch n) as [k|] eqn:Hk;
      cbn [option_map] in Hw; [|done].
    injection Hw as Hw.
    pose proof (new_class_bound args _ _ Hk) as Hlt. fold c len in Hlt.
    destruct (index_unique (Z.of_nat width) (quantizedStartStep n) (Z.of_nat s)
                (Z.of_nat k) (Z.of_nat j)) as [H1 H2];
      [unfold width; lia|lia|nia|].
    assert (k = j) by lia. subst k. split; [done|]. split; [done|]. by exists n.
  - right. injection Hw as Hw.
    destruct (index_unique (Z.of_nat width) (quantizedStartStep n - 1) (Z.of_nat s)
                (Z.of_nat width - 1) (Z.of_nat j)) as [H1 H2]; [lia|lia|nia|].
    split; [done|]. split; [unfold width in *; lia|]. exists n. split; [done|lia].
Qed.

Lemma drums_roll_class_column s k :
  (s < numSteps)%nat -> (k < len)%nat ->
  apply_writes (tf.buffer (numSteps * width))
    (step_writes width (seq 0 numSteps) ++ note_writes c width (notes ns))
  !! (s * width + k)%nat
  = Some (if existsb (hit_at c s k) (notes ns) then 1 else 0).
Proof.
  intros Hs Hk.
  assert (Hidx : (s * width + k < numSteps * width)%nat) by (unfold width; nia).
  rewrite apply_writes_app.
  destruct (existsb (hit_at c s k) (notes ns)) eqn:E.
  - apply existsb_hit_at in E as (n & Hn & Hstart & Hcls).
    apply apply_writes_hit.
    + rewrite apply_writes_length. unfold tf.buffer. by rewrite length_replicate.
    + apply List.Exists_exists.
      exists (1, Some (Z.of_nat k + Z.of_nat width * quantizedStartStep n)).
      split; [|simpl; f_equal; nia].
      apply in_flat_map. exists n. split; [done|]. left. by rewrite Hcls.
    + apply List.Forall_forall. intros w Hw Hhit.
      destruct (note_write_hits (notes ns) s k w) as [(H & _)|(_ & H & _)];
        [unfold width; lia|done|done|done|lia].
  - rewrite !apply_writes_miss.
    + unfold tf.buffer. by rewrite lookup_replicate_2.
    + apply List.Forall_forall. intros w Hw Hhit.
      destruct (step_write_hits (seq 0 numSteps) s k w) as (_ & H & _);
        [unfold width; lia|done|done|lia].
    + apply List.Forall_forall. intros w Hw Hhit.
      destruct (note_write_hits (notes ns) s k w) as [(_ & _ & H)|(_ & H & _)];
        [unfold width; lia|done|done| |lia].
      apply existsb_hit_at in H. congruence.
Qed.

Lemma drums_roll_last_column s :
  (s < numSteps)%nat ->
  apply_writes (tf.buffer (numSteps * width))
    (step_writes width (seq 0 numSteps) ++ note_writes c width (notes ns))
  !! (s * width + len)%nat
  = Some (if existsb (starts_at (S s)) (notes ns) then 0
          else if (S s <? numSteps)%nat then 1 else 0).
Proof.
  intros Hs.
  assert (Hidx : (s * width + len < numSteps * width)%nat) by (unfold width; nia).
  assert (Hlen : forall ws,
    (s * width + len < length (apply_writes (tf.buffer (numSteps * width)) ws))%nat).
  { intros ws. rewrite apply_writes_length. unfold tf.buffer. by rewrite length_replicate. }
  rewrite apply_writes_app.
  destruct (existsb (starts_at (S s)) (notes ns)) eqn:E.
  - apply existsb_starts_at in E as (n & Hn & Hstart).
    apply apply_writes_hit; [apply Hlen| |].
    + apply List.Exists_exists.
      exists (0, Some (-1 + Z.of_nat width * quantizedStartStep n)).
      split; [|simpl; f_equal; unfold width; nia].
      apply in_flat_map. exists n. split; [done|]. right. by left.
    + apply List.Forall_forall. intros w Hw Hhit.
      destruct (note_write_hits (notes ns) s len w) as [(_ & H & _)|(H & _)];
        [unfold width; lia|done|done|lia|done].
  - rewrite apply_writes_miss.
    2:{ apply List.Forall_forall. intros w Hw Hhit.
        destruct (note_write_hits (notes ns) s len w) as [(_ & H & _)|(_ & _ & H)];
          [unfold width; lia|done|done|lia|].
        apply existsb_starts_at in H. congruence. }
    destruct (Nat.ltb_spec (S s) numSteps) as [Hlt|Hge].
    + apply apply_writes_hit.
      * unfold tf.buffer. by rewrite length_replicate.
      * apply List.Exists_exists.
        exists (1, Some (-1 + Z.of_nat width * Z.of_nat (S s))).
        split; [|simpl; f_equal; unfold width; nia].
        apply in_map_iff. exists (S s). split; [done|]. apply in_seq. lia.
      * apply List.Forall_forall. intros w Hw Hhit.
        by destruct (step_write_hits (seq 0 numSteps) s len w) as (H & _);
          [unfold width; lia|done|done|].
    + rewrite apply_writes_miss.
      * unfold tf.buffer. by rewrite lookup_replicate_2.
      * apply List.Forall_forall. intros w Hw Hhit.
        destruct (step_write_hits (seq 0 numSteps) s len w) as (_ & _ & H);
          [unfold width; lia|done|done|].
        apply in_seq in H. lia.
Qed.

End drum_roll.

(** X3. In the drum roll of [DrumsConverter.toTensor], the column of a class
    holds at a step 1 if a note of the sequence starts at the step with a
    pitch the map gives this class, and 0 if none does: whatever the notes,
    also those that start outside the roll or have a pitch of no class. *)
Theorem X3_drum_roll_class_column (args : DrumsConverterArgs.t) (ns : NoteSequence)
    (s k : nat) :
  let c := DrumsConverter.new args in
  (s < numSteps_or (DrumsConverter.numSteps c) ns)%nat ->
  (k < length (DrumsConverter.pitchClasses c))%nat ->
  exists t row,
    snd (DrumsConverter.toTensor c ns) = Ok t
    /\ t !! s = Some row
    /\ row !! k = Some (if existsb (hit_at c s k) (notes ns) then 1 else 0).
Proof.
  intros c Hs Hk. subst c.
  destruct (drums_roll_element args ns s k) as (t & row & Ht & Hrow & _ & Hel);
    [done|lia|].
  exists t, row. split; [done|]. split; [done|].
  rewrite Hel. by apply drums_roll_class_column.
Qed.

Lemma X3_drum_roll_class_column_witness :
  exists t row,
    snd (DrumsConverter.toTensor (DrumsConverter.new default_drums) kick_then_snare)
    = Ok t
    /\ t !! 2%nat = Some row /\ row !! 1%nat = Some 1.
Proof.
  destruct (X3_drum_roll_class_column default_drums kick_then_snare 2 1)
    as (t & row & Ht & Hrow & Hk).
  - simpl. lia.
  - simpl. lia.
  - exists t, row. split; [exact Ht|]. split; [exact Hrow|]. rewrite Hk. reflexivity.
Defined.

(** X4. The last column of the drum roll holds at step [s] what the two
    loops of [toTensor] write at the index -1 of step [s + 1], the element
    just before the row of that step: 1 if [s + 1] is a step of the roll at
    which no note starts, and 0 otherwise. It is not the NOR of the class
    columns of step [s]. *)
Theorem X4_drum_roll_last_column (args : DrumsConverterArgs.t) (ns : NoteSequence)
    (s : nat) :
  let c := DrumsConverter.new args in
  let numSteps := numSteps_or (DrumsConverter.numSteps c) ns in
  (s < numSteps)%nat ->
  exists t row,
    snd (DrumsConverter.toTensor c ns) = Ok t
    /\ t !! s = Some row
    /\ length row = S (length (DrumsConverter.pitchClasses c))
    /\ row !! length (DrumsConverter.pitchClasses c)
       = Some (if existsb (starts_at (S s)) (notes ns) then 0
               else if (S s <? numSteps)%nat then 1 else 0).
Proof.
  intros c numSteps Hs. subst c numSteps.
  destruct (drums_roll_element args ns s
              (length (DrumsConverter.pitchClasses (DrumsConverter.new args))))
    as (t & row & Ht & Hrow & Hwidth & Hel); [done|lia|].
  exists t, row. split; [done|]. split; [done|]. split; [done|].
  rewrite Hel. by apply drums_roll_last_column.
Qed.

Lemma X4_drum_roll_last_column_witness :
  exists t row0 row1 row3,
    snd (DrumsConverter.toTensor (DrumsConverter.new default_drums) kick_then_snare)
    = Ok t
    /\ t !! 0%nat = Some row0 /\ row0 !! 9%nat = Some 1
    /\ t !! 1%nat = Some row1 /\ row1 !! 9%nat = Some 0
    /\ t !! 3%nat = Some row3 /\ row3 !! 9%nat = Some 0.
Proof.
  destruct (X4_drum_roll_last_column default_drums kick_then_snare 0)
    as (t & row0 & Ht & Hrow0 & _ & H0); [simpl; lia|].
  destruct (X4_drum_roll_last_column default_drums kick_then_snare 1)
    as (t1 & row1 & Ht1 & Hrow1 & _ & H1); [simpl; lia|].
  destruct (X4_drum_roll_last_column default_drums kick_then_snare 3)
    as (t3 & row3 & Ht3 & Hrow3 & _ & H3); [simpl; lia|].
  rewrite Ht in Ht1, Ht3. injection Ht1 as <-. injection Ht3 as <-.
  exists t, row0, row1, row3. repeat split; done.
Defined.

(** ** DrumsConverter.toNoteSequence: what it returns *)

Lemma drums_decode_label_drum_note c s label n :
  In n (DrumsConverter.decode_label c s label)
  -> exists p, (p < length (DrumsConverter.pitchClasses c))%nat /\ n = drum_note c s p.
Proof.
  intros H. apply drums_decode_label_In in H as (p & Hp & _ & ->). by exists p.
Qed.

Lemma drums_decode_labels_ascend c labels : forall s,
  starts_ascend (DrumsConverter.decode_labels c labels s)
  /\ Forall (fun n => Z.of_nat s <= quantizedStartStep n)
       (DrumsConverter.decode_labels c labels s).
Proof.
  induction labels as [|label labels IH]; intros s; simpl.
  - split; [by intros i j n m _ H|constructor].
  - destruct (IH (S s)) as [IHa IHb].
    assert (Hhead : Forall (fun n => quantizedStartStep n = Z.of_nat s)
                      (DrumsConverter.decode_label c s label)).
    { apply List.Forall_forall. intros n Hn.
      by apply drums_decode_label_drum_note in Hn as (p & _ & ->). }
    split.
    + intros i j n m Hij Hn Hm.
      rewrite lookup_app in Hn, Hm.
      destruct (DrumsConverter.decode_label c s label !! i) as [n'|] eqn:Ei.
      * injection Hn as <-. rewrite Forall_lookup in Hhead.
        rewrite (Hhead i n' Ei).
        destruct (DrumsConverter.decode_label c s label !! j) as [m'|] eqn:Ej.
        -- injection Hm as <-. by rewrite (Hhead j m' Ej).
        -- rewrite Forall_lookup in IHb. specialize (IHb _ _ Hm). simpl in IHb. lia.
      * destruct (DrumsConverter.decode_label c s label !! j) as [m'|] eqn:Ej.
        -- apply lookup_ge_None in Ei. apply lookup_lt_Some in Ej. lia.
        -- eapply IHa; [|exact Hn|exact Hm].
           apply lookup_ge_None in Ei. apply lookup_ge_None in Ej. lia.
    + apply Forall_app. split.
      * eapply Forall_impl; [exact Hhead|]. simpl. intros n ->. lia.
      * eapply Forall_impl; [exact IHb|]. simpl. intros n ?. lia.
Qed.

(** X5. Whatever the tensor, the notes [DrumsConverter.toNoteSequence]
    returns are drum hits of the steps of the tensor: each is a drum note of
    one step that starts at the index of a row, with the first pitch of one
    of the classes of the converter; and they come in the order of their
    start steps. *)
Theorem X5_drums_toNoteSequence_hits (c : DrumsConverter.t) (oh : tf.Tensor2D) :
  let out := notes (DrumsConverter.toNoteSequence c oh) in
  Forall (fun n =>
            isDrum n = true
            /\ quantizedEndStep n = quantizedStartStep n + 1
            /\ 0 <= quantizedStartStep n < Z.of_nat (length oh)
            /\ exists p, (p < length (DrumsConverter.pitchClasses c))%nat
                         /\ pitch n = DrumsConverter.firstPitch c p) out
  /\ starts_ascend out.
Proof.
  cbv zeta. unfold DrumsConverter.toNoteSequence. cbn [notes set_notes]. split.
  - apply List.Forall_forall. intros n Hn.
    apply drums_decode_labels_In in Hn as (i & label & Hi & Hn).
    apply drums_decode_label_drum_note in Hn as (p & Hp & ->).
    apply lookup_lt_Some in Hi. unfold tf.argMax in Hi. rewrite length_map in Hi.
    simpl. repeat split; try lia. by exists p.
  - apply (drums_decode_labels_ascend c (tf.argMax oh) 0).
Qed.

(** ** DrumRollConverter.toNoteSequence *)

Section drum_roll_decode.
Variable c : DrumsConverter.t.
Let len := length (DrumsConverter.pitchClasses c).

Lemma roll_decode_row_throws s pitches : forall p out e,
  DrumRollConverter.decode_row c s pitches p out = Thrown e ->
  e = UndefinedClass
  /\ exists i v, pitches !! i = Some v /\ v <> 0 /\ (len <= p + i)%nat.
Proof.
  induction pitches as [|v pitches IH]; intros p out e H; [done|].
  cbn [DrumRollConverter.decode_row] in H.
  assert (Hshift : forall q out',
    DrumRollConverter.decode_row c s pitches (S q) out' = Thrown e ->
    e = UndefinedClass
    /\ exists i v0, (v :: pitches) !! i = Some v0 /\ v0 <> 0 /\ (len <= q + i)%nat).
  { intros q out' H'. apply IH in H' as (-> & i & v0 & Hi & Hv & Hle).
    split; [done|]. exists (S i), v0. repeat split; [done|done|lia]. }
  destruct (Z.eqb_spec v 0) as [->|Hv]; [by eapply Hshift|].
  destruct (DrumsConverter.pitchClasses c !! p) eqn:Hp; [by eapply Hshift|].
  injection H as <-. split; [done|]. exists O, v. repeat split; [done|].
  apply lookup_ge_None in Hp. fold len in Hp. lia.
Qed.

Lemma roll_decode_row_returns s pitches : forall p out out',
  DrumRollConverter.decode_row c s pitches p out = Returned out' ->
  (forall i v, pitches !! i = Some v -> v <> 0 -> (p + i < len)%nat)
  /\ exists added,
       out' = out ++ added
       /\ forall n, In n added
            <-> exists i v, pitches !! i = Some v /\ v <> 0
                            /\ n = drum_note c s (p + i).
Proof.
  induction pitches as [|v pitches IH]; intros p out out' H.
  - injection H as <-. split; [done|]. exists []. split; [by rewrite app_nil_r|].
    intros n. split; [done|]. by intros (i & v & H & _).
  - cbn [DrumRollConverter.decode_row] in H.
    destruct (Z.eqb_spec v 0) as [->|Hv].
    + apply IH in H as (Hin & added & -> & Hadded). split.
      * intros [|i] v0 Hi Hv0; simpl in Hi; [congruence|].
        specialize (Hin i v0 Hi Hv0). lia.
      * exists added. split; [done|]. intros n. rewrite Hadded. split.
        -- intros (i & v0 & Hi & Hv0 & ->). exists (S i), v0.
           repeat split; [done|done|]. f_equal. lia.
        -- intros ([|i] & v0 & Hi & Hv0 & ->); simpl in Hi; [congruence|].
           exists i, v0. repeat split; [done|done|]. f_equal. lia.
    + destruct (DrumsConverter.pitchClasses c !! p) eqn:Hp; [|done].
      apply lookup_lt_Some in Hp. fold len in Hp.
      apply IH in H as (Hin & added & -> & Hadded). split.
      * intros [|i] v0 Hi Hv0; simpl in Hi; [lia|].
        specialize (Hin i v0 Hi Hv0). lia.
      * exists (drum_note c s p :: added). split; [by rewrite <- app_assoc|].
        intros n. cbn [In]. rewrite Hadded. split.
        -- intros [<-|(i & v0 & Hi & Hv0 & ->)].
           ++ exists O, v. repeat split; [done|]. f_equal. lia.
           ++ exists (S i), v0. repeat split; [done|done|]. f_equal. lia.
        -- intros ([|i] & v0 & Hi & Hv0 & ->); simpl in Hi.
           ++ left. f_equal. lia.
           ++ right. exists i, v0. repeat split; [done|done|]. f_equal. lia.
Qed.

Lemma roll_decode_rows_throws roll : forall s out e,
  DrumRollConverter.decode_rows c roll s out = Thrown e ->
  e = UndefinedClass /\ hit_outside_classes c roll.
Proof.
  induction roll as [|row roll IH]; intros s out e H; [done|].
  cbn [DrumRollConverter.decode_rows] in H.
  destruct (DrumRollConverter.decode_row c s row 0 out) as [out'|e'] eqn:Hrow.
  - apply IH in H as (-> & s' & p & (row' & v & Hs & Hp & Hv) & Hle).
    split; [done|]. exists (S s'), p. split; [|done]. by exists row', v.
  - injection H as <-.
    apply roll_decode_row_throws in Hrow as (-> & i & v & Hi & Hv & Hle).
    split; [done|]. exists O, i. split; [by exists row, v|]. fold len. lia.
Qed.

Lemma roll_decode_rows_returns roll : forall s out out',
  DrumRollConverter.decode_rows c roll s out = Returned out' ->
  ~ hit_outside_classes c roll
  /\ exists added,
       out' = out ++ added
       /\ forall n, In n added
            <-> exists i p, roll_hit roll i p /\ n = drum_note c (s + i) p.
Proof.
  induction roll as [|row roll IH]; intros s out out' H.
  - injection H as <-. split.
    + by intros (s' & p & (row & v & Hs & _) & _).
    + exists []. split; [by rewrite app_nil_r|]. intros n. split; [done|].
      by intros (i & p & (row & v & Hi & _) & _).
  - cbn [DrumRollConverter.decode_rows] in H.
    destruct (DrumRollConverter.decode_row c s row 0 out) as [out1|e'] eqn:Hrow;
      [|done].
    apply roll_decode_row_returns in Hrow as (Hin & added1 & -> & Hadded1).
    apply IH in H as (Hnot & added2 & -> & Hadded2). split.
    + intros ([|s'] & p & (row' & v & Hs & Hp & Hv) & Hle); simpl in Hs.
      * injection Hs as <-. specialize (Hin p v Hp Hv). fold len in Hle. lia.
      * apply Hnot. exists s', p. split; [by exists row', v|done].
    + exists (added1 ++ added2). split; [by rewrite <- app_assoc|].
      intros n. rewrite in_app_iff, Hadded1, Hadded2. split.
      * intros [(i & v & Hi & Hv & ->)|(i & p & (row' & v & Hs & Hp & Hv) & ->)].
        -- exists O, i. split; [by exists row, v|]. f_equal. lia.
        -- exists (S i), p. split; [by exists row', v|]. f_equal. lia.
      * intros ([|i] & p & (row' & v & Hs & Hp & Hv) & ->); simpl in Hs.
        -- injection Hs as <-. left. exists p, v. repeat split; [done|done|].
           f_equal. lia.
        -- right. exists i, p. split; [by exists row', v|]. f_equal. lia.
Qed.

Lemma flat_map_shift {B} (f : nat -> list B) a n :
  flat_map f (seq (S a) n) = flat_map (fun i => f (S i)) (seq a n).
Proof. revert a. induction n as [|n IH]; intros a; simpl; [done|]. by rewrite IH. Qed.

Lemma roll_decode_row_exact s pitches : forall p out out',
  DrumRollConverter.decode_row c s pitches p out = Returned out' ->
  out' = out ++ flat_map
                  (fun i => if default 0 (pitches !! i) =? 0 then []
                            else [drum_note c s (p + i)])
                  (seq 0 (length pitches)).
Proof.
  induction pitches as [|v pitches IH]; intros p out out' H.
  - injection H as <-. simpl. by rewrite app_nil_r.
  - cbn [DrumRollConverter.decode_row] in H.
    cbn [length seq flat_map]. rewrite flat_map_shift.
    assert (Hext : flat_map
                     (fun i => if default 0 ((v :: pitches) !! S i) =? 0 then []
                               else [drum_note c s (p + S i)])
                     (seq 0 (length pitches))
                   = flat_map
                       (fun i => if default 0 (pitches !! i) =? 0 then []
                                 else [drum_note c s (S p + i)])
                       (seq 0 (length pitches))).
    { apply flat_map_ext. intros i. simpl. by rewrite Nat.add_succ_r. }
    rewrite Hext. simpl. destruct (Z.eqb_spec v 0) as [->|Hv].
    + by apply IH in H.
    + destruct (DrumsConverter.pitchClasses c !! p) eqn:Hp; [|done].
      apply IH in H as ->. rewrite Nat.add_0_r, <- app_assoc. done.
Qed.

Lemma roll_decode_rows_exact roll : forall s out out',
  DrumRollConverter.decode_rows c roll s out = Returned out' ->
  out' = out ++ flat_map (fun i => row_notes c (s + i) (default [] (roll !! i)))
                  (seq 0 (length roll)).
Proof.
  induction roll as [|row roll IH]; intros s out out' H.
  - injection H as <-. simpl. by rewrite app_nil_r.
  - cbn [DrumRollConverter.decode_rows] in H.
    destruct (DrumRollConverter.decode_row c s row 0 out) as [out1|e'] eqn:Hrow;
      [|done].
    apply roll_decode_row_exact in Hrow as ->. apply IH in H as ->.
    cbn [length seq flat_map]. rewrite flat_map_shift, <- app_assoc. f_equal.
    rewrite Nat.add_0_r. f_equal. apply flat_map_ext. intros i. simpl.
    by rewrite Nat.add_succ_r.
Qed.

Lemma roll_toNoteSequence_cases roll :
  roll <> [] ->
  (hit_outside_classes c roll
   /\ DrumRollConverter.toNoteSequence c roll = Thrown UndefinedClass)
  \/ (~ hit_outside_classes c roll
      /\ exists ns,
           DrumRollConverter.toNoteSequence c roll = Returned ns
           /\ notes ns = roll_notes c roll
           /\ forall n, In n (notes ns)
                <-> exists s p, roll_hit roll s p /\ n = drum_note c s p).
Proof.
  intros Hne. unfold DrumRollConverter.toNoteSequence.
  destruct roll as [|row roll]; [done|].
  destruct (DrumRollConverter.decode_rows c (row :: roll) 0 []) as [out|e] eqn:H.
  - right. pose proof (roll_decode_rows_exact _ _ _ _ H) as Hexact.
    apply roll_decode_rows_returns in H as (Hnot & added & -> & Hadded).
    split; [done|]. eexists. split; [reflexivity|]. split; [|done].
    cbn [notes set_notes]. exact Hexact.
  - left. apply roll_decode_rows_throws in H as (-> & Hout). by split.
Qed.

End drum_roll_decode.

(** X6. [DrumRollConverter.toNoteSequence] on a roll of at least one row:
    when the roll holds a value that is not 0 at a column that is no class
    of the converter (the column of the final NOR, say), reading the class
    fails and the call throws; otherwise it returns, row by row and column
    by column, exactly one drum note of one step per value that is not 0, at
    the step of its row and with the first pitch of the class of its
    column. A roll of no row fails the assertion of [tf.split]. *)
Theorem X6_drumRoll_toNoteSequence (c : DrumsConverter.t) (roll : tf.Tensor2D) :
  (roll = [] -> DrumRollConverter.toNoteSequence c roll = Thrown SplitAssertion)
  /\ (roll <> [] -> hit_outside_classes c roll ->
      DrumRollConverter.toNoteSequence c roll = Thrown UndefinedClass)
  /\ (roll <> [] -> ~ hit_outside_classes c roll ->
      exists ns,
        DrumRollConverter.toNoteSequence c roll = Returned ns
        /\ notes ns = roll_notes c roll
        /\ forall n, In n (notes ns)
             <-> exists s p, roll_hit roll s p /\ n = drum_note c s p).
Proof.
  split; [by intros ->|]. split.
  - intros Hne Hout.
    by destruct (roll_toNoteSequence_cases c roll Hne) as [[_ H]|[Hnot _]].
  - intros Hne Hnot.
    by destruct (roll_toNoteSequence_cases c roll Hne) as [[Hout _]|[_ H]].
Qed.

(** ** DrumRollConverter: decoding what toTensor encodes *)

Lemma map_lookup {A B} (f : A -> B) (l : list A) i :
  map f l !! i = option_map f (l !! i).
Proof. revert i. induction l as [|x l IH]; intros [|i]; simpl; done. Qed.

Lemma drums_toTensor_length args ns t :
  snd (DrumsConverter.toTensor (DrumsConverter.new args) ns) = Ok t ->
  length t = numSteps_or (DrumsConverter.numSteps (DrumsConverter.new args)) ns.
Proof.
  rewrite drums_toTensor_snd. intros [= <-]. apply toTensor2D_shape.
  rewrite apply_writes_length. unfold tf.buffer. by rewrite length_replicate.
Qed.

(** X7. What [toTensor] of a [DrumRollConverter] returns, the same converter
    cannot decode when some step after the first has no note starting at it:
    the last column of the roll then holds a 1, a column of no class, and
    [toNoteSequence] throws. *)
Theorem X7_drumRoll_cannot_decode_own_roll (args : DrumsConverterArgs.t)
    (ns : NoteSequence) (s : nat) :
  let c := DrumRollConverter.new args in
  (S s < numSteps_or (DrumsConverter.numSteps c) ns)%nat ->
  existsb (starts_at (S s)) (notes ns) = false ->
  exists t,
    snd (DrumRollConverter.toTensor c ns) = Ok t
    /\ DrumRollConverter.toNoteSequence c t = Thrown UndefinedClass.
Proof.
  intros c Hs Hnone. subst c.
  unfold DrumRollConverter.new, DrumRollConverter.toTensor in *.
  destruct (drums_roll_element args ns s
              (length (DrumsConverter.pitchClasses (DrumsConverter.new args))))
    as (t & row & Ht & Hrow & _ & Hel); [lia|lia|].
  rewrite drums_roll_last_column in Hel by lia. rewrite Hnone in Hel.
  destruct (Nat.ltb_spec (S s)
    (numSteps_or (DrumsConverter.numSteps (DrumsConverter.new args)) ns)) as [_|?];
    [|lia].
  exists t. split; [done|].
  assert (Hne : t <> []) by (by intros ->).
  destruct (roll_toNoteSequence_cases (DrumsConverter.new args) t Hne)
    as [[_ H]|[Hnot _]]; [done|].
  exfalso. apply Hnot.
  exists s, (length (DrumsConverter.pitchClasses (DrumsConverter.new args))).
  split; [|done]. by exists row, 1.
Qed.

Lemma X7_drumRoll_cannot_decode_own_roll_witness :
  exists t,
    snd (DrumRollConverter.toTensor (DrumRollConverter.new default_drums)
           kick_then_snare) = Ok t
    /\ DrumRollConverter.toNoteSequence (DrumRollConverter.new default_drums) t
       = Thrown UndefinedClass.
Proof.
  apply (X7_drumRoll_cannot_decode_own_roll default_drums kick_then_snare 0).
  - simpl. lia.
  - reflexivity.
Defined.

(** X8. Without its last column, the roll [toTensor] returns decodes, when
    it has a row: [DrumRollConverter.toNoteSequence] returns, step by step
    and class by class, exactly one one-step drum note for every step of the
    roll and class at which a note of the sequence starts with a pitch of
    that class, with the first pitch of the class (several notes of one
    class at one step giving one note). *)
Theorem X8_drumRoll_round_trip (args : DrumsConverterArgs.t) (ns : NoteSequence) :
  let c := DrumRollConverter.new args in
  let numSteps := numSteps_or (DrumsConverter.numSteps c) ns in
  let len := length (DrumsConverter.pitchClasses c) in
  (0 < numSteps)%nat ->
  exists t ns',
    snd (DrumRollConverter.toTensor c ns) = Ok t
    /\ DrumRollConverter.toNoteSequence c (map (take len) t) = Returned ns'
    /\ notes ns' = hit_notes c numSteps (notes ns).
Proof.
  intros c numSteps len Hpos. subst c.
  unfold DrumRollConverter.new, DrumRollConverter.toTensor in *.
  set (c := DrumsConverter.new args) in *.
  destruct (snd (DrumsConverter.toTensor c ns)) as [t|] eqn:Ht;
    [|by rewrite drums_toTensor_snd in Ht].
  pose proof (drums_toTensor_length args ns t Ht) as Hlen. fold c numSteps in Hlen.
  assert (Hrows : forall s, (s < numSteps)%nat ->
    exists row, map (take len) t !! s = Some row
                /\ length row = len
                /\ forall p, (p < len)%nat ->
                     row !! p = Some (if existsb (hit_at c s p) (notes ns) then 1 else 0)).
  { intros s Hs.
    destruct (drums_roll_element args ns s 0) as (t' & row & Ht' & Hrow & Hw & _);
      [done|lia|].
    fold c in Ht', Hw. rewrite Ht in Ht'. injection Ht' as <-.
    exists (take len row). split; [|split].
    - rewrite map_lookup. unfold tf.Tensor2D in *. by rewrite Hrow.
    - rewrite length_take. fold len in Hw. lia.
    - intros p Hp. rewrite lookup_take_lt by done.
      destruct (drums_roll_element args ns s p) as (t' & row' & Ht' & Hrow' & _ & Hel);
        [done|fold c len; lia|].
      unfold tf.Tensor2D in *.
      fold c in Ht'. rewrite Ht in Ht'. injection Ht' as <-.
      rewrite Hrow in Hrow'. injection Hrow' as <-.
      rewrite drums_roll_class_column in Hel by done. exact Hel. }
  assert (Hne : map (take len) t <> []).
  { destruct t; [simpl in Hlen; lia|done]. }
  destruct (roll_toNoteSequence_cases c (map (take len) t) Hne)
    as [[(s & p & (row & v & Hs & Hp & Hv) & Hle) _]|[_ (ns' & Hns' & Hexact & _)]].
  { assert (Hslt : (s < numSteps)%nat).
    { apply lookup_lt_Some in Hs. rewrite length_map in Hs. lia. }
    destruct (Hrows s Hslt) as (row' & Hs' & Hw & _).
    unfold tf.Tensor2D in *. rewrite Hs in Hs'. injection Hs' as <-.
    apply lookup_lt_Some in Hp. fold len in Hle. lia. }
  exists t, ns'. split; [done|]. split; [done|].
  rewrite Hexact. unfold roll_notes, hit_notes. rewrite length_map, Hlen.
  apply flat_map_ext_in. intros s Hs. apply in_seq in Hs.
  destruct (Hrows s ltac:(lia)) as (row & Hrow & Hw & Hel).
  unfold tf.Tensor2D in *. rewrite Hrow. cbn [default from_option id].
  unfold row_notes. rewrite Hw. fold len.
  apply flat_map_ext_in. intros p Hp. apply in_seq in Hp.
  rewrite Hel by lia. cbn [default from_option id]. by destruct (existsb (hit_at c s p) (notes ns)).
Qed.

Lemma X8_drumRoll_round_trip_witness :
  exists t ns',
    snd (DrumRollConverter.toTensor (DrumRollConverter.new kick_snare) double_kick) = Ok t
    /\ DrumRollConverter.toNoteSequence (DrumRollConverter.new kick_snare)
         (map (take 2) t) = Returned ns'
    /\ notes ns' = [mkNote 38 0 1 true 0 0; mkNote 36 1 2 true 0 0].
Proof.
  apply (X8_drumRoll_round_trip kick_snare double_kick). simpl. lia.
Defined.

(** ** DrumsOneHotConverter.toTensor: labels, order, rows *)

Lemma foldl_encode_step_labels c l numSteps :
  Forall (encodable_hit c numSteps) l ->
  foldl (DrumsOneHotConverter.encode_note c) (replicate numSteps (Some 0)) l
  = map Some (step_labels c numSteps l).
Proof.
  intros Hl.
  destruct (foldl_encode_labels c l (replicate numSteps 0)) as (ys & Hys & Hlen & Hlook).
  { eapply Forall_impl; [exact Hl|]. simpl. intros n [H1 H2].
    by rewrite length_replicate. }
  rewrite length_replicate in Hlen.
  assert (Hrep : forall n, map Some (replicate n 0) = replicate n (Some 0)).
  { induction n as [|n IH]; simpl; [done|]. by rewrite IH. }
  rewrite Hrep in Hys. rewrite Hys. f_equal.
  apply list_eq. intros i. unfold step_labels.
  destruct (decide (i < numSteps)%nat) as [Hi|Hi].
  - rewrite (Hlook i 0) by (by apply lookup_replicate_2).
    by rewrite map_lookup, lookup_seq_lt by done.
  - rewrite !(proj2 (lookup_ge_None _ _)); [done| |lia].
    rewrite length_map, length_seq. lia.
Qed.

Lemma drumsOneHot_toTensor_labels c ns :
  Forall (encodable_hit c (numSteps_or (DrumsConverter.numSteps c) ns)) (notes ns) ->
  snd (DrumsOneHotConverter.toTensor c ns)
  = tf.oneHot
      (map tf.int32
         (step_labels c (numSteps_or (DrumsConverter.numSteps c) ns) (notes ns)))
      (DrumsConverter.depth c).
Proof.
  intros H. rewrite drumsOneHot_toTensor_snd, foldl_encode_step_labels by done.
  unfold DrumsOneHotConverter.tensor1d_int32. by rewrite map_map.
Qed.

Lemma hits_perm c l l' s : Permutation l l' -> hits c l s = hits c l' s.
Proof.
  induction 1 as [|n l l' _ IH|n m l|l l' l'' _ IH1 _ IH2]; simpl; lia.
Qed.

(** X9. The tensor [DrumsOneHotConverter.toTensor] returns does not depend
    on the order of the notes in the array, for notes that all start at a
    step of the tensor with a pitch of some class: a label is a sum over the
    notes of its step. *)
Theorem X9_drumsOneHot_order_independent (c : DrumsConverter.t) (ns : NoteSequence)
    (l' : list Note) :
  Permutation (notes ns) l' ->
  Forall (encodable_hit c (numSteps_or (DrumsConverter.numSteps c) ns)) (notes ns) ->
  snd (DrumsOneHotConverter.toTensor c (set_notes ns l'))
  = snd (DrumsOneHotConverter.toTensor c ns).
Proof.
  intros Hperm Hl.
  assert (Hl' : Forall (encodable_hit c (numSteps_or (DrumsConverter.numSteps c) ns)) l').
  { eapply Permutation_Forall; [exact Hperm|exact Hl]. }
  rewrite (drumsOneHot_toTensor_labels c ns Hl).
  rewrite (drumsOneHot_toTensor_labels c (set_notes ns l')) by exact Hl'.
  cbn [notes set_notes]. f_equal. f_equal. unfold step_labels.
  apply map_ext. intros i. symmetry. by apply hits_perm.
Qed.

Lemma X9_drumsOneHot_order_independent_witness :
  snd (DrumsOneHotConverter.toTensor (DrumsOneHotConverter.new kick_snare)
         (set_notes pattern pattern_reordered))
  = snd (DrumsOneHotConverter.toTensor (DrumsOneHotConverter.new kick_snare) pattern).
Proof.
  apply (X9_drumsOneHot_order_independent
           (DrumsOneHotConverter.new kick_snare) pattern pattern_reordered).
  - symmetry. apply (Permutation_cons_append [_; _]).
  - repeat (apply List.Forall_cons; [split; [by eexists|simpl; lia]|]).
    apply List.Forall_nil.
Defined.

Lemma add_at_length_eq labels k v :
  length (DrumsOneHotConverter.add_at labels k v)
  = if k <? 0 then length labels
    else Nat.max (length labels) (S (Z.to_nat k)).
Proof.
  unfold DrumsOneHotConverter.add_at. destruct (k <? 0); [done|].
  destruct (labels !! Z.to_nat k) eqn:E.
  - rewrite length_insert. apply lookup_lt_Some in E. lia.
  - apply lookup_ge_None in E. rewrite !length_app, length_replicate. simpl. lia.
Qed.

Lemma foldl_encode_length_in c l : forall labels,
  Forall (fun n => quantizedStartStep n < Z.of_nat (length labels)) l ->
  length (foldl (DrumsOneHotConverter.encode_note c) labels l) = length labels.
Proof.
  induction l as [|n l IH]; intros labels H; simpl; [done|].
  apply Forall_cons in H as [Hn H].
  assert (Hlen : length (DrumsOneHotConverter.encode_note c labels n) = length labels).
  { unfold DrumsOneHotConverter.encode_note. rewrite add_at_length_eq.
    destruct (Z.ltb_spec (quantizedStartStep n) 0); lia. }
  rewrite IH; [done|]. by rewrite Hlen.
Qed.

Lemma foldl_encode_length_past c l n : forall labels,
  In n l -> 0 <= quantizedStartStep n ->
  (Z.to_nat (quantizedStartStep n)
   < length (foldl (DrumsOneHotConverter.encode_note c) labels l))%nat.
Proof.
  induction l as [|m l IH]; intros labels Hin Hs; [done|]. simpl.
  destruct Hin as [->|Hin]; [|by apply IH].
  eapply Nat.lt_le_trans; [|apply foldl_encode_length_le].
  unfold DrumsOneHotConverter.encode_note. rewrite add_at_length_eq.
  replace (quantizedStartStep n <? 0) with false by lia. lia.
Qed.

(** X10. [DrumsOneHotConverter.toTensor] throws the depth error of
    [tf.oneHot] when the depth of the converter is below 2, whatever the
    notes, and returns a tensor otherwise. The number of its rows follows
    the notes: it is [numSteps] when every note starts before step
    [numSteps], and a note that starts at a later step makes the tensor as
    long as to hold that step; a note with a negative start step leaves no
    trace in the tensor, wherever it stands in the array. *)
Theorem X10_drumsOneHot_rows (c : DrumsConverter.t) (ns : NoteSequence) :
  let numSteps := numSteps_or (DrumsConverter.numSteps c) ns in
  (DrumsConverter.depth c < 2 ->
   snd (DrumsOneHotConverter.toTensor c ns) = Err OneHotDepthError)
  /\ (2 <= DrumsConverter.depth c ->
      exists t,
        snd (DrumsOneHotConverter.toTensor c ns) = Ok t
        /\ (Forall (fun n => quantizedStartStep n < Z.of_nat numSteps) (notes ns) ->
            length t = numSteps)
        /\ (forall n, In n (notes ns) -> 0 <= quantizedStartStep n ->
                      (Z.to_nat (quantizedStartStep n) < length t)%nat)
        /\ (forall l1 n l2, notes ns = l1 ++ n :: l2 -> quantizedStartStep n < 0 ->
              snd (DrumsOneHotConverter.toTensor c
                     (mkNoteSequence (l1 ++ l2) (totalQuantizedSteps ns))) = Ok t)).
Proof.
  cbv zeta. split.
  { intros Hd. by rewrite drumsOneHot_toTensor_snd, oneHot_err. }
  intros Hd. eexists. split; [rewrite drumsOneHot_toTensor_snd; by apply oneHot_ok|].
  unfold tf.oneHot_rows, DrumsOneHotConverter.tensor1d_int32. rewrite !length_map.
  split; [|split].
  - intros H. rewrite foldl_encode_length_in; rewrite length_replicate; done.
  - intros n Hn Hs. by apply foldl_encode_length_past.
  - intros l1 n l2 Hns Hneg. rewrite drumsOneHot_toTensor_snd, oneHot_ok by done.
    cbn [notes totalQuantizedSteps]. rewrite Hns, !foldl_app. cbn [foldl].
    assert (Hskip : forall labels, DrumsOneHotConverter.encode_note c labels n = labels).
    { intros labels. unfold DrumsOneHotConverter.encode_note, DrumsOneHotConverter.add_at.
      by replace (quantizedStartStep n <? 0) with true by lia. }
    rewrite Hskip. by destruct ns.
Qed.

Lemma argMax_oneHot_clamp labels depth :
  tf.argMax (tf.oneHot_rows labels depth) = map (clamp_label depth) labels.
Proof.
  unfold tf.argMax, tf.oneHot_rows. rewrite map_map. apply map_ext. intros label.
  apply argMax_oneHot_row.
Qed.

Lemma flat_map_nil {A B} (f : A -> list B) l :
  (forall a, In a l -> f a = []) -> flat_map f l = [].
Proof.
  induction l as [|a l IH]; intros H; simpl; [done|].
  rewrite H, IH; [done| |by left]. intros a' Ha'. apply H. by right.
Qed.

Lemma flat_map_seq_single {B} (f : nat -> list B) j n : forall a,
  (a <= j < a + n)%nat ->
  (forall i, (a <= i < a + n)%nat -> i <> j -> f i = []) ->
  flat_map f (seq a n) = f j.
Proof.
  induction n as [|n IH]; intros a Hj Hf; [lia|]. simpl.
  destruct (decide (a = j)) as [->|Hne].
  - rewrite flat_map_nil; [by rewrite app_nil_r|].
    intros i Hi. apply in_seq in Hi. apply Hf; lia.
  - rewrite (Hf a) by (lia || done). simpl. apply IH; [lia|].
    intros i Hi. apply Hf. lia.
Qed.

Lemma drums_decode_label_0 c s : DrumsConverter.decode_label c s 0 = [].
Proof.
  unfold DrumsConverter.decode_label. apply flat_map_nil. intros p _.
  by rewrite Z.shiftr_0_l.
Qed.

Lemma drums_decode_label_pow2 c s j :
  (j < length (DrumsConverter.pitchClasses c) <= 31)%nat ->
  DrumsConverter.decode_label c s (2 ^ Z.of_nat j) = [drum_note c s j].
Proof.
  intros Hj. unfold DrumsConverter.decode_label.
  rewrite (flat_map_seq_single _ j).
  - rewrite Z.mod_small, land_shiftr_1, Z.pow2_bits_eqb, Z.eqb_refl by lia. done.
  - lia.
  - intros p Hlt Hp.
    rewrite Z.mod_small, land_shiftr_1, Z.pow2_bits_eqb by lia.
    by replace (Z.of_nat j =? Z.of_nat p) with false by lia.
Qed.

(** X11. Two notes of one class at one step do not encode as one hit of the
    class: [DrumsOneHotConverter.toTensor] adds the power of two of the class
    once per note, so that the label of the step is that of the next class,
    and decoding returns one note, of the next class, and nothing else; or
    no note at all when there is no next class. *)
Theorem X11_drumsOneHot_double_hit (args : DrumsConverterArgs.t) (ns : NoteSequence)
    (n1 n2 : Note) (k : nat) :
  let c := DrumsOneHotConverter.new args in
  let numSteps := numSteps_or (DrumsConverter.numSteps c) ns in
  let len := length (DrumsConverter.pitchClasses c) in
  (len <= 31)%nat ->
  notes ns = [n1; n2] ->
  DrumsConverter.pitchToClass c !! pitch n1 = Some k ->
  DrumsConverter.pitchToClass c !! pitch n2 = Some k ->
  quantizedStartStep n2 = quantizedStartStep n1 ->
  0 <= quantizedStartStep n1 < Z.of_nat numSteps ->
  exists t,
    snd (DrumsOneHotConverter.toTensor c ns) = Ok t
    /\ notes (DrumsOneHotConverter.toNoteSequence c t)
       = if (S k <? len)%nat
         then [drum_note c (Z.to_nat (quantizedStartStep n1)) (S k)]
         else [].
Proof.
  intros c numSteps len Hlen Hns Hk1 Hk2 Hsame Hstart.
  set (s := Z.to_nat (quantizedStartStep n1)).
  assert (Hklt : (k < len)%nat).
  { pose proof (new_class_bound args (pitch n1) k Hk1) as H. exact H. }
  assert (Hdepth : DrumsConverter.depth c = 2 ^ Z.of_nat len) by reflexivity.
  assert (Hd2 : 2 <= DrumsConverter.depth c).
  { rewrite Hdepth. apply pow2_ge_2. lia. }
  assert (Hhits : forall i,
    hits c (notes ns) (Z.of_nat i)
    = if decide (i = s) then 2 ^ Z.of_nat (S k) else 0).
  { intros i. rewrite Hns. cbn [hits]. unfold class_of. rewrite Hk1, Hk2, Hsame.
    cbn [default]. destruct (decide (i = s)) as [->|Hne].
    - destruct (Z.eqb_spec (quantizedStartStep n1) (Z.of_nat s)) as [_|Hn];
        [|unfold s in Hn; lia].
      unfold id. rewrite Nat2Z.inj_succ, Z.pow_succ_r by lia. lia.
    - destruct (Z.eqb_spec (quantizedStartStep n1) (Z.of_nat i)) as [E|_];
        [unfold s in Hne; lia|]. lia. }
  assert (Hpow : 2 ^ Z.of_nat len <= 2 ^ 31) by (apply Z.pow_le_mono_r; lia).
  assert (Hlabel : forall i,
    clamp_label (DrumsConverter.depth c) (tf.int32 (hits c (notes ns) (Z.of_nat i)))
    = if decide (i = s /\ (S k < len)%nat) then 2 ^ Z.of_nat (S k) else 0).
  { intros i. rewrite Hhits, Hdepth. unfold clamp_label.
    destruct (decide (i = s)) as [->|Hne].
    - destruct (decide (S k < len)%nat) as [Hlt|Hge].
      + rewrite decide_True by done.
        assert (2 ^ Z.of_nat (S k) < 2 ^ Z.of_nat len) by (apply Z.pow_lt_mono_r; lia).
        pose proof (Z.pow_pos_nonneg 2 (Z.of_nat (S k))).
        rewrite int32_small by lia. case_cmp.
      + rewrite decide_False by (by intros [_ ?]).
        assert (Hk : S k = len) by lia. rewrite Hk.
        destruct (decide (len = 31%nat)) as [->|Hne31].
        * reflexivity.
        * assert (2 ^ Z.of_nat len < 2 ^ 31) by (apply Z.pow_lt_mono_r; lia).
          pose proof (Z.pow_pos_nonneg 2 (Z.of_nat len)).
          rewrite int32_small by lia. case_cmp.
    - rewrite decide_False by (by intros [? _]).
      change (tf.int32 0) with 0. case_cmp. }
  eexists. split.
  { rewrite drumsOneHot_toTensor_labels, oneHot_ok; [reflexivity|done|].
    rewrite Hns.
    apply List.Forall_cons; [split; [by eexists|done]|].
    apply List.Forall_cons; [split; [by eexists|by rewrite Hsame]|].
    apply List.Forall_nil. }
  unfold DrumsOneHotConverter.toNoteSequence, DrumsConverter.toNoteSequence.
  cbn [notes set_notes]. rewrite argMax_oneHot_clamp, map_map.
  unfold step_labels. rewrite map_map. fold numSteps.
  rewrite (drums_decode_labels_steps c
             (fun i => clamp_label (DrumsConverter.depth c)
                         (tf.int32 (hits c (notes ns) (Z.of_nat i))))).
  destruct (Nat.ltb_spec (S k) len) as [Hlt|Hge].
  - rewrite (flat_map_seq_single _ s).
    + rewrite Hlabel, decide_True by done.
      apply drums_decode_label_pow2. fold len. lia.
    + unfold s. lia.
    + intros i _ Hne. rewrite Hlabel, decide_False by (by intros [? _]).
      apply drums_decode_label_0.
  - apply flat_map_nil. intros i _. rewrite Hlabel, decide_False by (intros [_ ?]; lia).
    apply drums_decode_label_0.
Qed.

Lemma X11_drumsOneHot_double_hit_witness :
  exists t,
    snd (DrumsOneHotConverter.toTensor (DrumsOneHotConverter.new default_drums)
           double_snare) = Ok t
    /\ notes (DrumsOneHotConverter.toNoteSequence
                (DrumsOneHotConverter.new default_drums) t)
       = [mkNote 42 1 2 true 0 0].
Proof.
  apply (X11_drumsOneHot_double_hit default_drums double_snare
           (mkNote 38 1 2 true 0 0) (mkNote 40 1 2 true 0 0) 1).
  - simpl. lia.
  - reflexivity.
  - reflexivity.
  - reflexivity.
  - reflexivity.
  - simpl. lia.
Defined.

(** ** MelodyConverter.toTensor: when it returns, and what *)

Lemma set1_length v i values : length (tf.set1 v i values) = length values.
Proof. apply set_index_length. Qed.

Lemma forEach_encode_writes c l : forall mel lastEnd mel' lastEnd',
  forEach (MelodyConverter.encode_note c) l (mel, lastEnd) = Ok (mel', lastEnd') ->
  mel' = melody_writes c l mel.
Proof.
  induction l as [|n l IH]; intros mel lastEnd mel' lastEnd' H.
  - by injection H as <- _.
  - rewrite forEach_cons, encode_note_eq in H.
    destruct (quantizedStartStep n <? lastEnd); [done|].
    destruct ((pitch n <? MelodyConverter.minPitch c)
              || (MelodyConverter.maxPitch c <? pitch n)); [done|].
    cbn [mbind result_bind] in H. by apply IH in H.
Qed.

Lemma melody_writes_length c l : forall mel,
  length (melody_writes c l mel) = length mel.
Proof.
  induction l as [|n l IH]; intros mel; [done|].
  unfold melody_writes in *. cbn [foldl]. by rewrite IH, !set1_length.
Qed.

Lemma melody_tensor_shape c ns t :
  snd (MelodyConverter.toTensor c ns) = Ok t ->
  length t = numSteps_or (MelodyConverter.numSteps c) ns
  /\ Forall (fun row => length row = Z.to_nat (MelodyConverter.depth c)) t.
Proof.
  rewrite melody_toTensor_snd. intros H.
  destruct (forEach (MelodyConverter.encode_note c) (sort_by_start (notes ns))
              (tf.buffer (numSteps_or (MelodyConverter.numSteps c) ns), -1))
    as [[mel lastEnd]|e] eqn:Hf; [|done].
  cbn [mbind result_bind] in H. apply oneHot_inv in H as [_ ->].
  apply forEach_encode_writes in Hf. subst mel.
  destruct (oneHot_shape
    (melody_writes c (sort_by_start (notes ns))
       (tf.buffer (numSteps_or (MelodyConverter.numSteps c) ns)))
    (MelodyConverter.depth c)) as [Hlen Hrows].
  split; [|exact Hrows]. rewrite Hlen, melody_writes_length.
  unfold tf.buffer. by rewrite length_replicate.
Qed.

(** X12. Whenever [MelodyConverter.toTensor] returns a tensor, it has
    [numSteps] rows of [depth] columns, also when notes start or end outside
    the [numSteps] steps. *)
Theorem X12_melody_toTensor_shape (c : MelodyConverter.t) (ns : NoteSequence)
    (t : tf.Tensor2D) :
  snd (MelodyConverter.toTensor c ns) = Ok t ->
  length t = numSteps_or (MelodyConverter.numSteps c) ns
  /\ Forall (fun row => length row = Z.to_nat (MelodyConverter.depth c)) t.
Proof. apply melody_tensor_shape. Qed.

Lemma X12_melody_toTensor_shape_witness :
  exists t,
    snd (MelodyConverter.toTensor piano_8 long_melody) = Ok t
    /\ length t = 8%nat /\ Forall (fun row => length row = 90%nat) t.
Proof.
  eexists. split; [reflexivity|].
  apply (X12_melody_toTensor_shape piano_8 long_melody). reflexivity.
Defined.

(** X13. For notes with non-negative start steps, and [l'] the notes in
    the order of the stable sort by start step, [MelodyConverter.toTensor]
    returns a tensor exactly when the depth of the converter is 2 or more,
    every pitch is from [minPitch] to [maxPitch] and no note of [l'] starts
    before the end of the note just before it; where the notes end, and
    whether they lie within [numSteps], plays no part. *)
Theorem X13_melody_toTensor_returns_iff (c : MelodyConverter.t) (ns : NoteSequence)
    (l' : list Note) :
  Forall start_nonneg (notes ns) ->
  sorted_by_start (notes ns) l' ->
  (exists t, snd (MelodyConverter.toTensor c ns) = Ok t)
  <-> 2 <= MelodyConverter.depth c
      /\ Forall (pitch_in_range c) (notes ns)
      /\ ~ starts_before_previous_end l'.
Proof.
  intros Hs Hsorted. apply sorted_by_start_unique in Hsorted as ->.
  assert (Hfirst : ~ first_starts_before (sort_by_start (notes ns)) (-1)).
  { intros (n & Hn & Hlt). apply (sort_by_start_Forall _ _) in Hs.
    rewrite Forall_lookup in Hs. specialize (Hs _ _ Hn). unfold start_nonneg in Hs. lia. }
  pose proof (overlap_from_iff (sort_by_start (notes ns)) (-1)) as Hiff.
  split.
  - intros [t Ht].
    assert (dec : forall n, {pitch_in_range c n} + {~ pitch_in_range c n}).
    { intros n. unfold pitch_in_range.
      destruct (Z_le_dec (MelodyConverter.minPitch c) (pitch n));
        destruct (Z_le_dec (pitch n) (MelodyConverter.maxPitch c));
        (left; lia) || (right; lia). }
    destruct (Forall_Exists_dec (pitch_in_range c) (fun n => ~ pitch_in_range c n)
                dec (notes ns)) as [Hall|Hex].
    + pose proof (melody_toTensor_in_range c ns Hall) as H.
      destruct (overlap_from (-1) (sort_by_start (notes ns))); [congruence|].
      destruct H as [mel H]. rewrite H in Ht. apply oneHot_inv in Ht as [Hd _].
      split; [done|]. split; [done|]. intros Hprev.
      assert (false = true); [|done]. apply Hiff. by right.
    + exfalso. rewrite melody_toTensor_snd in Ht.
      destruct (forEach_encode_out_of_range c (sort_by_start (notes ns))
                  (tf.buffer (numSteps_or (MelodyConverter.numSteps c) ns)) (-1))
        as [[H|H] _]; [by apply sort_by_start_Exists|..];
        by rewrite H in Ht.
  - intros (Hd & Hall & Hprev).
    pose proof (melody_toTensor_in_range c ns Hall) as H.
    destruct (overlap_from (-1) (sort_by_start (notes ns))).
    + exfalso. destruct (proj1 Hiff eq_refl); done.
    + destruct H as [mel H]. rewrite H, oneHot_ok by done. by eexists.
Qed.

Lemma X13_melody_toTensor_returns_iff_witness :
  exists t, snd (MelodyConverter.toTensor piano_8 long_melody) = Ok t.
Proof.
  refine (proj2 (X13_melody_toTensor_returns_iff piano_8 long_melody
                   [mkNote 60 0 3 false 0 0; mkNote 62 5 11 false 0 0;
                    mkNote 64 12 14 false 0 0] _ _) _).
  - forall_notes.
  - sorted_notes.
  - split; [by vm_compute|]. split; [forall_notes|].
    intros ([|[|[|i]]] & n & m & Hn & Hm & Hlt); simpl in Hn, Hm; try discriminate;
      injection Hn as <-; injection Hm as <-; simpl in Hlt; lia.
Defined.

(** ** MelodyConverter.toTensor: the argument after the call *)

(** X14. After a call of [MelodyConverter.toTensor], whatever it returned or
    threw, the [notes] array of its argument holds the same notes in the
    order of their start steps; a second call on the sequence leaves it as it
    is and gives the result of the first. *)
Theorem X14_melody_toTensor_sorts_argument (c : MelodyConverter.t) (ns : NoteSequence) :
  let ns' := fst (MelodyConverter.toTensor c ns) in
  ascending (notes ns')
  /\ Permutation (notes ns') (notes ns)
  /\ totalQuantizedSteps ns' = totalQuantizedSteps ns
  /\ MelodyConverter.toTensor c ns' = (ns', snd (MelodyConverter.toTensor c ns)).
Proof.
  cbv zeta. rewrite melody_toTensor_fst. cbn [notes set_notes totalQuantizedSteps].
  split; [apply sort_by_start_ascending|]. split; [apply sort_by_start_perm|].
  split; [done|].
  unfold MelodyConverter.toTensor. cbn [notes set_notes totalQuantizedSteps].
  rewrite (sort_by_start_sorted (sort_by_start (notes ns)))
    by apply sort_by_start_ascending.
  destruct ns as [l total]. reflexivity.
Qed.

(** ** The round trip of a melody that runs past the last step *)

Lemma set1_past_end v i values :
  Z.of_nat (length values) <= i -> tf.set1 v i values = values.
Proof.
  intros H. unfold tf.set1, tf.set_index. replace (0 <=? i) with true by lia.
  apply list_insert_ge. lia.
Qed.

Lemma melody_writes_clip c numSteps l : forall mel,
  length mel = numSteps -> Forall well_timed l ->
  melody_writes c (clip_to numSteps l) mel = melody_writes c l mel.
Proof.
  induction l as [|n l IH]; intros mel Hlen Hl; [done|].
  apply Forall_cons in Hl as [Hn Hl]. unfold well_timed in Hn.
  unfold clip_to in *. cbn [List.filter].
  destruct (Z.ltb_spec (quantizedStartStep n) (Z.of_nat numSteps)) as [Hlt|Hge].
  - cbn [map]. unfold melody_writes in *. cbn [foldl].
    cbn [pitch quantizedStartStep quantizedEndStep set_quantizedEndStep].
    rewrite IH by (by rewrite ?set1_length).
    f_equal.
    destruct (Z.le_gt_cases (quantizedEndStep n) (Z.of_nat numSteps)) as [Hle|Hgt].
    + by rewrite Z.min_l by done.
    + rewrite Z.min_r by lia.
      rewrite !(set1_past_end MelodyConverter.NOTE_OFF) by (rewrite set1_length; lia).
      done.
  - unfold melody_writes in *. cbn [foldl].
    rewrite !set1_past_end by (rewrite ?set1_past_end by lia; lia).
    by apply IH.
Qed.

Lemma clip_to_overlap numSteps l : forall e e',
  Forall well_timed l -> overlap_from e l = false -> e' <= e ->
  overlap_from e' (clip_to numSteps l) = false.
Proof.
  induction l as [|n l IH]; intros e e' Hl Hov He; [done|].
  apply Forall_cons in Hl as [Hn Hl]. unfold well_timed in Hn.
  cbn [overlap_from] in Hov. apply orb_false_iff in Hov as [Hstart Hov].
  unfold clip_to in *. cbn [List.filter].
  destruct (quantizedStartStep n <? Z.of_nat numSteps).
  - cbn [map overlap_from quantizedStartStep quantizedEndStep set_quantizedEndStep].
    apply orb_false_iff. split; [lia|]. eapply IH; [done|exact Hov|lia].
  - eapply IH; [done|exact Hov|lia].
Qed.

Lemma clip_to_Forall c numSteps l :
  Forall (pitch_in_range c) l -> Forall well_timed l ->
  Forall (pitch_in_range c) (clip_to numSteps l)
  /\ Forall (fun n => 0 <= quantizedStartStep n < quantizedEndStep n
                      /\ quantizedEndStep n <= Z.of_nat numSteps)
       (clip_to numSteps l).
Proof.
  intros Hr Hw. unfold clip_to.
  split; apply List.Forall_forall; intros n Hn;
    apply in_map_iff in Hn as (m & <- & Hm); apply filter_In in Hm as [Hm Hlt];
    rewrite List.Forall_forall in Hr, Hw; specialize (Hr m Hm); specialize (Hw m Hm).
  - exact Hr.
  - unfold well_timed in Hw. simpl. lia.
Qed.

(** X15. The round trip of a melody whose notes need not lie within the
    [numSteps] steps of the converter: for a monophonic sequence of notes
    with pitches in range, each starting at a step from 0 on and ending after
    it starts, decoding the encoding returns the notes that start before step
    [numSteps], in the order of their start steps (that of a stable sort by
    start step), each ending where it ended or at step [numSteps]; the notes
    that start later are lost. *)
Theorem X15_melody_round_trip_clips (args : MelodyConverterArgs.t) (ns : NoteSequence) :
  let c := MelodyConverter.new args in
  let numSteps := numSteps_or (MelodyConverter.numSteps c) ns in
  2 <= MelodyConverter.depth c <= 2 ^ 31 ->
  monophonic (notes ns) ->
  Forall (pitch_in_range c) (notes ns) ->
  Forall well_timed (notes ns) ->
  exists t,
    snd (MelodyConverter.toTensor c ns) = Ok t
    /\ forall l', sorted_by_start (notes ns) l' ->
         map key (notes (MelodyConverter.toNoteSequence c t))
         = map key (clip_to numSteps l').
Proof.
  intros c numSteps [Hd2 Hd32] Hmono Hrange Hwell.
  assert (Hd : MelodyConverter.depth c
               = MelodyConverter.maxPitch c - MelodyConverter.minPitch c + 3).
  { unfold c, MelodyConverter.new, MelodyConverter.FIRST_PITCH. simpl. lia. }
  pose proof (monophonic_no_overlap _ Hmono Hwell) as Hov.
  set (l := sort_by_start (notes ns)) in *.
  assert (Hrange' : Forall (pitch_in_range c) l) by (by apply sort_by_start_Forall).
  assert (Hwell' : Forall well_timed l) by (by apply sort_by_start_Forall).
  destruct (clip_to_Forall c numSteps l Hrange' Hwell') as [Hcr Hcb].
  destruct (encode_then_decode c numSteps Hd Hd32 (clip_to numSteps l)
              [] O None (-1))
    as (T' & lastEnd' & Henc & Hvalid & Hdec);
    [done|done|by eapply clip_to_overlap|done|lia|done|].
  cbn [closer_of app] in Henc. rewrite Nat.sub_0_r, closing_rests in Henc.
  apply forEach_encode_writes in Henc.
  rewrite melody_writes_clip in Henc by (done || by rewrite length_replicate).
  pose proof (forEach_encode_in_range c l (tf.buffer numSteps) (-1) Hrange') as Hf.
  rewrite Hov in Hf. destruct Hf as [mel' Hf].
  pose proof (forEach_encode_writes c _ _ _ _ _ Hf) as Hmel. unfold tf.buffer in Hmel.
  rewrite <- Henc in Hmel. subst mel'.
  exists (tf.oneHot_rows T' (MelodyConverter.depth c)). split.
  { rewrite melody_toTensor_snd. fold numSteps l. rewrite Hf.
    cbn [mbind result_bind]. by apply oneHot_ok. }
  intros l' Hsorted. apply sorted_by_start_unique in Hsorted as ->. fold l.
  rewrite melody_toNoteSequence_notes, argMax_oneHot by exact Hvalid.
  rewrite Hdec. cbn [closed app]. rewrite map_map. by apply map_ext.
Qed.

Lemma X15_melody_round_trip_clips_witness :
  exists t,
    snd (MelodyConverter.toTensor piano_8 long_melody) = Ok t
    /\ forall l', sorted_by_start (notes long_melody) l' ->
         map key (notes (MelodyConverter.toNoteSequence piano_8 t))
         = map key (clip_to 8 l').
Proof.
  apply (X15_melody_round_trip_clips
           (MelodyConverterArgs.make (Some 8%nat) None 21 108) long_melody).
  - by vm_compute.
  - monophonic_notes.
  - forall_notes.
  - simpl. repeat (apply List.Forall_cons; [unfold well_timed; simpl; lia|]).
    apply List.Forall_nil.
Defined.

(** ** Encoding what MelodyConverter.toNoteSequence returns *)

Lemma chain_ascending lo l hi : chain lo l hi -> ascending l.
Proof.
  revert lo. induction l as [|n l IH]; intros lo H; [done|].
  destruct H as [Hn H]. destruct l as [|m l]; [done|].
  split; [|by eapply IH]. destruct H as [Hm _]. lia.
Qed.

Lemma chain_no_overlap lo l hi e :
  chain lo l hi -> e <= lo -> overlap_from e l = false.
Proof.
  revert lo e. induction l as [|n l IH]; intros lo e H He; [done|].
  destruct H as [Hn H]. cbn [overlap_from]. apply orb_false_iff. split; [lia|].
  eapply IH; [exact H|lia].
Qed.

Lemma decode_label_plain c st s label :
  Forall (fun n => melody_note n = n) (snd st) ->
  (forall n, fst st = Some n -> melody_note (set_quantizedEndStep n 0)
                                = set_quantizedEndStep n 0) ->
  Forall (fun n => melody_note n = n) (snd (MelodyConverter.decode_label c st s label))
  /\ (forall n, fst (MelodyConverter.decode_label c st s label) = Some n ->
        melody_note (set_quantizedEndStep n 0) = set_quantizedEndStep n 0).
Proof.
  destruct st as [curr out]. simpl. intros Hout Hcurr.
  assert (Hclose : forall n e, curr = Some n ->
            Forall (fun n => melody_note n = n) (out ++ [set_quantizedEndStep n e])).
  { intros n e ->. apply Forall_app. split; [done|]. constructor; [|constructor].
    specialize (Hcurr n eq_refl). unfold melody_note, set_quantizedEndStep, Note_create in *.
    simpl in *. destruct n. simpl in *. by injection Hcurr as -> -> ->. }
  destruct (label =? 0); [done|]. destruct (label =? 1).
  - destruct curr as [n|]; simpl; [|done]. split; [by apply Hclose|done].
  - simpl. split.
    + destruct curr as [n|]; [by apply Hclose|done].
    + by intros n [= <-].
Qed.

Lemma decode_labels_plain c labels : forall s st,
  Forall (fun n => melody_note n = n) (snd st) ->
  (forall n, fst st = Some n -> melody_note (set_quantizedEndStep n 0)
                                = set_quantizedEndStep n 0) ->
  Forall (fun n => melody_note n = n)
    (decode_end (MelodyConverter.decode_labels c labels s st)).
Proof.
  induction labels as [|label labels IH]; intros s st Hout Hcurr.
  - destruct st as [[n|] out]; unfold decode_end; simpl in *;
      [|by rewrite app_nil_r].
    apply Forall_app. split; [done|]. constructor; [|constructor].
    specialize (Hcurr n eq_refl). unfold melody_note, set_quantizedEndStep, Note_create in *.
    simpl in *. destruct n. simpl in *. by injection Hcurr as -> -> ->.
  - cbn [MelodyConverter.decode_labels].
    destruct (decode_label_plain c st s label Hout Hcurr) as [H1 H2]. by apply IH.
Qed.

(** What [toNoteSequence] returns for rows of the width of the converter:
    notes that follow one another within the rows, with pitches in range,
    and no other fields set than pitch, start and end. *)
Lemma decoded_melody args oh :
  let c := MelodyConverter.new args in
  Forall (fun row => Z.of_nat (length row) = MelodyConverter.depth c) oh ->
  let out := notes (MelodyConverter.toNoteSequence c oh) in
  (exists hi, chain 0 out hi /\ hi <= Z.of_nat (length oh))
  /\ Forall (pitch_in_range c) out
  /\ Forall (fun n => melody_note n = n) out.
Proof.
  intros c Hrows out.
  assert (Hd : MelodyConverter.depth c
               = MelodyConverter.maxPitch c - MelodyConverter.minPitch c + 3).
  { unfold c, MelodyConverter.new, MelodyConverter.FIRST_PITCH. simpl. lia. }
  pose proof (argMax_label _ _ Hrows) as Hlabels.
  assert (Hinit : decode_inv c 0 (None, [])).
  { split; [constructor|]. exists 0. simpl. lia. }
  destruct (decode_labels_inv c (tf.argMax oh) 0 (None, []) Hd Hlabels Hinit)
    as [Hlen Hinv].
  assert (Hlen' : length (tf.argMax oh) = length oh) by apply length_map.
  assert (Hplain : Forall (fun n => melody_note n = n) out).
  { subst out. rewrite melody_toNoteSequence_notes.
    apply decode_labels_plain; [constructor|done]. }
  split; [|split; [|exact Hplain]]; subst out; rewrite melody_toNoteSequence_notes;
    unfold decode_end;
    destruct (MelodyConverter.decode_labels c (tf.argMax oh) 0 (None, []))
      as [len [curr notes_]]; simpl in Hlen, Hinv; subst len;
    destruct Hinv as (Hp & hi & Hch & Hcurr); simpl in Hp, Hch, Hcurr;
    rewrite Hlen' in *; cbn [fst snd closed].
  - destruct curr as [n|].
    + exists (Z.of_nat (length oh)). split; [|lia].
      eapply chain_snoc; [exact Hch| |]; simpl; lia.
    + exists hi. rewrite app_nil_r. by split.
  - destruct curr as [n|]; [|by rewrite app_nil_r].
    apply Forall_app. split; [done|]. constructor; [|constructor]. by destruct Hcurr.
Qed.

(** X16. What [MelodyConverter.toNoteSequence] returns, the converter (of
    a depth from 2, which [tf.oneHot] needs, to 2^31) encodes again without
    error when its [numSteps] covers the rows decoded, and decoding that
    tensor returns the same notes: decoding, encoding and decoding again is
    decoding once. *)
Theorem X16_melody_decode_encode_decode (args : MelodyConverterArgs.t)
    (oh : tf.Tensor2D) :
  let c := MelodyConverter.new args in
  let ns := MelodyConverter.toNoteSequence c oh in
  2 <= MelodyConverter.depth c <= 2 ^ 31 ->
  Forall (fun row => Z.of_nat (length row) = MelodyConverter.depth c) oh ->
  (length oh <= numSteps_or (MelodyConverter.numSteps c) ns)%nat ->
  exists t,
    snd (MelodyConverter.toTensor c ns) = Ok t
    /\ notes (MelodyConverter.toNoteSequence c t) = notes ns.
Proof.
  intros c ns [Hd2 Hd32] Hrows Hsteps.
  assert (Hd : MelodyConverter.depth c
               = MelodyConverter.maxPitch c - MelodyConverter.minPitch c + 3).
  { unfold c, MelodyConverter.new, MelodyConverter.FIRST_PITCH. simpl. lia. }
  destruct (decoded_melody args oh Hrows) as ((hi & Hch & Hhi) & Hrange & Hplain).
  fold c ns in Hch, Hrange, Hplain.
  pose proof (sort_by_start_sorted _ (chain_ascending _ _ _ Hch)) as Hsorted.
  destruct (encode_then_decode c (numSteps_or (MelodyConverter.numSteps c) ns)
              Hd Hd32 (notes ns) [] O None (-1))
    as (T' & lastEnd' & Henc & Hvalid & Hdec).
  { exact Hrange. }
  { eapply Forall_impl; [exact (chain_bounds _ _ _ Hch)|]. simpl. intros n ?.
    unfold c in *. simpl in *. lia. }
  { eapply chain_no_overlap; [exact Hch|lia]. }
  { done. }
  { lia. }
  { done. }
  cbn [closer_of app] in Henc. rewrite Nat.sub_0_r, closing_rests in Henc.
  exists (tf.oneHot_rows T' (MelodyConverter.depth c)). split.
  { rewrite melody_toTensor_snd, Hsorted. unfold tf.buffer. rewrite Henc.
    cbn [mbind result_bind]. by apply oneHot_ok. }
  rewrite melody_toNoteSequence_notes, argMax_oneHot by exact Hvalid.
  rewrite Hdec. cbn [closed app].
  clear -Hplain. induction Hplain as [|n l Hn _ IH]; [done|]. simpl. by rewrite Hn, IH.
Qed.

Lemma X16_melody_decode_encode_decode_witness :
  exists t,
    snd (MelodyConverter.toTensor (MelodyConverter.new two_pitches)
           (MelodyConverter.toNoteSequence (MelodyConverter.new two_pitches) any_rows))
    = Ok t
    /\ notes (MelodyConverter.toNoteSequence (MelodyConverter.new two_pitches) t)
       = [mkNote 60 0 2 false 0 0; mkNote 61 2 3 false 0 0].
Proof.
  apply (X16_melody_decode_encode_decode two_pitches any_rows).
  - by vm_compute.
  - repeat (apply List.Forall_cons; [reflexivity|]). apply List.Forall_nil.
  - simpl. lia.
Defined.

(** ** TrioConverter.toTensor: shape and the shape error *)

Lemma zip_rows_widths (a b : tf.Tensor2D) wa wb :
  Forall (fun row => length row = wa) a -> Forall (fun row => length row = wb) b ->
  Forall (fun row => length row = (wa + wb)%nat) (tf.zip_rows a b).
Proof.
  intros Ha. revert b. induction Ha as [|x a Hx Ha IH]; intros b Hb; [constructor|].
  destruct Hb as [|y b Hy Hb]; [constructor|]. simpl. constructor; [|by apply IH].
  rewrite length_app. lia.
Qed.

Lemma drumsOneHot_tensor_shape c ns t :
  snd (DrumsOneHotConverter.toTensor c ns) = Ok t ->
  (numSteps_or (DrumsConverter.numSteps c) ns <= length t)%nat
  /\ Forall (fun row => length row = Z.to_nat (DrumsConverter.depth c)) t
  /\ (forall n, In n (notes ns) -> 0 <= quantizedStartStep n ->
                (Z.to_nat (quantizedStartStep n) < length t)%nat).
Proof.
  rewrite drumsOneHot_toTensor_snd. intros H. apply oneHot_inv in H as [_ ->].
  destruct (oneHot_shape
    (DrumsOneHotConverter.tensor1d_int32
       (foldl (DrumsOneHotConverter.encode_note c)
          (replicate (numSteps_or (DrumsConverter.numSteps c) ns) (Some 0))
          (notes ns)))
    (DrumsConverter.depth c)) as [Hlen Hrows].
  rewrite Hlen. unfold DrumsOneHotConverter.tensor1d_int32. rewrite length_map.
  split; [|split; [exact Hrows|]].
  - etrans; [|apply foldl_encode_length_le]. by rewrite length_replicate.
  - intros n Hn Hs. by apply foldl_encode_length_past.
Qed.

(** X17. Whenever [TrioConverter.toTensor] returns a tensor, it has
    [numSteps] rows, each as wide as the three depths together (the three
    depths as widths). *)
Theorem X17_trio_toTensor_shape (args : TrioConverterArgs.t) (ns : NoteSequence)
    (t : tf.Tensor2D) :
  let c := snd (TrioConverter.new args) in
  snd (TrioConverter.toTensor c ns) = Ok t ->
  length t = numSteps_or (TrioConverter.numSteps c) ns
  /\ Forall (fun row =>
               length row
               = (Z.to_nat (MelodyConverter.depth (TrioConverter.melConverter c))
                  + Z.to_nat (MelodyConverter.depth (TrioConverter.bassConverter c))
                  + Z.to_nat (DrumsConverter.depth (TrioConverter.drumsConverter c)))%nat)
       t.
Proof.
  intros c. rewrite trio_toTensor_snd.
  destruct (snd (MelodyConverter.toTensor _ (restrict melody_part ns))) as [mel|] eqn:Hm;
    [|discriminate].
  destruct (snd (MelodyConverter.toTensor _ (restrict bass_part ns))) as [bass|] eqn:Hb;
    [|discriminate].
  destruct (snd (DrumsOneHotConverter.toTensor _ (restrict drums_part ns)))
    as [drums|] eqn:Hdr; [|discriminate].
  cbn [mbind result_bind]. unfold tf.concat3.
  destruct (length mel =? length bass)%nat eqn:E1; [|discriminate].
  destruct (length bass =? length drums)%nat eqn:E2; [|discriminate].
  apply Nat.eqb_eq in E1, E2. simpl. intros [= <-].
  apply melody_tensor_shape in Hm as [Hml Hmw].
  apply melody_tensor_shape in Hb as [Hbl Hbw].
  apply drumsOneHot_tensor_shape in Hdr as (_ & Hdw & _).
  split.
  - rewrite zip_rows_length; rewrite zip_rows_length; try congruence. exact Hml.
  - by apply zip_rows_widths; [apply zip_rows_widths|].
Qed.

Lemma X17_trio_toTensor_shape_witness :
  exists t,
    snd (TrioConverter.toTensor (snd (TrioConverter.new small_trio)) trio_notes) = Ok t
    /\ length t = 2%nat /\ Forall (fun row => length row = 10%nat) t.
Proof.
  eexists. split; [reflexivity|].
  apply (X17_trio_toTensor_shape small_trio trio_notes). reflexivity.
Defined.

(** X18. A drum note that starts at step [numSteps] or later makes
    [TrioConverter.toTensor] throw when the melody and the bass encode: the
    drum tensor then has more rows than the two melody tensors, which keep
    to [numSteps] rows, and [tf.concat] refuses them; with an empty table of
    drum classes, the drum converter has thrown before, the depth error of
    [tf.oneHot]. (A melody or bass note that starts so late is skipped
    without error.) *)
Theorem X18_trio_late_drum_throws (args : TrioConverterArgs.t) (ns : NoteSequence)
    (n : Note) :
  let c := snd (TrioConverter.new args) in
  In n (notes ns) -> isDrum n = true ->
  Z.of_nat (numSteps_or (TrioConverter.numSteps c) ns) <= quantizedStartStep n ->
  (exists mel, snd (MelodyConverter.toTensor (TrioConverter.melConverter c)
                      (restrict melody_part ns)) = Ok mel) ->
  (exists bass, snd (MelodyConverter.toTensor (TrioConverter.bassConverter c)
                       (restrict bass_part ns)) = Ok bass) ->
  snd (TrioConverter.toTensor c ns)
  = Err (if DrumsConverter.depth (TrioConverter.drumsConverter c) <? 2
         then OneHotDepthError else TensorShapeError).
Proof.
  intros c Hn Hdrum Hlate [mel Hm] [bass Hb]. rewrite trio_toTensor_snd, Hm, Hb.
  cbn [mbind result_bind].
  destruct (Z.ltb_spec (DrumsConverter.depth (TrioConverter.drumsConverter c)) 2)
    as [Hd|Hd].
  { by rewrite drumsOneHot_toTensor_snd, oneHot_err. }
  destruct (snd (DrumsOneHotConverter.toTensor (TrioConverter.drumsConverter c)
                   (restrict drums_part ns))) as [drums|] eqn:Hdr;
    [|by rewrite drumsOneHot_toTensor_snd, oneHot_ok in Hdr].
  cbn [mbind result_bind]. unfold tf.concat3.
  apply melody_tensor_shape in Hm as [Hml _].
  apply melody_tensor_shape in Hb as [Hbl _].
  apply drumsOneHot_tensor_shape in Hdr as (_ & _ & Hpast).
  specialize (Hpast n). cbn [restrict notes] in Hpast.
  assert (Hlen : (Z.to_nat (quantizedStartStep n) < length drums)%nat).
  { apply Hpast; [|lia]. apply filter_In. by split. }
  cbn [restrict] in Hml, Hbl.
  replace (length bass =? length drums)%nat with false.
  - by rewrite andb_false_r.
  - symmetry. apply Nat.eqb_neq. rewrite Hbl.
    change (numSteps_or (TrioConverter.numSteps c) ns <> length drums). lia.
Qed.

Lemma X18_trio_late_drum_throws_witness :
  snd (TrioConverter.toTensor (snd (TrioConverter.new small_trio)) trio_late_drum)
  = Err TensorShapeError.
Proof.
  apply (X18_trio_late_drum_throws small_trio trio_late_drum (mkNote 36 3 4 true 0 0)).
  - right. by left.
  - reflexivity.
  - simpl. lia.
  - eexists. reflexivity.
  - eexists. reflexivity.
Defined.

(** ** The round trip of a trio *)

Lemma zip_rows_split (a b c : tf.Tensor2D) (wa wb wc : nat) :
  length a = length b -> length b = length c ->
  Forall (fun row => length row = wa) a ->
  Forall (fun row => length row = wb) b ->
  Forall (fun row => length row = wc) c ->
  let t := tf.zip_rows (tf.zip_rows a b) c in
  map (take wa) t = a
  /\ map (fun row => take wb (drop wa row)) t = b
  /\ map (drop (wa + wb)) t = c
  /\ Forall (fun row => length row = (wa + wb + wc)%nat) t.
Proof.
  intros Hab Hbc Ha. revert b c Hab Hbc.
  induction Ha as [|x a Hx Ha IH]; intros [|y b] [|z c]; simpl; try done.
  intros [= Hab] [= Hbc] Hb Hc.
  apply Forall_cons in Hb as [Hy Hb]. apply Forall_cons in Hc as [Hz Hc].
  destruct (IH b c Hab Hbc Hb Hc) as (-> & -> & -> & Hw).
  repeat split.
  - f_equal. rewrite <- app_assoc, take_app_length'; done.
  - f_equal. rewrite <- app_assoc, drop_app_length', take_app_length'; done.
  - f_equal. rewrite drop_app_length'; [done|]. rewrite length_app. lia.
  - apply List.Forall_cons; [|exact Hw]. rewrite !length_app. lia.
Qed.

Lemma split3_concat3 (a b c : tf.Tensor2D) (d0 d1 d2 : Z) :
  0 <= d0 -> 0 <= d1 -> 0 <= d2 ->
  length a = length b -> length b = length c ->
  Forall (fun row => length row = Z.to_nat d0) a ->
  Forall (fun row => length row = Z.to_nat d1) b ->
  Forall (fun row => length row = Z.to_nat d2) c ->
  exists t, tf.concat3 a b c = Ok t /\ tf.split3 t d0 d1 d2 = Ok (a, b, c).
Proof.
  intros H0 H1 H2 Hab Hbc Ha Hb Hc.
  exists (tf.zip_rows (tf.zip_rows a b) c). split.
  - unfold tf.concat3. by rewrite Hab, Hbc, !Nat.eqb_refl.
  - destruct (zip_rows_split a b c _ _ _ Hab Hbc Ha Hb Hc) as (E0 & E1 & E2 & Hw).
    unfold tf.split3. rewrite E0, E1, E2.
    replace (forallb _ _) with true.
    + by rewrite !(proj2 (Z.leb_le 0 _)).
    + symmetry. apply forallb_forall. rewrite List.Forall_forall in Hw.
      intros row Hrow. apply Z.eqb_eq. rewrite (Hw row Hrow). lia.
Qed.

Lemma insert_by_start_map (f : Note -> Note) n l :
  (forall m, quantizedStartStep (f m) = quantizedStartStep m) ->
  insert_by_start (f n) (map f l) = map f (insert_by_start n l).
Proof.
  intros Hf. induction l as [|m l IH]; [done|]. cbn [map insert_by_start].
  rewrite !Hf. destruct (quantizedStartStep n <=? quantizedStartStep m); [done|].
  cbn [map]. by rewrite IH.
Qed.

Lemma sort_by_start_map (f : Note -> Note) l :
  (forall m, quantizedStartStep (f m) = quantizedStartStep m) ->
  sort_by_start (map f l) = map f (sort_by_start l).
Proof.
  intros Hf. induction l as [|n l IH]; [done|]. cbn [map sort_by_start].
  by rewrite IH, insert_by_start_map.
Qed.

Lemma map_flat_map {A B C} (f : B -> C) (g : A -> list B) l :
  map f (flat_map g l) = flat_map (fun a => map f (g a)) l.
Proof. induction l as [|a l IH]; simpl; [done|]. by rewrite map_app, IH. Qed.

Lemma NoDup_flat_map {A B} (g : A -> list B) l :
  NoDup l ->
  (forall a, In a l -> NoDup (g a)) ->
  (forall a a' b, In a l -> In a' l -> In b (g a) -> In b (g a') -> a = a') ->
  NoDup (flat_map g l).
Proof.
  induction 1 as [|a l Ha Hl IH]; intros Hg Hdisj; simpl; [constructor|].
  apply NoDup_app. split; [apply Hg; by left|]. split.
  - intros b Hb Hb'. apply list_elem_of_In in Hb, Hb'.
    apply in_flat_map in Hb' as (a' & Ha' & Hb').
    assert (a = a') as <- by (eapply Hdisj; [by left|by right|done|done]).
    apply Ha. by apply list_elem_of_In.
  - apply IH.
    + intros a' Ha'. apply Hg. by right.
    + intros a1 a2 b H1 H2. apply Hdisj; by right.
Qed.

Lemma NoDup_map_rekey {A K K'} (g : A -> K) (g' : A -> K') l :
  (forall x y, In x l -> In y l -> g' x = g' y -> g x = g y) ->
  NoDup (map g l) -> NoDup (map g' l).
Proof.
  induction l as [|x l IH]; intros Hkey Hnd; simpl; [constructor|].
  cbn [map] in Hnd. apply NoDup_cons in Hnd as [Hx Hnd]. apply NoDup_cons. split.
  - intros Hin. apply Hx. apply list_elem_of_In in Hin. apply list_elem_of_In.
    apply in_map_iff in Hin as (y & Hy & Hin). apply in_map_iff. exists y.
    split; [|done]. symmetry. apply Hkey; [by left|by right|done].
  - apply IH; [|done]. intros y z Hy Hz. apply Hkey; by right.
Qed.

(** The steps and classes at which notes of [l] start, in the order of
    [hit_notes]. *)
Lemma hit_notes_positions c numSteps l :
  hit_notes c numSteps l
  = map (fun sk => drum_note c (fst sk) (snd sk))
      (flat_map
         (fun s =>
            flat_map (fun k => if existsb (hit_at c s k) l then [(s, k)] else [])
              (seq 0 (length (DrumsConverter.pitchClasses c))))
         (seq 0 numSteps)).
Proof.
  unfold hit_notes. rewrite map_flat_map. apply flat_map_ext. intros s.
  rewrite map_flat_map. apply flat_map_ext. intros k.
  by destruct (existsb (hit_at c s k) l).
Qed.

(** With no two notes in one class at one step, the decoded notes are the
    notes of the sequence, one for one, each at the first pitch of its
    class. *)
Lemma hit_notes_perm args numSteps l :
  let c := DrumsOneHotConverter.new args in
  encodable_drums c numSteps l ->
  Permutation (hit_notes c numSteps l)
    (map (fun m => drum_note c (Z.to_nat (quantizedStartStep m)) (class_of c m)) l).
Proof.
  intros c (Hnd & Hmapped & Hsteps).
  rewrite List.Forall_forall in Hmapped, Hsteps.
  rewrite hit_notes_positions.
  rewrite <- (map_map (fun m => (Z.to_nat (quantizedStartStep m), class_of c m))
                (fun sk => drum_note c (fst sk) (snd sk))).
  apply Permutation_map. apply Permutation.NoDup_Permutation.
  - apply NoDup_ListNoDup, NoDup_flat_map.
    + apply NoDup_seq.
    + intros s _. apply NoDup_flat_map.
      * apply NoDup_seq.
      * intros k _. destruct (existsb (hit_at c s k) l); [|constructor].
        apply NoDup_singleton.
      * intros k k' b _ _ Hb Hb'.
        destruct (existsb (hit_at c s k) l); [|done].
        destruct (existsb (hit_at c s k') l); [|done].
        destruct Hb as [<-|[]]. by destruct Hb' as [[= ->]|[]].
    + intros s s' b _ _ Hb Hb'.
      apply in_flat_map in Hb as (k & _ & Hb). apply in_flat_map in Hb' as (k' & _ & Hb').
      destruct (existsb (hit_at c s k) l); [|done].
      destruct (existsb (hit_at c s' k') l); [|done].
      destruct Hb as [<-|[]]. by destruct Hb' as [[= ->]|[]].
  - apply NoDup_ListNoDup.
    apply (NoDup_map_rekey (fun n => (class_of c n, quantizedStartStep n))); [|done].
    intros x y Hx Hy [= Hs Hk]. specialize (Hsteps x Hx) as Hsx.
    specialize (Hsteps y Hy) as Hsy. simpl in Hsx, Hsy. f_equal; [done|lia].
  - intros [s k]. rewrite in_flat_map, in_map_iff. split.
    + intros (s' & Hs' & Hin). apply in_flat_map in Hin as (k' & Hk' & Hin).
      destruct (existsb (hit_at c s' k') l) eqn:Hhit; [|done].
      destruct Hin as [[= -> ->]|[]].
      apply existsb_hit_at in Hhit as (m & Hm & Hstart & Hcls).
      exists m. split; [|done]. unfold class_of. rewrite Hcls. simpl. f_equal. lia.
    + intros (m & [= <- <-] & Hm).
      destruct (new_class_of args m (Hmapped m Hm)) as [Hcls Hlt]. fold c in Hcls, Hlt.
      specialize (Hsteps m Hm). simpl in Hsteps.
      exists (Z.to_nat (quantizedStartStep m)). split; [apply in_seq; lia|].
      apply in_flat_map. exists (class_of c m). split; [apply in_seq; lia|].
      replace (existsb _ l) with true; [by left|]. symmetry.
      apply existsb_hit_at. exists m. split; [done|]. split; [lia|done].
Qed.

(** X19. The round trip of a trio. When the melody notes (non-drum, program
    0 to 31) and the bass notes (non-drum, program 32 to 39) of a sequence
    are each monophonic, in the pitch range of their converter and within
    the steps, and the drum notes have known pitches, start within the steps
    and no two of one class start together (the depths of the two melody
    converters being from 2 to 2^31, and the drum classes from 1 to 31),
    then [toTensor] returns a tensor and [toNoteSequence] of it returns
    first the melody notes in the order of a stable sort by start step, with
    instrument 0 and program 0, then the bass notes in that order, with
    instrument 1 and program 32, then drum notes of one step and instrument
    2, one for each drum note of the sequence, at its start step and the
    first pitch of its class. Notes of no part are lost. *)
Theorem X19_trio_round_trip (args : TrioConverterArgs.t) (ns : NoteSequence) :
  let c := snd (TrioConverter.new args) in
  let numSteps := numSteps_or (TrioConverter.numSteps c) ns in
  let mel := TrioConverter.melConverter c in
  let bass := TrioConverter.bassConverter c in
  let drums := TrioConverter.drumsConverter c in
  2 <= MelodyConverter.depth mel <= 2 ^ 31 ->
  2 <= MelodyConverter.depth bass <= 2 ^ 31 ->
  (0 < length (DrumsConverter.pitchClasses drums) <= 31)%nat ->
  encodable_melody mel numSteps (List.filter melody_part (notes ns)) ->
  encodable_melody bass numSteps (List.filter bass_part (notes ns)) ->
  encodable_drums drums numSteps (List.filter drums_part (notes ns)) ->
  exists t out M B D,
    snd (TrioConverter.toTensor c ns) = Ok t
    /\ TrioConverter.toNoteSequence c t = Ok out
    /\ notes out = (M ++ B) ++ D
    /\ sorted_by_start (map trio_melody_note (List.filter melody_part (notes ns))) M
    /\ sorted_by_start (map trio_bass_note (List.filter bass_part (notes ns))) B
    /\ Permutation D (map (trio_drum_note drums) (List.filter drums_part (notes ns))).
Proof.
  intros c numSteps mel bass drums Hmd Hbd Hlen Hmel Hbass Hdrums.
  destruct (melody_round_trip_notes
              (TrioConverter.copy_numSteps_mel (TrioConverterArgs.numSteps args)
                 (TrioConverterArgs.melArgs args))
              (restrict melody_part ns) Hmd Hmel) as (tm & Htm & Hnm).
  destruct (melody_round_trip_notes
              (TrioConverter.copy_numSteps_mel (TrioConverterArgs.numSteps args)
                 (TrioConverterArgs.bassArgs args))
              (restrict bass_part ns) Hbd Hbass) as (tb & Htb & Hnb).
  destruct (drumsOneHot_round_trip_exact
              (TrioConverter.copy_numSteps_drums (TrioConverterArgs.numSteps args)
                 (TrioConverterArgs.drumsArgs args))
              (restrict drums_part ns) Hlen Hdrums) as (td & Htd & Hld & Hnd).
  change (MelodyConverter.new _) with mel in Htm, Hnm.
  change (MelodyConverter.new _) with bass in Htb, Hnb.
  change (DrumsOneHotConverter.new _) with drums in Htd, Hnd.
  destruct (melody_tensor_shape _ _ _ Htm) as [Hlm Hwm].
  destruct (melody_tensor_shape _ _ _ Htb) as [Hlb Hwb].
  destruct (drumsOneHot_tensor_shape _ _ _ Htd) as (_ & Hwd & _).
  destruct (split3_concat3 tm tb td (MelodyConverter.depth mel)
              (MelodyConverter.depth bass) (DrumsConverter.depth drums))
    as (t & Hcat & Hsplit); try done; try lia.
  { apply Z.lt_le_incl, Z.pow_pos_nonneg; lia. }
  { by rewrite Hlm, Hlb. }
  { by rewrite Hlb, Hld. }
  exists t. eexists.
  exists (map trio_melody_note (sort_by_start (List.filter melody_part (notes ns)))),
         (map trio_bass_note (sort_by_start (List.filter bass_part (notes ns)))),
         (map TrioConverter.tag_drums
            (notes (DrumsOneHotConverter.toNoteSequence drums td))).
  split; [|split; [|split; [|split; [|split]]]].
  - rewrite trio_toTensor_snd. fold mel bass drums. by rewrite Htm, Htb, Htd.
  - unfold TrioConverter.toNoteSequence. fold mel bass drums. rewrite Hsplit.
    cbn [mbind result_bind]. reflexivity.
  - cbn [notes set_notes]. rewrite Hnm, Hnb. cbn [restrict notes].
    by rewrite !map_map.
  - rewrite <- sort_by_start_map by done. apply sort_by_start_sorted_by.
  - rewrite <- sort_by_start_map by done. apply sort_by_start_sorted_by.
  - rewrite Hnd.
    pose proof (hit_notes_perm
                  (TrioConverter.copy_numSteps_drums (TrioConverterArgs.numSteps args)
                     (TrioConverterArgs.drumsArgs args)) _ _ Hdrums) as Hperm.
    etrans; [apply Permutation_map; exact Hperm|].
    change (DrumsOneHotConverter.new _) with drums.
    rewrite map_map. apply Permutation_refl'. apply map_ext_in. intros m Hm.
    destruct Hdrums as (_ & _ & Hsteps). rewrite List.Forall_forall in Hsteps.
    specialize (Hsteps m Hm). simpl in Hsteps.
    unfold trio_drum_note, representativePitch, TrioConverter.tag_drums, drum_note,
      set_instrument, Note_create. simpl. f_equal; lia.
Qed.

Lemma X19_trio_round_trip_witness :
  exists t out M B D,
    snd (TrioConverter.toTensor (snd (TrioConverter.new small_trio)) trio_notes) = Ok t
    /\ TrioConverter.toNoteSequence (snd (TrioConverter.new small_trio)) t = Ok out
    /\ notes out = (M ++ B) ++ D
    /\ sorted_by_start [mkNote 61 1 2 false 0 0; mkNote 60 0 1 false 0 0] M
    /\ sorted_by_start [mkNote 36 0 2 false 32 1] B
    /\ Permutation D [mkNote 36 1 2 true 0 2; mkNote 36 0 1 true 0 2].
Proof.
  apply (X19_trio_round_trip small_trio trio_notes).
  - by vm_compute.
  - by vm_compute.
  - simpl. lia.
  - split; [|split]; simpl.
    + monophonic_notes.
    + repeat (apply List.Forall_cons; [unfold pitch_in_range; simpl; lia|]).
      apply List.Forall_nil.
    + repeat (apply List.Forall_cons; [simpl; lia|]). apply List.Forall_nil.
  - split; [|split]; simpl.
    + monophonic_notes.
    + repeat (apply List.Forall_cons; [unfold pitch_in_range; simpl; lia|]).
      apply List.Forall_nil.
    + repeat (apply List.Forall_cons; [simpl; lia|]). apply List.Forall_nil.
  - split; [|split]; simpl.
    + apply (bool_decide_unpack _). by vm_compute.
    + repeat (apply List.Forall_cons;
                [unfold mapped; simpl; apply Exists_cons_hd; simpl; tauto|]).
      apply List.Forall_nil.
    + repeat (apply List.Forall_cons; [simpl; lia|]). apply List.Forall_nil.
Defined.

(** ** DrumsConverter.toNoteSequence of the roll of DrumsConverter.toTensor *)

Lemma argMax_from_top row : forall j mx i,
  Forall (fun v => v <= mx) row -> tf.argMax_from row j mx i = i.
Proof.
  induction row as [|v row IH]; intros j mx i H; simpl; [done|].
  apply Forall_cons in H as [Hv H].
  destruct (Z.ltb_spec mx v); [lia|]. by apply IH.
Qed.

Lemma shiftr_0_land a : Z.land (Z.shiftr 0 a) 1 = 0.
Proof. by rewrite Z.shiftr_0_l. Qed.

(** X20. [DrumsConverter.toNoteSequence] does not undo
    [DrumsConverter.toTensor]: it reads the index of the greatest value of a
    row as a set of classes, and a row of the roll with a hit of class 0
    has this index 0. So when a note of class 0 starts at a step of the
    roll, the sequence decoded from the roll has no note at all at this
    step. *)
Theorem X20_drums_roll_decodes_no_kick (args : DrumsConverterArgs.t) (ns : NoteSequence)
    (n : Note) :
  let c := DrumsConverter.new args in
  In n (notes ns) ->
  DrumsConverter.pitchToClass c !! pitch n = Some O ->
  0 <= quantizedStartStep n < Z.of_nat (numSteps_or (DrumsConverter.numSteps c) ns) ->
  exists t,
    snd (DrumsConverter.toTensor c ns) = Ok t
    /\ forall m, In m (notes (DrumsConverter.toNoteSequence c t)) ->
                 quantizedStartStep m <> quantizedStartStep n.
Proof.
  intros c. subst c. intros Hn Hcls Hstart.
  set (s := Z.to_nat (quantizedStartStep n)).
  assert (Hs : (s < numSteps_or (DrumsConverter.numSteps (DrumsConverter.new args)) ns)%nat)
    by (unfold s; lia).
  assert (Hlen : (0 < length (DrumsConverter.pitchClasses (DrumsConverter.new args)))%nat)
    by exact (new_class_bound args _ _ Hcls).
  destruct (drums_roll_element args ns s 0) as (t & row & Ht & Hrow & Hwidth & Hel);
    [done|lia|].
  assert (Hcols : forall j v, row !! j = Some v -> v <= 1).
  { intros j v Hj. assert (Hjw : (j < S (length (DrumsConverter.pitchClasses
                                           (DrumsConverter.new args))))%nat).
    { rewrite <- Hwidth. by eapply lookup_lt_Some. }
    destruct (drums_roll_element args ns s j) as (t' & row' & Ht' & Hrow' & _ & Hel');
      [done|done|].
    rewrite Ht in Ht'. injection Ht' as <-.
    rewrite Hrow in Hrow'. injection Hrow' as <-. rewrite Hj in Hel'.
    destruct (decide (j = length (DrumsConverter.pitchClasses (DrumsConverter.new args))))
      as [->|Hne].
    - rewrite (drums_roll_last_column args ns s Hs) in Hel'. injection Hel' as ->.
      by repeat case_match.
    - rewrite (drums_roll_class_column args ns s j Hs) in Hel' by lia.
      injection Hel' as ->. by case_match. }
  rewrite (drums_roll_class_column args ns s 0 Hs Hlen) in Hel.
  replace (existsb (hit_at (DrumsConverter.new args) s 0) (notes ns)) with true in Hel.
  2:{ symmetry. apply existsb_hit_at. exists n. split; [done|]. split; [|done].
      unfold s. lia. }
  assert (Hmax : tf.argMax_row row = O).
  { destruct row as [|v row']; [done|]. injection Hel as ->. simpl.
    apply argMax_from_top. apply Forall_lookup. intros j v Hj.
    by apply (Hcols (S j)). }
  exists t. split; [done|]. intros m Hm Heq.
  unfold DrumsConverter.toNoteSequence in Hm. cbn [notes set_notes] in Hm.
  apply drums_decode_labels_In in Hm as (i & label & Hi & Hm).
  apply drums_decode_label_In in Hm as (p & _ & Hbit & ->). simpl in Heq.
  assert (i = s) by (unfold s; lia). subst i.
  unfold tf.argMax in Hi. unfold tf.Tensor2D in *.
  rewrite map_lookup, Hrow in Hi. cbn [option_map] in Hi. rewrite Hmax in Hi.
  injection Hi as <-.
  by rewrite shiftr_0_land in Hbit.
Qed.

Lemma X20_drums_roll_decodes_no_kick_witness :
  exists t,
    snd (DrumsConverter.toTensor (DrumsConverter.new default_drums) kick_then_snare)
    = Ok t
    /\ forall m, In m (notes (DrumsConverter.toNoteSequence
                                (DrumsConverter.new default_drums) t)) ->
                 quantizedStartStep m <> 0.
Proof.
  apply (X20_drums_roll_decodes_no_kick default_drums kick_then_snare
           (mkNote 36 0 1 true 0 0)).
  - by left.
  - reflexivity.
  - simpl. lia.
Defined.
